(** * wordlestats-discord-bot: a shallow embedding of [index.js]

    The bot reads Wordle results out of chat messages
    ([parseWordleScore]), keeps them per user in an in-memory [Map]
    ([userScores]), ranks the users over a time window
    ([calculateStats]), fills the store at start-up from the
    channel history ([fetchHistoricalMessages]), and answers the
    [wordlestats] command with an embed ([interactionCreate]).

    Parts I to III are definitions: the pieces of the JavaScript
    runtime that the program leans on (strings of UTF-16 code units,
    [parseInt], the backtracking matcher behind
    [String.prototype.match], division and [toFixed] on doubles,
    [Array.prototype.sort], [Map], and the calendar arithmetic of
    [Date]), then the program, function by function, then the
    vocabulary of the properties.  Parts IV to VIII are the proofs. *)

From Stdlib Require Import ZArith List String Ascii Bool Lia.
From Stdlib Require Import Sorted Permutation.
From Stdlib Require Import SpecFloat.
From Stdlib Require DecimalString.
Import ListNotations.

Local Open Scope Z_scope.

(* ================================================================== *)
(** * Part I: the runtime *)
(* ================================================================== *)

(** ** Strings *)

(** A JavaScript string is a sequence of UTF-16 code units. *)
Definition code_unit := Z.
Definition jsstring := list code_unit.

Fixpoint str (s : string) : jsstring :=
  match s with
  | EmptyString => []
  | String a s' => Z.of_N (N_of_ascii a) :: str s'
  end.

Definition code_unit_eqb (a b : code_unit) : bool := a =? b.

Fixpoint jsstring_eqb (a b : jsstring) : bool :=
  match a, b with
  | [], [] => true
  | x :: a', y :: b' => code_unit_eqb x y && jsstring_eqb a' b'
  | _, _ => false
  end.

(** Case mapping.  Only the ASCII letters are mapped: the pattern and
    the strings that the program compares after [toUpperCase] are
    ASCII, and ECMAScript's [Canonicalize] never maps a code unit
    above 127 to one below 128. *)
Definition toUpperCase_unit (c : code_unit) : code_unit :=
  if (97 <=? c) && (c <=? 122) then c - 32 else c.

Definition toLowerCase_unit (c : code_unit) : code_unit :=
  if (65 <=? c) && (c <=? 90) then c + 32 else c.

Definition toUpperCase (s : jsstring) : jsstring := map toUpperCase_unit s.

(** [\d] *)
Definition is_digit (c : code_unit) : bool := (48 <=? c) && (c <=? 57).

(** [\s]: ECMAScript's WhiteSpace and LineTerminator code points. *)
Definition is_space (c : code_unit) : bool :=
  ((9 <=? c) && (c <=? 13)) || (c =? 32) || (c =? 160) || (c =? 5760)
  || ((8192 <=? c) && (c <=? 8202)) || (c =? 8232) || (c =? 8233)
  || (c =? 8239) || (c =? 8287) || (c =? 12288) || (c =? 65279).

(** ** Numbers *)

(** A Number that is NaN, an infinity or the double with the integer
    value [z].  The counters and the sums of scores that the program
    forms lie below 2^53, where the doubles hold every integer (an
    array has fewer than 2^32 elements and a score is at most 7); the
    digit strings of a chat message do not, and [parseInt] rounds
    them. *)
Inductive number : Type :=
| NaN
| Num (z : Z)
| Infinity (negative : bool).

(** The Number value of the integer [n]: [n] itself below 2^53, beyond
    that the nearest double (53 significant bits, ties to even), and
    an infinity when that rounding reaches 2^1024. *)
Definition number_of_integer (n : Z) : number :=
  let a := Z.abs n in
  if a <? 2 ^ 53 then Num n
  else
    let sh := Z.log2 a - 52 in
    let m := a / 2 ^ sh in
    let lo := a mod 2 ^ sh in
    let half := 2 ^ (sh - 1) in
    let up := (half <? lo) || ((lo =? half) && Z.odd m) in
    let v := (if up then m + 1 else m) * 2 ^ sh in
    if 2 ^ 1024 <=? v then Infinity (n <? 0) else Num (Z.sgn n * v).

(** [a + b] *)
Definition number_add (a b : number) : number :=
  match a, b with
  | Num x, Num y => Num (x + y)
  | Infinity s, Num _ => Infinity s
  | Num _, Infinity s => Infinity s
  | Infinity s, Infinity s' => if Bool.eqb s s' then Infinity s else NaN
  | _, _ => NaN
  end.

(** ** parseInt *)

Fixpoint trim_start (s : jsstring) : jsstring :=
  match s with
  | c :: s' => if is_space c then trim_start s' else s
  | [] => []
  end.

Definition digit_value (radix : Z) (c : code_unit) : option Z :=
  let v :=
    if is_digit c then c - 48
    else if (97 <=? c) && (c <=? 122) then c - 87
    else if (65 <=? c) && (c <=? 90) then c - 55
    else 36 in
  if v <? radix then Some v else None.

(** The value of the longest prefix of [s] made of digits of [radix];
    [acc] is the value read so far, [None] while no digit was read. *)
Fixpoint parse_digits (radix : Z) (acc : option Z) (s : jsstring) : option Z :=
  match s with
  | c :: s' =>
      match digit_value radix c with
      | Some v =>
          parse_digits radix
            (Some (match acc with Some a => a * radix + v | None => v end)) s'
      | None => acc
      end
  | [] => acc
  end.

(** An optional sign in front of the digits. *)
Definition strip_sign (s : jsstring) : Z * jsstring :=
  match s with
  | c :: t => if c =? 45 then (-1, t) else if c =? 43 then (1, t) else (1, s)
  | [] => (1, s)
  end.

(** A leading [0x] or [0X] selects radix 16, anything else radix 10. *)
Definition strip_radix_prefix (s : jsstring) : Z * jsstring :=
  match s with
  | c0 :: c1 :: t =>
      if (c0 =? 48) && ((c1 =? 120) || (c1 =? 88)) then (16, t) else (10, s)
  | _ => (10, s)
  end.

(** [parseInt(s)] without a radix argument: the Number value of the
    integer that the digits spell.  ECMAScript lets an implementation
    read the decimal digits behind the twentieth as zeros; V8, on which
    the program runs, rounds the exact value, and so does this
    definition. *)
Definition parseInt (s : jsstring) : number :=
  let s := trim_start s in
  let '(sign, s) := strip_sign s in
  let '(radix, s) := strip_radix_prefix s in
  match parse_digits radix None s with
  | Some v => number_of_integer (sign * v)
  | None => NaN
  end.

(** ** Regular expressions *)

Module RegExp.

(** What one pattern character can match. *)
Inductive charset : Type :=
| CLit (c : code_unit)
| CRange (lo hi : code_unit)
| CDigit
| CSpace
| CUnion (a b : charset).

(** The fragment of the pattern language that [WORDLE_REGEX] is written
    in: characters and classes, sequencing, the greedy quantifiers [*]
    and [?] on a single character ([x+] is [x] followed by [x*]) and
    capturing groups. *)
Inductive regex : Type :=
| REmpty
| RChar (cs : charset)
| RSeq (r1 r2 : regex)
| RStar (cs : charset)
| ROpt (cs : charset)
| RGroup (n : nat) (r : regex).

Definition RPlus (cs : charset) : regex := RSeq (RChar cs) (RStar cs).

Fixpoint RLit (s : jsstring) : regex :=
  match s with
  | [] => REmpty
  | c :: s' => RSeq (RChar (CLit c)) (RLit s')
  end.

Fixpoint member (cs : charset) (c : code_unit) : bool :=
  match cs with
  | CLit a => a =? c
  | CRange lo hi => (lo <=? c) && (c <=? hi)
  | CDigit => is_digit c
  | CSpace => is_space c
  | CUnion a b => member a c || member b c
  end.

(** Under the [i] flag a character matches a set when one of the
    set's members has the same canonical form, that is when the
    character or one of its case variants is a member. *)
Definition matches (ignoreCase : bool) (cs : charset) (c : code_unit) : bool :=
  if ignoreCase
  then member cs c || member cs (toUpperCase_unit c) || member cs (toLowerCase_unit c)
  else member cs c.

Definition captures := nat -> option jsstring.

Definition no_captures : captures := fun _ => None.

Definition set_capture (n : nat) (v : jsstring) (c : captures) : captures :=
  fun k => if Nat.eqb k n then Some v else c k.

(** The part of [s] consumed when [rest] is what is left of it. *)
Definition consumed (s rest : jsstring) : jsstring :=
  firstn (List.length s - List.length rest)%nat s.

(** Try [a]; on failure, backtrack into [b]. *)
Definition orelse {A} (a : option A) (b : option A) : option A :=
  match a with
  | Some r => Some r
  | None => b
  end.

Section Matcher.
Variable ignoreCase : bool.
Context {A : Type}.

(** Greedy [cs*]: take as many characters as possible, give them back
    one at a time while the continuation fails. *)
Fixpoint star (cs : charset) (s : jsstring) (k : jsstring -> option A) : option A :=
  match s with
  | c :: s' =>
      if matches ignoreCase cs c then orelse (star cs s' k) (k s) else k s
  | [] => k s
  end.

(** The backtracking matcher in continuation-passing style: [k] is
    the rest of the pattern. *)
Fixpoint run (r : regex) (s : jsstring) (c : captures)
         (k : jsstring -> captures -> option A) : option A :=
  match r with
  | REmpty => k s c
  | RChar cs =>
      match s with
      | ch :: s' => if matches ignoreCase cs ch then k s' c else None
      | [] => None
      end
  | RSeq r1 r2 => run r1 s c (fun s1 c1 => run r2 s1 c1 k)
  | RStar cs => star cs s (fun s' => k s' c)
  | ROpt cs =>
      match s with
      | ch :: s' =>
          if matches ignoreCase cs ch then orelse (k s' c) (k s c) else k s c
      | [] => k s c
      end
  | RGroup n r1 =>
      run r1 s c (fun s' c' => k s' (set_capture n (consumed s s') c'))
  end.
End Matcher.

(** The array that a successful match returns: the matched text, then
    the groups 1..[ngroups]; [None] is [undefined]. *)
Definition match_array := list (option jsstring).

Definition match_at (ignoreCase : bool) (r : regex) (ngroups : nat)
           (s : jsstring) : option match_array :=
  run ignoreCase r s no_captures
      (fun rest c => Some (Some (consumed s rest) :: map c (seq 1 ngroups))).

(** [RegExp.prototype.exec] for a pattern without the [g] and [y]
    flags: the first start index, from the left, at which the pattern
    matches. *)
Fixpoint exec (ignoreCase : bool) (r : regex) (ngroups : nat)
         (s : jsstring) : option match_array :=
  match match_at ignoreCase r ngroups s with
  | Some m => Some m
  | None =>
      match s with
      | [] => None
      | _ :: s' => exec ignoreCase r ngroups s'
      end
  end.

(** *** What a pattern matches *)

(** [accepts ic r w]: the word [w] is in the language of [r]. *)
Inductive accepts (ic : bool) : regex -> jsstring -> Prop :=
| acc_empty : accepts ic REmpty []
| acc_char cs ch :
    matches ic cs ch = true -> accepts ic (RChar cs) [ch]
| acc_seq r1 r2 w1 w2 :
    accepts ic r1 w1 -> accepts ic r2 w2 -> accepts ic (RSeq r1 r2) (w1 ++ w2)
| acc_star_nil cs : accepts ic (RStar cs) []
| acc_star_cons cs ch w :
    matches ic cs ch = true -> accepts ic (RStar cs) w ->
    accepts ic (RStar cs) (ch :: w)
| acc_opt_none cs : accepts ic (ROpt cs) []
| acc_opt_some cs ch :
    matches ic cs ch = true -> accepts ic (ROpt cs) [ch]
| acc_group n r w : accepts ic r w -> accepts ic (RGroup n r) w.

(** [derives ic r s c rest c']: [r] matches a prefix of [s], leaves
    [rest], and turns the captures [c] into [c']. *)
Inductive derives (ic : bool) :
  regex -> jsstring -> captures -> jsstring -> captures -> Prop :=
| der_empty s c : derives ic REmpty s c s c
| der_char cs ch s c :
    matches ic cs ch = true -> derives ic (RChar cs) (ch :: s) c s c
| der_seq r1 r2 s c s1 c1 s2 c2 :
    derives ic r1 s c s1 c1 -> derives ic r2 s1 c1 s2 c2 ->
    derives ic (RSeq r1 r2) s c s2 c2
| der_star_nil cs s c : derives ic (RStar cs) s c s c
| der_star_cons cs ch s c rest :
    matches ic cs ch = true -> derives ic (RStar cs) s c rest c ->
    derives ic (RStar cs) (ch :: s) c rest c
| der_opt_none cs s c : derives ic (ROpt cs) s c s c
| der_opt_some cs ch s c :
    matches ic cs ch = true -> derives ic (ROpt cs) (ch :: s) c s c
| der_group n r s c rest c' :
    derives ic r s c rest c' ->
    derives ic (RGroup n r) s c rest (set_capture n (consumed s rest) c').

(** Does [r] match the whole of [w]?  The matcher, with a continuation
    that wants nothing left. *)
Definition full_match (ic : bool) (r : regex) (w : jsstring) : bool :=
  match run ic r w no_captures
            (fun rest _ => match rest with [] => Some tt | _ :: _ => None end) with
  | Some _ => true
  | None => false
  end.

(** Patterns without a capturing group. *)
Fixpoint groupless (r : regex) : bool :=
  match r with
  | RSeq r1 r2 => groupless r1 && groupless r2
  | RGroup _ _ => false
  | _ => true
  end.

End RegExp.

(** [s.replace(/,/g, '')] *)
Definition remove_commas (s : jsstring) : jsstring :=
  filter (fun c => negb (c =? 44)) s.

(** ** Doubles: division and [toFixed(2)] *)

Module Double.

(** The quotient [t / n] of two integers, [n] positive, rounded to the
    nearest double (53 significant bits, ties to even).  The quotient
    is first computed with at least two bits to spare, then rounded;
    [r] and [lo] are what the rounding drops.  The exponent range is
    not modelled: a quotient of integers below 2^53 stays well inside
    it. *)
Definition div_Z (t n : Z) : spec_float :=
  if t =? 0 then S754_zero false
  else
    let a := Z.abs t in
    let k := Z.max 0 (55 + Z.log2 n - Z.log2 a) in
    let q := (a * 2 ^ k) / n in
    let r := (a * 2 ^ k) mod n in
    let sh := Z.log2 q - 52 in
    let m := q / 2 ^ sh in
    let lo := q mod 2 ^ sh in
    let half := 2 ^ (sh - 1) in
    let up := (half <? lo) || ((lo =? half) && ((0 <? r) || Z.odd m)) in
    let m' := if up then m + 1 else m in
    if m' =? 2 ^ 53
    then S754_finite (t <? 0) (Z.to_pos (2 ^ 52)) (sh - k + 1)
    else S754_finite (t <? 0) (Z.to_pos m') (sh - k).

(** The same quotient through the reference operations on binary64. *)
Definition div_reference (t n : Z) : spec_float :=
  SFdiv 53 1024 (binary_normalize 53 1024 t 0 false)
                (binary_normalize 53 1024 n 0 false).

(** The Number value of an integer through the reference rounding to
    binary64, for comparison with [number_of_integer]. *)
Definition integer_reference (n : Z) : number :=
  match binary_normalize 53 1024 n 0 false with
  | S754_zero _ => Num 0
  | S754_finite s m e =>
      let v := if 0 <=? e then Zpos m * 2 ^ e else Zpos m / 2 ^ (- e) in
      Num (if s then - v else v)
  | S754_infinity s => Infinity s
  | S754_nan => NaN
  end.

(** The integer [n] for which [n / 100] is nearest to the
    non-negative [m * 2^e], the larger one when two are as near. *)
Definition nearest_hundredth (m : positive) (e : Z) : Z :=
  if 0 <=? e then 100 * Zpos m * 2 ^ e
  else (200 * Zpos m + 2 ^ (- e)) / 2 ^ (1 - e).

(** [parseFloat(x.toFixed(2))], counted in hundredths: [Num 433]
    stands for the double nearest to 4.33.  Below 2^53 hundredths the
    doubles nearest to [n / 100] are ordered as the integers [n] are,
    so differences and comparisons of such values are those of the
    hundredths. *)
Definition toFixed2 (x : spec_float) : number :=
  match x with
  | S754_zero _ => Num 0
  | S754_finite s m e =>
      let n := nearest_hundredth m e in Num (if s then - n else n)
  | S754_infinity s => Infinity s
  | S754_nan => NaN
  end.

End Double.

(** ** Arrays *)

Module JSArray.
Section Sort.
Context {A : Type}.
(** [compareFn(a, b)]: a Number; a positive one puts [a] after [b],
    and NaN counts as zero. *)
Variable compareFn : A -> A -> number.

Definition after (a b : A) : bool :=
  match compareFn a b with
  | Num v => 0 <? v
  | Infinity s => negb s
  | NaN => false
  end.

Fixpoint insert (x : A) (l : list A) : list A :=
  match l with
  | [] => [x]
  | y :: l' => if after y x then x :: l else y :: insert x l'
  end.

(** [Array.prototype.sort(compareFn)].  The sort is stable; each
    element goes behind the ones already placed that do not come
    after it. *)
Definition sort (l : list A) : list A :=
  fold_left (fun acc x => insert x acc) l [].
End Sort.
End JSArray.

(** ** Maps *)

(** Discord ids (snowflakes): the integer that the id string spells. *)
Definition snowflake := Z.

(** A [Map] keyed by snowflakes.  Entries are kept in insertion order,
    the order in which [entries()] yields them. *)
Module JSMap.
Section JSMap.
Context {V : Type}.

Definition t := list (snowflake * V).

Fixpoint get (m : t) (k : snowflake) : option V :=
  match m with
  | [] => None
  | (k', v) :: m' => if k' =? k then Some v else get m' k
  end.

Definition has (m : t) (k : snowflake) : bool :=
  match get m k with
  | Some _ => true
  | None => false
  end.

Fixpoint set (m : t) (k : snowflake) (v : V) : t :=
  match m with
  | [] => [(k, v)]
  | (k', v') :: m' => if k' =? k then (k, v) :: m' else (k', v') :: set m' k v
  end.

Definition entries (m : t) : list (snowflake * V) := m.

Definition keys (m : t) : list snowflake := map fst m.
End JSMap.
Arguments t : clear implicits.
End JSMap.

(** ** Dates *)

(** A [Date] is its time value: milliseconds since the epoch, UTC.
    Time values stay within the range of valid dates (8.64e15 ms on
    either side of the epoch), so [TimeClip] is left out. *)
Definition time_value := Z.

(** What the program takes from its host: the offset of local time
    ([LocalTZA(t, isUTC)] of ECMAScript, in milliseconds) and the
    system clock, as the value that the k-th read of it returns. *)
Class Host : Type := {
  LocalTZA : Z -> bool -> Z;
  clock : nat -> time_value
}.

Module JSDate.

Definition msPerDay : Z := 86400000.

Definition Day (t : Z) : Z := t / msPerDay.
Definition TimeWithinDay (t : Z) : Z := t mod msPerDay.

Definition DaysInYear (y : Z) : Z :=
  if negb (y mod 4 =? 0) then 365
  else if negb (y mod 100 =? 0) then 366
  else if negb (y mod 400 =? 0) then 365
  else 366.

Definition DayFromYear (y : Z) : Z :=
  365 * (y - 1970) + (y - 1969) / 4 - (y - 1901) / 100 + (y - 1601) / 400.

(** The largest [y] with [DayFromYear y <= Day t]: an estimate from the
    mean length of a year, which is off by one at most. *)
Definition YearFromTime (t : Z) : Z :=
  let d := Day t in
  let y := 1970 + d * 400 / 146097 in
  if DayFromYear (y + 1) <=? d then y + 1
  else if DayFromYear y <=? d then y
  else y - 1.

Definition InLeapYear (t : Z) : bool := DaysInYear (YearFromTime t) =? 366.

Definition DayWithinYear (t : Z) : Z := Day t - DayFromYear (YearFromTime t).

(** The number of days of a year that come before its month [m]
    (0 = January). *)
Definition DaysBeforeMonth (leap : bool) (m : Z) : Z :=
  let l := if leap then 1 else 0 in
  if m <=? 0 then 0
  else if m =? 1 then 31
  else if m =? 2 then 59 + l
  else if m =? 3 then 90 + l
  else if m =? 4 then 120 + l
  else if m =? 5 then 151 + l
  else if m =? 6 then 181 + l
  else if m =? 7 then 212 + l
  else if m =? 8 then 243 + l
  else if m =? 9 then 273 + l
  else if m =? 10 then 304 + l
  else if m =? 11 then 334 + l
  else 365 + l.

Fixpoint month_of_day (leap : bool) (d : Z) (candidates : list Z) : Z :=
  match candidates with
  | [] => 0
  | m :: rest => if DaysBeforeMonth leap m <=? d then m else month_of_day leap d rest
  end.

Definition MonthFromTime (t : Z) : Z :=
  month_of_day (InLeapYear t) (DayWithinYear t) [11; 10; 9; 8; 7; 6; 5; 4; 3; 2; 1; 0].

Definition DateFromTime (t : Z) : Z :=
  DayWithinYear t - DaysBeforeMonth (InLeapYear t) (MonthFromTime t) + 1.

Definition MakeTime (hour min sec ms : Z) : Z :=
  hour * 3600000 + min * 60000 + sec * 1000 + ms.

Definition MakeDay (year month date : Z) : Z :=
  let ym := year + month / 12 in
  let mn := month mod 12 in
  DayFromYear ym + DaysBeforeMonth (DaysInYear ym =? 366) mn + date - 1.

Definition MakeDate (day time : Z) : Z := day * msPerDay + time.

Section Local.
Context `{Host}.

Definition LocalTime (t : Z) : Z := t + LocalTZA t true.
Definition UTC (t : Z) : Z := t - LocalTZA t false.

Definition getFullYear (d : time_value) : Z := YearFromTime (LocalTime d).
Definition getMonth (d : time_value) : Z := MonthFromTime (LocalTime d).

(** [d.setHours(hour, min, sec, ms)], as the new time value. *)
Definition setHours (d : time_value) (hour min sec ms : Z) : time_value :=
  let t := LocalTime d in
  UTC (MakeDate (Day t) (MakeTime hour min sec ms)).

(** [d.setMonth(month)] *)
Definition setMonth (d : time_value) (month : Z) : time_value :=
  let t := LocalTime d in
  UTC (MakeDate (MakeDay (YearFromTime t) month (DateFromTime t)) (TimeWithinDay t)).

(** [d.setFullYear(year)] *)
Definition setFullYear (d : time_value) (year : Z) : time_value :=
  let t := LocalTime d in
  UTC (MakeDate (MakeDay year (MonthFromTime t) (DateFromTime t)) (TimeWithinDay t)).
End Local.

End JSDate.

(* ================================================================== *)
(** * Part II: the program *)
(* ================================================================== *)

Import RegExp.

(** The pattern, token by token (blanks added between the tokens):
    [Wordle  \s+  ( \d+ ,? \d* )  \s+  ( [1-6X] )  \/  ( \d+ )  ( \*? )]
    with the flag [i].  The four groups first: *)
Definition number_pattern : regex :=
  RSeq (RPlus CDigit) (RSeq (ROpt (CLit 44)) (RStar CDigit)).

Definition result_pattern : regex :=
  RChar (CUnion (CRange 49 54) (CLit 88)).

Definition max_pattern : regex := RPlus CDigit.

Definition hard_pattern : regex := ROpt (CLit 42).

Definition WORDLE_REGEX : regex :=
  RSeq (RLit (str "Wordle"))
  (RSeq (RPlus CSpace)
  (RSeq (RGroup 1 number_pattern)
  (RSeq (RPlus CSpace)
  (RSeq (RGroup 2 result_pattern)
  (RSeq (RChar (CLit 47))
  (RSeq (RGroup 3 max_pattern)
        (RGroup 4 hard_pattern))))))).

(** [content.match(WORDLE_REGEX)] *)
Definition match_WORDLE_REGEX (content : jsstring) : option match_array :=
  exec true WORDLE_REGEX 4 content.

Record ScoreRecord : Type := {
  wordleNumber : number;
  score : number;
  maxAttempts : number;
  hardMode : bool;
  timestamp : Z
}.

(** The state of the process: the [userScores] map and the number of
    times the clock has been read so far. *)
Record world : Type := {
  userScores : JSMap.t (list ScoreRecord);
  clock_reads : nat
}.

(** Computations that read and change the state. *)
Definition M (A : Type) : Type := world -> A * world.

Definition ret {A} (a : A) : M A := fun w => (a, w).

Definition bind {A B} (m : M A) (f : A -> M B) : M B :=
  fun w => let '(a, w') := m w in f a w'.

Notation "x <- m ;; f" := (bind m (fun x => f))
  (at level 61, m at next level, right associativity).
Notation "' pat <- m ;; f" := (bind m (fun x => match x with pat => f end))
  (at level 61, pat pattern, m at next level, right associativity).

Section Program.
Context `{Host}.

(** [new Date()] *)
Definition new_Date : M time_value :=
  fun w => (clock (clock_reads w),
            {| userScores := userScores w; clock_reads := S (clock_reads w) |}).

(** [parseWordleScore(content)].  Every group of the pattern takes part
    in every match (lemma [WORDLE_REGEX_groups]), so a match array
    always has the shape of the first branch. *)
Definition parseWordleScore (content : jsstring) : M (option ScoreRecord) :=
  match match_WORDLE_REGEX content with
  | Some [_; Some m1; Some m2; Some m3; Some m4] =>
      let wordleNumberStr := remove_commas m1 in
      let wordleNumber := parseInt wordleNumberStr in
      let score := parseInt m2 in
      let maxAttempts := parseInt m3 in
      let hardMode := jsstring_eqb m4 (str "*") in
      let scoreValue :=
        if jsstring_eqb (toUpperCase m2) (str "X") then Num 7 else score in
      now <- new_Date ;;
      ret (Some {| wordleNumber := wordleNumber;
                   score := scoreValue;
                   maxAttempts := maxAttempts;
                   hardMode := hardMode;
                   timestamp := now |})
  | _ => ret None
  end.

(** *** Statistics *)

(** The object that counts the results: [{1: 0, ..., 6: 0, X: 0}]. *)
Record distribution_t : Type := {
  d1 : Z; d2 : Z; d3 : Z; d4 : Z; d5 : Z; d6 : Z; dX : Z
}.

Definition distribution0 : distribution_t :=
  {| d1 := 0; d2 := 0; d3 := 0; d4 := 0; d5 := 0; d6 := 0; dX := 0 |}.

(** [distribution[k]++] for an integer [k] from 1 to 6. *)
Definition incr_bucket (d : distribution_t) (k : Z) : distribution_t :=
  if k =? 1 then
    {| d1 := d1 d + 1; d2 := d2 d; d3 := d3 d; d4 := d4 d; d5 := d5 d; d6 := d6 d; dX := dX d |}
  else if k =? 2 then
    {| d1 := d1 d; d2 := d2 d + 1; d3 := d3 d; d4 := d4 d; d5 := d5 d; d6 := d6 d; dX := dX d |}
  else if k =? 3 then
    {| d1 := d1 d; d2 := d2 d; d3 := d3 d + 1; d4 := d4 d; d5 := d5 d; d6 := d6 d; dX := dX d |}
  else if k =? 4 then
    {| d1 := d1 d; d2 := d2 d; d3 := d3 d; d4 := d4 d + 1; d5 := d5 d; d6 := d6 d; dX := dX d |}
  else if k =? 5 then
    {| d1 := d1 d; d2 := d2 d; d3 := d3 d; d4 := d4 d; d5 := d5 d + 1; d6 := d6 d; dX := dX d |}
  else
    {| d1 := d1 d; d2 := d2 d; d3 := d3 d; d4 := d4 d; d5 := d5 d; d6 := d6 d + 1; dX := dX d |}.

(** [distribution.X++] *)
Definition incr_X (d : distribution_t) : distribution_t :=
  {| d1 := d1 d; d2 := d2 d; d3 := d3 d; d4 := d4 d; d5 := d5 d; d6 := d6 d; dX := dX d + 1 |}.

(** The body of the [forEach] that fills the distribution. *)
Definition count_score (d : distribution_t) (s : ScoreRecord) : distribution_t :=
  match score s with
  | Num v => if (1 <=? v) && (v <=? 6) then incr_bucket d v else incr_X d
  | Infinity _ => incr_X d
  | NaN => incr_X d
  end.

Record UserStat : Type := {
  userId : snowflake;
  totalGames : Z;
  averageScore : number;
  distribution : distribution_t
}.

Definition in_window (startDate endDate : time_value) (s : ScoreRecord) : bool :=
  (startDate <=? timestamp s) && (timestamp s <=? endDate).

(** [totalScore / filteredScores.length], then
    [parseFloat(averageScore.toFixed(2))]; in hundredths. *)
Definition rounded_average (totalScore : number) (n : Z) : number :=
  match totalScore with
  | Num t => Double.toFixed2 (Double.div_Z t n)
  | Infinity s => Infinity s
  | NaN => NaN
  end.

(** One turn of the loop over [userScores.entries()]: the statistics of
    one user, if that user has a score in the window. *)
Definition user_stat (startDate endDate : time_value)
           (entry : snowflake * list ScoreRecord) : option UserStat :=
  let '(userId, scores) := entry in
  let filteredScores := filter (in_window startDate endDate) scores in
  if 0 <? Z.of_nat (List.length filteredScores) then
    let totalScore :=
      fold_left (fun sum s => number_add sum (score s)) filteredScores (Num 0) in
    let averageScore := rounded_average totalScore (Z.of_nat (List.length filteredScores)) in
    let distribution := fold_left count_score filteredScores distribution0 in
    Some {| userId := userId;
            totalGames := Z.of_nat (List.length filteredScores);
            averageScore := averageScore;
            distribution := distribution |}
  else None.

(** [stats.push(...)] for every user, in the order of the map. *)
Fixpoint collect_stats (startDate endDate : time_value)
         (entries : list (snowflake * list ScoreRecord)) : list UserStat :=
  match entries with
  | [] => []
  | e :: rest =>
      match user_stat startDate endDate e with
      | Some st => st :: collect_stats startDate endDate rest
      | None => collect_stats startDate endDate rest
      end
  end.

(** [(a, b) => a.averageScore - b.averageScore] *)
Definition by_average (a b : UserStat) : number :=
  match averageScore a, averageScore b with
  | Num x, Num y => Num (x - y)
  | Infinity s, Num _ => Infinity s
  | Num _, Infinity s => Infinity (negb s)
  | Infinity s, Infinity s' => if Bool.eqb s s' then NaN else Infinity s
  | _, _ => NaN
  end.

(** [calculateStats(startDate, endDate)], on the map it reads. *)
Definition calculateStats (scores : JSMap.t (list ScoreRecord))
           (startDate endDate : time_value) : list UserStat :=
  JSArray.sort by_average (collect_stats startDate endDate (JSMap.entries scores)).

(** *** Messages *)

Record message : Type := {
  id : snowflake;
  author : snowflake;
  channel_name : jsstring;
  content : jsstring;
  createdAt : time_value
}.

Definition WORDLE_CHANNEL_NAME : jsstring := str "gamers-rise-up".

(** [{...score, timestamp: createdAt}] *)
Definition with_timestamp (s : ScoreRecord) (createdAt : time_value) : ScoreRecord :=
  {| wordleNumber := wordleNumber s;
     score := score s;
     maxAttempts := maxAttempts s;
     hardMode := hardMode s;
     timestamp := createdAt |}.

(** The lines that both producers share: make sure the author has an
    array in the map, then push the record, stamped with the creation
    time of the message, onto it. *)
Definition store_score (m : message) (s : ScoreRecord) : M unit :=
  fun w =>
    let scores := userScores w in
    let scores :=
      if negb (JSMap.has scores (author m)) then JSMap.set scores (author m) [] else scores in
    let scores :=
      match JSMap.get scores (author m) with
      | Some arr => JSMap.set scores (author m) (arr ++ [with_timestamp s (createdAt m)])
      | None => scores
      end in
    (tt, {| userScores := scores; clock_reads := clock_reads w |}).

(** The [messageCreate] handler. *)
Definition messageCreate (m : message) : M unit :=
  if negb (jsstring_eqb (channel_name m) WORDLE_CHANNEL_NAME) then ret tt
  else
    score <- parseWordleScore (content m) ;;
    match score with
    | Some s => store_score m s
    | None => ret tt
    end.

(** *** The crawl over the channel history *)

Record fetch_options : Type := {
  limit : Z;
  before : option snowflake
}.

(** A text channel: its name, and what [channel.messages.fetch(options)]
    resolves to on the k-th call of a crawl: a page of messages, keyed
    by id, in the order in which the platform sent them, or [None] when
    the call fails. *)
Record channel : Type := {
  name : jsstring;
  messages_fetch : nat -> fetch_options -> option (list message)
}.

(** A guild, as the list of its cached channels. *)
Definition guild := list channel.

Definition batchSize : Z := 100.

(** How [fetchHistoricalMessages] came to its end. *)
Inductive crawl_end : Type :=
| NoGuild
| NoChannel
| ReachedOldMessages
| Finished
| FetchFailed.

Record crawl_report : Type := {
  ending : crawl_end;
  messagesProcessed : Z;
  scoresFound : Z
}.

(** The [for] loop over one page.  The result is [(true, _)] when the
    loop met a message from before [oneYearAgo] and the function
    returned from there. *)
Fixpoint process_page (oneYearAgo : time_value) (messages : list message)
         (scoresFound : Z) : M (bool * Z) :=
  match messages with
  | [] => ret (false, scoresFound)
  | m :: rest =>
      if createdAt m <? oneYearAgo then ret (true, scoresFound)
      else
        score <- parseWordleScore (content m) ;;
        match score with
        | Some s =>
            _ <- store_score m s ;;
            process_page oneYearAgo rest (scoresFound + 1)
        | None => process_page oneYearAgo rest scoresFound
        end
  end.

(** The [while (true)] loop; [fuel] bounds the number of pages, and the
    result is [None] when it runs out.  [calls] counts the fetches of
    this crawl.  The loop is taken in one piece: messages that come in
    live while it waits for a page are not interleaved with it. *)
Fixpoint crawl_loop (fuel : nat) (ch : channel) (oneYearAgo : time_value)
         (calls : nat) (lastId : option snowflake)
         (messagesProcessed scoresFound : Z) : M (option crawl_report) :=
  match fuel with
  | O => ret None
  | S fuel' =>
      let options := {| limit := batchSize; before := lastId |} in
      match messages_fetch ch calls options with
      | None =>
          ret (Some {| ending := FetchFailed;
                       messagesProcessed := messagesProcessed;
                       scoresFound := scoresFound |})
      | Some [] =>
          ret (Some {| ending := Finished;
                       messagesProcessed := messagesProcessed;
                       scoresFound := scoresFound |})
      | Some ((m0 :: _) as messages) =>
          let size := Z.of_nat (List.length messages) in
          let messagesProcessed := messagesProcessed + size in
          let lastId := Some (id (last messages m0)) in
          '(returned, scoresFound) <- process_page oneYearAgo messages scoresFound ;;
          if returned : bool then
            ret (Some {| ending := ReachedOldMessages;
                         messagesProcessed := messagesProcessed;
                         scoresFound := scoresFound |})
          else if size <? batchSize then
            ret (Some {| ending := Finished;
                         messagesProcessed := messagesProcessed;
                         scoresFound := scoresFound |})
          else
            crawl_loop fuel' ch oneYearAgo (S calls) lastId messagesProcessed scoresFound
      end
  end.

(** [guild.channels.cache.find(ch => ch.name === WORDLE_CHANNEL_NAME)] *)
Definition find_channel (g : guild) : option channel :=
  find (fun ch => jsstring_eqb (name ch) WORDLE_CHANNEL_NAME) g.

(** The date one year before [d]:
    [d.setFullYear(d.getFullYear() - 1)]. *)
Definition one_year_before (d : time_value) : time_value :=
  JSDate.setFullYear d (JSDate.getFullYear d - 1).

(** [fetchHistoricalMessages()]; [guilds] is [client.guilds.cache]. *)
Definition fetchHistoricalMessages (fuel : nat) (guilds : list guild)
  : M (option crawl_report) :=
  match guilds with
  | [] => ret (Some {| ending := NoGuild; messagesProcessed := 0; scoresFound := 0 |})
  | g :: _ =>
      match find_channel g with
      | None => ret (Some {| ending := NoChannel; messagesProcessed := 0; scoresFound := 0 |})
      | Some ch =>
          now <- new_Date ;;
          let oneYearAgo := one_year_before now in
          crawl_loop fuel ch oneYearAgo 0 None 0 0
      end
  end.

(** *** The [wordlestats] command *)

(** The [switch] on the period that sets [startDate]. *)
Definition start_of_period (periodChoice : jsstring) (startDate : time_value)
  : time_value :=
  if jsstring_eqb periodChoice (str "today") then
    JSDate.setHours startDate 0 0 0 0
  else if jsstring_eqb periodChoice (str "month") then
    let startDate := JSDate.setMonth startDate (JSDate.getMonth startDate - 1) in
    JSDate.setHours startDate 0 0 0 0
  else if jsstring_eqb periodChoice (str "three_months") then
    let startDate := JSDate.setMonth startDate (JSDate.getMonth startDate - 3) in
    JSDate.setHours startDate 0 0 0 0
  else if jsstring_eqb periodChoice (str "six_months") then
    let startDate := JSDate.setMonth startDate (JSDate.getMonth startDate - 6) in
    JSDate.setHours startDate 0 0 0 0
  else if jsstring_eqb periodChoice (str "year") then
    let startDate := JSDate.setFullYear startDate (JSDate.getFullYear startDate - 1) in
    JSDate.setHours startDate 0 0 0 0
  else startDate.

(** The window of a [wordlestats] request: [(startDate, endDate)]. *)
Definition stats_window (periodChoice : jsstring) : M (time_value * time_value) :=
  startDate <- new_Date ;;
  endDate <- new_Date ;;
  ret (start_of_period periodChoice startDate, endDate).

(** The handler up to the call of [calculateStats]; the rest of it
    lays the first ten entries out as an embed. *)
Definition wordlestats (periodChoice : jsstring) : M (list UserStat) :=
  '(startDate, endDate) <- stats_window periodChoice ;;
  fun w => (calculateStats (userScores w) startDate endDate, w).

End Program.

(** *** The reply to the [wordlestats] command *)

(** [String(n)] for an integer. *)
Definition Z_to_string (n : Z) : jsstring :=
  str (DecimalString.NilZero.string_of_int (Z.to_int n)).

(** [String(x)] for a Number held in hundredths: the integer part,
    and behind a point the one or two decimals that are not trailing
    zeros. *)
Definition hundredths_to_string (x : number) : jsstring :=
  match x with
  | NaN => str "NaN"
  | Infinity s => if s then str "-Infinity" else str "Infinity"
  | Num n =>
      let a := Z.abs n in
      let f := a mod 100 in
      (if n <? 0 then str "-" else [])
      ++ Z_to_string (a / 100)
      ++ (if f =? 0 then []
          else str "." ++ Z_to_string (f / 10)
               ++ (if f mod 10 =? 0 then [] else Z_to_string (f mod 10)))
  end.

Record embed_field : Type := {
  field_name : jsstring;
  field_value : jsstring
}.

Record embed : Type := {
  title : jsstring;
  color : jsstring;
  description : jsstring;
  embed_timestamp : time_value;
  fields : list embed_field
}.

(** What the handler does with the interaction: nothing, the text that
    no scores were found, or the embed; [Rejected] when a lookup of a
    user fails and the handler ends without a reply. *)
Inductive reply : Type :=
| NoReply
| NoScoresFound
| EmbedReply (e : embed)
| Rejected.

Record interaction : Type := {
  isCommand : bool;
  commandName : jsstring;
  period : jsstring
}.

Section Reply.
Context `{Host}.

(** [client.users.fetch(id)], as the [username] of the user, or [None]
    when the lookup fails. *)
Variable users_fetch : snowflake -> option jsstring.

(** The medal for the position [i]: the code units of the three medal
    emoji, then the text of the fourth place. *)
Definition medal_of (i : Z) : jsstring :=
  if i =? 0 then [55358; 56647]
  else if i =? 1 then [55358; 56648]
  else if i =? 2 then [55358; 56649]
  else if i =? 3 then str ":kekw:"
  else [].

(** One line of the distribution text, without its line break. *)
Definition distribution_line (label : jsstring) (count : Z) : jsstring :=
  label ++ str "/6: " ++ Z_to_string count ++ str " times".

Definition distribution_text (d : distribution_t) : jsstring :=
  distribution_line (str "1") (d1 d) ++ [10]
  ++ distribution_line (str "2") (d2 d) ++ [10]
  ++ distribution_line (str "3") (d3 d) ++ [10]
  ++ distribution_line (str "4") (d4 d) ++ [10]
  ++ distribution_line (str "5") (d5 d) ++ [10]
  ++ distribution_line (str "6") (d6 d) ++ [10]
  ++ distribution_line (str "X") (dX d).

(** The field that the loop adds for [stat] at the position [i]. *)
Definition field_of (i : Z) (username : jsstring) (stat : UserStat) : embed_field :=
  {| field_name :=
       medal_of i ++ str " " ++ username ++ str " (Avg: "
       ++ hundredths_to_string (averageScore stat) ++ str ")";
     field_value :=
       str "Games: " ++ Z_to_string (totalGames stat) ++ [10]
       ++ distribution_text (distribution stat) |}.

(** The loop [for (let i = 0; i < Math.min(stats.length, 10); i++)],
    from [i] on, for the [steps] turns that are left; [None] when a
    lookup fails. *)
Fixpoint add_fields (steps : nat) (i : Z) (stats : list UserStat)
         (fields : list embed_field) : option (list embed_field) :=
  match steps with
  | O => Some fields
  | S steps' =>
      match nth_error stats (Z.to_nat i) with
      | Some stat =>
          match users_fetch (userId stat) with
          | Some username =>
              add_fields steps' (i + 1) stats (fields ++ [field_of i username stat])
          | None => None
          end
      | None => None
      end
  end.

(** The [interactionCreate] handler. *)
Definition interactionCreate (i : interaction) : M reply :=
  if negb (isCommand i) then ret NoReply
  else if jsstring_eqb (commandName i) (str "wordlestats") then
    let periodChoice := period i in
    '(startDate, endDate) <- stats_window periodChoice ;;
    stats <- (fun w => (calculateStats (userScores w) startDate endDate, w)) ;;
    if Z.of_nat (List.length stats) =? 0 then ret NoScoresFound
    else
      now <- new_Date ;;
      let title := str "Wordle Statistics (" ++ periodChoice ++ str ")" in
      let description :=
        str "Statistics from <t:" ++ Z_to_string (startDate / 1000)
        ++ str ":D> to <t:" ++ Z_to_string (endDate / 1000) ++ str ":D>" in
      let turns := Z.min (Z.of_nat (List.length stats)) 10 in
      match add_fields (Z.to_nat turns) 0 stats [] with
      | Some fields =>
          ret (EmbedReply {| title := title;
                             color := str "#538d4e";
                             description := description;
                             embed_timestamp := now;
                             fields := fields |})
      | None => ret Rejected
      end
  else ret NoReply.

End Reply.

(* ================================================================== *)
(** * Part III: the vocabulary of the properties *)
(* ================================================================== *)

(** The value of a string of decimal digits. *)
Definition decimal (ds : jsstring) : Z :=
  fold_left (fun a c => 10 * a + (c - 48)) ds 0.

(** The record that [parseWordleScore] builds from the four groups of a
    match and the reading of the clock. *)
Definition record_of_groups (m1 m2 m3 m4 : jsstring) (now : time_value)
  : ScoreRecord :=
  {| wordleNumber := parseInt (remove_commas m1);
     score := if jsstring_eqb (toUpperCase m2) (str "X") then Num 7 else parseInt m2;
     maxAttempts := parseInt m3;
     hardMode := jsstring_eqb m4 (str "*");
     timestamp := now |}.

(** The state after one more read of the clock. *)
Definition tick (w : world) : world :=
  {| userScores := userScores w; clock_reads := S (clock_reads w) |}.

(** The records that the store holds for a user. *)
Definition records_of (scores : JSMap.t (list ScoreRecord)) (u : snowflake)
  : list ScoreRecord :=
  match JSMap.get scores u with
  | Some arr => arr
  | None => []
  end.

(** The states that the process can be in: it starts with an empty
    map, and then handles messages, crawls and answers requests. *)
Inductive reachable `{Host} : world -> Prop :=
| reach_start : reachable {| userScores := []; clock_reads := 0 |}
| reach_message m w :
    reachable w -> reachable (snd (messageCreate m w))
| reach_crawl fuel guilds w :
    reachable w -> reachable (snd (fetchHistoricalMessages fuel guilds w))
| reach_stats periodChoice w :
    reachable w -> reachable (snd (wordlestats periodChoice w)).

(** The record that a message leaves in the store, if its text holds
    a result: the fields read off the text, stamped with the creation
    time of the message. *)
Definition stored_record (m : message) : option ScoreRecord :=
  match match_WORDLE_REGEX (content m) with
  | Some [_; Some g1; Some g2; Some g3; Some g4] =>
      Some (record_of_groups g1 g2 g3 g4 (createdAt m))
  | _ => None
  end.

(** The records that the messages of a list leave for the user [u],
    one for each message of [u] that holds a result, in the order of
    the list. *)
Definition records_from (u : snowflake) (messages : list message)
  : list ScoreRecord :=
  flat_map (fun m =>
              if author m =? u
              then match stored_record m with Some r => [r] | None => [] end
              else [])
           messages.

(** The number of messages of a list that hold a result. *)
Definition results_in (messages : list message) : Z :=
  Z.of_nat (List.length (filter (fun m => match stored_record m with
                                          | Some _ => true
                                          | None => false
                                          end) messages)).

(** From [w] to [w'] every user's array has only grown at its end, and
    by records that satisfy [P]. *)
Definition grows_by (P : snowflake -> ScoreRecord -> Prop) (w w' : world) : Prop :=
  forall u, exists added,
    records_of (userScores w') u = records_of (userScores w) u ++ added
    /\ Forall (P u) added.

(** [s] is what the parser makes of the text of [m], at some time. *)
Definition parses_to `{Host} (m : message) (s : ScoreRecord) : Prop :=
  exists w w', parseWordleScore (content m) w = (Some s, w').

(** [m] is in one of the pages that the channel hands out. *)
Definition fetched (ch : channel) (m : message) : Prop :=
  exists calls options page,
    messages_fetch ch calls options = Some page /\ In m page.

(** What holds of the map at all times: no user has two entries, and
    every score is a number from 1 to 7. *)
Definition store_ok (scores : JSMap.t (list ScoreRecord)) : Prop :=
  NoDup (JSMap.keys scores)
  /\ forall u r, In r (records_of scores u) ->
                 exists v, score r = Num v /\ 1 <= v <= 7.

(** *** The platform's message source

    A channel whose history is the list [history], newest message
    first.  A fetch answers with the first [limit] messages among
    those whose id is below [before] (all of them without [before]). *)
Definition older_than (before : option snowflake) (m : message) : bool :=
  match before with
  | Some b => id m <? b
  | None => true
  end.

Definition history_fetch (history : list message)
           (calls : nat) (options : fetch_options) : option (list message) :=
  Some (firstn (Z.to_nat (limit options))
               (filter (older_than (before options)) history)).

Definition history_channel (history : list message) : channel :=
  {| name := WORDLE_CHANNEL_NAME; messages_fetch := history_fetch history |}.

(** Ids grow with time: in a history that is newest first they
    decrease strictly. *)
Fixpoint newest_first (history : list message) : bool :=
  match history with
  | m :: rest =>
      match rest with
      | m' :: _ => (id m' <? id m) && newest_first rest
      | [] => true
      end
  | [] => true
  end.

(** No message of the list is from before [horizon]. *)
Definition all_since (horizon : time_value) (messages : list message) : bool :=
  forallb (fun m => horizon <=? createdAt m) messages.

(** The sum of the seven counters of a distribution. *)
Definition bucket_sum (d : distribution_t) : Z :=
  d1 d + d2 d + d3 d + d4 d + d5 d + d6 d + dX d.

(** [a] does not rank behind [b]: both averages are numbers and the
    one of [a] is not the larger. *)
Definition average_le (a b : UserStat) : Prop :=
  match averageScore a, averageScore b with
  | Num x, Num y => x <= y
  | _, _ => False
  end.

(** The period selectors that the command offers. *)
Definition known_periods : list jsstring :=
  [str "today"; str "month"; str "three_months"; str "six_months"; str "year"].

(** *** Sample data *)

(** A host on UTC whose clock advances by a millisecond per reading,
    from 2023-11-14T22:13:20Z on. *)
Definition utc_host : Host :=
  {| LocalTZA := fun _ _ => 0;
     clock := fun k => 1700000000000 + Z.of_nat k |}.

Definition start_world : world := {| userScores := []; clock_reads := 0 |}.

Definition sample_message (i a : Z) (text : string) (t : time_value) : message :=
  {| id := i; author := a; channel_name := WORDLE_CHANNEL_NAME;
     content := str text; createdAt := t |}.

(** Five messages of three users, newest first. *)
Definition sample_history : list message :=
  [ sample_message 905 11 "Wordle 1,234 3/6*" 1699990000000;
    sample_message 904 12 "Wordle 1,234 X/6" 1699980000000;
    sample_message 903 13 "gg everyone" 1699970000000;
    sample_message 902 11 "wordle 1,233 5/6" 1699900000000;
    sample_message 901 13 "Wordle 1,233 2/6" 1699890000000 ].

(** Three messages around 2022-11-14T22:13:20Z, which is one year
    before the first reading of the sample clock: one after it, two
    before it. *)
Definition aged_new : message := sample_message 803 21 "Wordle 870 4/6" 1668470000000.
Definition aged_old : message := sample_message 802 22 "Wordle 869 2/6" 1668460000000.
Definition aged_older : message := sample_message 801 21 "Wordle 869 3/6" 1668450000000.

Definition aged_history : list message := [aged_new; aged_old; aged_older].

(** A history of [n] messages with the ids [n], ..., 1, a minute
    apart, the newest at [t]; every other one holds a result. *)
Fixpoint long_history (n : nat) (t : time_value) : list message :=
  match n with
  | O => []
  | S n' =>
      sample_message (Z.of_nat n) (Z.of_nat (n mod 3))
                     (if Nat.even n then "Wordle 900 4/6" else "hello") t
      :: long_history n' (t - 60000)
  end.

(** The state after the sample messages have come in live, oldest
    first. *)
Definition sample_world : world :=
  fold_left (fun w m => snd (@messageCreate utc_host m w)) (rev sample_history)
            start_world.

(** Three users with one game each, in the order in which they
    posted; the first and the third have the same score. *)
Definition tied_history : list message :=
  [ sample_message 703 33 "Wordle 900 4/6" 1699800003000;
    sample_message 702 32 "Wordle 900 3/6" 1699800002000;
    sample_message 701 31 "Wordle 900 4/6" 1699800001000 ].

Definition tied_world : world :=
  fold_left (fun w m => snd (@messageCreate utc_host m w)) (rev tied_history)
            start_world.

(** A result whose puzzle number has four hundred digits, and one
    whose maximum lies just above 2^54. *)
Definition huge_number_text : jsstring :=
  str "Wordle " ++ repeat 57 400 ++ str " 3/6".


(** A request for the statistics of a period, and a directory that
    knows every user by the same name. *)
Definition sample_request (periodChoice : string) : interaction :=
  {| isCommand := true; commandName := str "wordlestats";
     period := str periodChoice |}.

Definition sample_directory : snowflake -> option jsstring :=
  fun _ => Some (str "player").

(** *** More vocabulary *)

(** From [w] to [w'] the map has only grown: the users it had are
    still there, in the same order, with new users behind them, and
    every array has its old records in front. *)
Definition store_extends (w w' : world) : Prop :=
  (exists users, JSMap.keys (userScores w') = JSMap.keys (userScores w) ++ users)
  /\ forall u, exists added,
       records_of (userScores w') u = records_of (userScores w) u ++ added.

(** The number of records in the map. *)
Definition total_records (scores : JSMap.t (list ScoreRecord)) : Z :=
  fold_right (fun e n => Z.of_nat (List.length (snd e)) + n) 0 (JSMap.entries scores).

(** The counter of a distribution for the score [k]; 7 stands for the
    key [X]. *)
Definition bucket (d : distribution_t) (k : Z) : Z :=
  if k =? 1 then d1 d
  else if k =? 2 then d2 d
  else if k =? 3 then d3 d
  else if k =? 4 then d4 d
  else if k =? 5 then d5 d
  else if k =? 6 then d6 d
  else dX d.

(** The record has the score [k]. *)
Definition has_score (k : Z) (r : ScoreRecord) : bool :=
  match score r with
  | Num v => v =? k
  | _ => false
  end.

(** The entry has the average [a] (in hundredths). *)
Definition has_average (a : Z) (st : UserStat) : bool :=
  match averageScore st with
  | Num x => x =? a
  | _ => false
  end.

(** The average of the entry is a number. *)
Definition average_is_number (st : UserStat) : Prop :=
  exists x, averageScore st = Num x.

(** The Number is a non-negative integer or the positive infinity. *)
Definition nonneg_number (x : number) : Prop :=
  match x with
  | Num z => 0 <= z
  | Infinity negative => negative = false
  | NaN => False
  end.

(** The sum of the scores of a list of records. *)
Definition score_total (l : list ScoreRecord) : Z :=
  fold_right (fun r s => match score r with Num v => v + s | _ => s end) 0 l.

(** The host keeps local time at a fixed offset [c] from UTC (no
    daylight saving). *)
Definition fixed_offset `{Host} (c : Z) : Prop :=
  forall t isUTC, LocalTZA t isUTC = c.

(** How many days a period reaches back from the midnight that starts
    today: the least and the largest number. *)
Definition days_back (periodChoice : jsstring) : Z * Z :=
  if jsstring_eqb periodChoice (str "today") then (0, 0)
  else if jsstring_eqb periodChoice (str "month") then (28, 31)
  else if jsstring_eqb periodChoice (str "three_months") then (89, 92)
  else if jsstring_eqb periodChoice (str "six_months") then (181, 184)
  else (365, 366).

(* ================================================================== *)
(** * Part IV: properties of the runtime *)
(* ================================================================== *)

Ltac inv H := inversion H; subst; clear H.

(** ** The matcher *)

Module RegExpFacts.
Import RegExp.

Lemma consumed_app (w rest : jsstring) : consumed (w ++ rest) rest = w.
Proof.
  unfold consumed. rewrite length_app.
  replace (List.length w + List.length rest - List.length rest)%nat
    with (List.length w + 0)%nat by lia.
  rewrite firstn_app_2. simpl. apply app_nil_r.
Qed.

Lemma derives_accepts ic r s c rest c' :
  derives ic r s c rest c' -> exists w, s = w ++ rest /\ accepts ic r w.
Proof.
  induction 1.
  - exists []. split; [reflexivity | constructor].
  - exists [ch]. split; [reflexivity | now constructor].
  - destruct IHderives1 as (w1 & -> & A1). destruct IHderives2 as (w2 & -> & A2).
    exists (w1 ++ w2). split; [now rewrite app_assoc | now constructor].
  - exists []. split; [reflexivity | constructor].
  - destruct IHderives as (w & -> & A1).
    exists (ch :: w). split; [reflexivity | now constructor].
  - exists []. split; [reflexivity | constructor].
  - exists [ch]. split; [reflexivity | now constructor].
  - destruct IHderives as (w & -> & A1).
    exists w. split; [reflexivity | now constructor].
Qed.

Lemma derives_groupless ic r s c rest c' :
  derives ic r s c rest c' -> groupless r = true -> c' = c.
Proof.
  induction 1; simpl; intros G; try reflexivity; try discriminate.
  apply andb_prop in G as [G1 G2].
  rewrite (IHderives2 G2). now apply IHderives1.
Qed.

Lemma derives_group ic n r s c rest c' :
  derives ic (RGroup n r) s c rest c' ->
  exists w c0, s = w ++ rest /\ accepts ic r w /\ c' = set_capture n w c0
               /\ derives ic r s c rest c0.
Proof.
  intros D. inv D.
  destruct (derives_accepts _ _ _ _ _ _ H5) as (w & -> & A1).
  exists w, c'0. rewrite consumed_app. auto.
Qed.

Section Soundness.
Variable ic : bool.
Context {A : Type}.

Lemma star_sound cs (k : jsstring -> option A) c x :
  forall s, star ic cs s k = Some x ->
  exists rest, derives ic (RStar cs) s c rest c /\ k rest = Some x.
Proof.
  induction s as [|ch s IH]; simpl; intros E.
  - exists []. split; [constructor | assumption].
  - destruct (matches ic cs ch) eqn:Em.
    + destruct (star ic cs s k) eqn:Es; simpl in E.
      * inv E. destruct (IH eq_refl) as (rest & D & K).
        exists rest. split; [now constructor | assumption].
      * exists (ch :: s). split; [constructor | assumption].
    + exists (ch :: s). split; [constructor | assumption].
Qed.

(** Whatever the matcher returns comes out of its continuation,
    called on what a derivation leaves. *)
Lemma run_sound r :
  forall s c (k : jsstring -> captures -> option A) x,
    run ic r s c k = Some x ->
    exists rest c', derives ic r s c rest c' /\ k rest c' = Some x.
Proof.
  induction r as [|cs|r1 IH1 r2 IH2|cs|cs|n r IH]; simpl; intros s c k x E.
  - exists s, c. split; [constructor | assumption].
  - destruct s as [|ch s]; [discriminate|].
    destruct (matches ic cs ch) eqn:Em; [|discriminate].
    exists s, c. split; [now constructor | assumption].
  - apply IH1 in E as (s1 & c1 & D1 & E).
    apply IH2 in E as (s2 & c2 & D2 & E).
    exists s2, c2. split; [econstructor; eassumption | assumption].
  - apply (star_sound cs _ c) in E as (rest & D & E).
    exists rest, c. split; assumption.
  - destruct s as [|ch s].
    + exists [], c. split; [constructor | assumption].
    + destruct (matches ic cs ch) eqn:Em.
      * destruct (k s c) eqn:Ek; simpl in E.
        -- inv E. exists s, c. split; [now constructor | assumption].
        -- exists (ch :: s), c. split; [constructor | assumption].
      * exists (ch :: s), c. split; [constructor | assumption].
  - apply IH in E as (rest & c' & D & E).
    exists rest, (set_capture n (consumed s rest) c').
    split; [now constructor | assumption].
Qed.

Lemma star_complete cs (k : jsstring -> option A) rest :
  k rest <> None ->
  forall w, accepts ic (RStar cs) w -> star ic cs (w ++ rest) k <> None.
Proof.
  intros K w Acc. remember (RStar cs) as r eqn:Er.
  induction Acc; inv Er; simpl.
  - destruct rest as [|ch rest']; simpl; [assumption|].
    destruct (matches ic cs ch); [|assumption].
    destruct (star ic cs rest' k); simpl; [discriminate | assumption].
  - rewrite H. specialize (IHAcc eq_refl).
    destruct (star ic cs (w ++ rest) k); simpl; [discriminate | contradiction].
Qed.

(** The matcher finds a match whenever there is one: if a prefix of
    the text is in the language of [r] and the continuation accepts
    what follows, whatever the captures, then [run] succeeds. *)
Lemma run_complete r :
  forall w, accepts ic r w ->
  forall rest (k : jsstring -> captures -> option A) c,
    (forall c', k rest c' <> None) ->
    run ic r (w ++ rest) c k <> None.
Proof.
  induction r as [|cs|r1 IH1 r2 IH2|cs|cs|n r IH]; intros w Acc rest k c K.
  - inv Acc. simpl. apply K.
  - inv Acc. simpl. rewrite H0. apply K.
  - inv Acc. simpl. rewrite <- app_assoc.
    apply IH1; [assumption|]. intros c'. apply IH2; assumption.
  - simpl. apply star_complete; [apply K | assumption].
  - inv Acc; simpl.
    + destruct rest as [|ch rest']; [apply K|].
      destruct (matches ic cs ch); [|apply K].
      destruct (k rest' c); simpl; [discriminate | apply K].
    + rewrite H0. destruct (k rest c) eqn:Ek; simpl; [discriminate|].
      exfalso. now apply (K c).
  - inv Acc. simpl. apply IH; [assumption|]. intros c'. apply K.
Qed.
End Soundness.

Lemma exec_sound ic r n :
  forall s m, exec ic r n s = Some m ->
  exists s0 rest c, derives ic r s0 no_captures rest c
                    /\ m = Some (consumed s0 rest) :: map c (seq 1 n).
Proof.
  induction s as [|ch s IH]; simpl; intros m E.
  - destruct (match_at ic r n []) eqn:Em; [|discriminate]. inv E.
    apply run_sound in Em as (rest & c & D & E). inv E. eauto.
  - destruct (match_at ic r n (ch :: s)) eqn:Em.
    + inv E. apply run_sound in Em as (rest & c & D & E). inv E. eauto.
    + now apply IH.
Qed.

Lemma exec_complete ic r n pre w post :
  accepts ic r w -> exec ic r n (pre ++ w ++ post) <> None.
Proof.
  intros Acc. induction pre as [|ch pre IH].
  - simpl. assert (M : match_at ic r n (w ++ post) <> None).
    { unfold match_at. apply run_complete; [assumption | discriminate]. }
    destruct (w ++ post); simpl; destruct (match_at ic r n _); congruence.
  - simpl. destruct (match_at ic r n (ch :: pre ++ w ++ post)); [discriminate | exact IH].
Qed.

Lemma full_match_accepts ic r w : full_match ic r w = true -> accepts ic r w.
Proof.
  unfold full_match.
  destruct (run ic r w no_captures _) as [[]|] eqn:E; [intros _ | discriminate].
  apply run_sound in E as (rest & c & D & E).
  destruct rest; [|discriminate].
  apply derives_accepts in D as (w' & -> & Acc). now rewrite app_nil_r.
Qed.

End RegExpFacts.

(** ** The pattern of the program *)

Section PatternFacts.
Import RegExp RegExpFacts.

(** Every match of [WORDLE_REGEX] defines its four groups, and each
    group holds a word of its own pattern. *)
Lemma WORDLE_REGEX_groups content m :
  match_WORDLE_REGEX content = Some m ->
  exists w g1 g2 g3 g4,
    m = [Some w; Some g1; Some g2; Some g3; Some g4]
    /\ accepts true number_pattern g1
    /\ accepts true result_pattern g2
    /\ accepts true max_pattern g3
    /\ accepts true hard_pattern g4.
Proof.
  unfold match_WORDLE_REGEX. intros E.
  apply exec_sound in E as (s0 & rest & c & D & ->).
  unfold WORDLE_REGEX in D.
  inversion D as [| |? ? ? ? s1 c1 ? ? DL D1| | | | |]; subst; clear D.
  apply derives_groupless in DL; [subst c1 | reflexivity].
  inversion D1 as [| |? ? ? ? s2 c2 ? ? DP D2| | | | |]; subst; clear D1.
  apply derives_groupless in DP; [subst c2 | reflexivity].
  inversion D2 as [| |? ? ? ? s3 c3 ? ? DG1 D3| | | | |]; subst; clear D2.
  apply derives_group in DG1 as (g1 & c0 & -> & A1 & -> & DG1).
  apply derives_groupless in DG1; [subst c0 | reflexivity].
  inversion D3 as [| |? ? ? ? s4 c4 ? ? DP D4| | | | |]; subst; clear D3.
  apply derives_groupless in DP; [subst c4 | reflexivity].
  inversion D4 as [| |? ? ? ? s5 c5 ? ? DG2 D5| | | | |]; subst; clear D4.
  apply derives_group in DG2 as (g2 & c0 & -> & A2 & -> & DG2).
  apply derives_groupless in DG2; [subst c0 | reflexivity].
  inversion D5 as [| |? ? ? ? s6 c6 ? ? DS D6| | | | |]; subst; clear D5.
  apply derives_groupless in DS; [subst c6 | reflexivity].
  inversion D6 as [| |? ? ? ? s7 c7 ? ? DG3 DG4| | | | |]; subst; clear D6.
  apply derives_group in DG3 as (g3 & c0 & -> & A3 & -> & DG3).
  apply derives_groupless in DG3; [subst c0 | reflexivity].
  apply derives_group in DG4 as (g4 & c0 & -> & A4 & -> & DG4).
  apply derives_groupless in DG4; [subst c0 | reflexivity].
  eexists _, g1, g2, g3, g4. repeat split; try assumption.
Qed.

End PatternFacts.

(** ** Strings and numbers *)

Lemma jsstring_eqb_eq (a b : jsstring) : jsstring_eqb a b = true <-> a = b.
Proof.
  revert b. induction a as [|x a IH]; destruct b as [|y b]; simpl;
    try (split; [discriminate | intros E; discriminate E]); [tauto|].
  unfold code_unit_eqb. rewrite andb_true_iff, Z.eqb_eq, IH.
  split; [intros [-> ->]; reflexivity | intros E; inv E; auto].
Qed.

Lemma is_digit_spec c : is_digit c = true <-> 48 <= c <= 57.
Proof. unfold is_digit. rewrite andb_true_iff, !Z.leb_le. tauto. Qed.

Lemma digit_not_space c : is_digit c = true -> is_space c = false.
Proof.
  rewrite is_digit_spec. intros Hc. unfold is_space.
  repeat match goal with
         | |- context [?a <=? ?b] => destruct (Z.leb_spec a b); try lia
         | |- context [?a =? ?b] => destruct (Z.eqb_spec a b); try lia
         end; reflexivity.
Qed.

Lemma digit_value_10 c : is_digit c = true -> digit_value 10 c = Some (c - 48).
Proof.
  intros Hc. unfold digit_value. rewrite Hc.
  apply is_digit_spec in Hc.
  destruct (Z.ltb_spec (c - 48) 10); [reflexivity | lia].
Qed.

Lemma parse_digits_10 ds :
  forallb is_digit ds = true ->
  forall a, parse_digits 10 (Some a) ds
            = Some (fold_left (fun a c => 10 * a + (c - 48)) ds a).
Proof.
  induction ds as [|c ds IH]; simpl; intros Hd a; [reflexivity|].
  apply andb_prop in Hd as [Hc Hd].
  rewrite (digit_value_10 _ Hc), (IH Hd).
  replace (a * 10 + (c - 48)) with (10 * a + (c - 48)) by lia. reflexivity.
Qed.

(** Below 2^53 the Number value of an integer is the integer. *)
Lemma number_of_integer_exact n :
  Z.abs n < 2 ^ 53 -> number_of_integer n = Num n.
Proof.
  intros B. unfold number_of_integer.
  destruct (Z.ltb_spec (Z.abs n) (2 ^ 53)); [reflexivity | lia].
Qed.

(** The Number value of a non-negative integer is a non-negative
    integer or the positive infinity. *)
Lemma number_of_integer_nonneg n :
  0 <= n -> nonneg_number (number_of_integer n).
Proof.
  intros Hn. unfold number_of_integer, nonneg_number.
  rewrite Z.abs_eq by exact Hn.
  destruct (Z.ltb_spec n (2 ^ 53)) as [|Big]; [exact Hn|].
  assert (P : 0 < n) by (assert (0 < 2 ^ 53) by reflexivity; lia).
  set (sh := Z.log2 n - 52).
  assert (Hsh : 1 <= sh).
  { assert (53 <= Z.log2 n) by (apply Z.log2_le_pow2; lia). unfold sh. lia. }
  assert (Psh : 0 < 2 ^ sh) by (apply Z.pow_pos_nonneg; lia).
  assert (Hm : 0 <= n / 2 ^ sh) by (apply Z.div_pos; lia).
  match goal with
  | |- context [2 ^ 1024 <=? ?v] => destruct (2 ^ 1024 <=? v) eqn:E
  end.
  - apply Z.ltb_ge. lia.
  - rewrite Z.sgn_pos by exact P.
    destruct (_ || _); nia.
Qed.

(** [parseInt] reads a string of decimal digits as the Number value of
    its decimal value. *)
Lemma parseInt_digits ds :
  ds <> [] -> forallb is_digit ds = true ->
  parseInt ds = number_of_integer (decimal ds).
Proof.
  destruct ds as [|c ds]; [congruence|]. intros _ Hd.
  simpl in Hd. apply andb_prop in Hd as [Hc Hd].
  unfold parseInt. simpl trim_start. rewrite (digit_not_space _ Hc).
  pose proof (proj1 (is_digit_spec c) Hc) as Rc.
  unfold strip_sign.
  destruct (Z.eqb_spec c 45); [lia|]. destruct (Z.eqb_spec c 43); [lia|].
  assert (R : strip_radix_prefix (c :: ds) = (10, c :: ds)).
  { unfold strip_radix_prefix. destruct ds as [|c1 ds']; [reflexivity|].
    simpl in Hd. apply andb_prop in Hd as [Hc1 _]. apply is_digit_spec in Hc1.
    destruct (Z.eqb_spec c1 120); [lia|]. destruct (Z.eqb_spec c1 88); [lia|].
    now rewrite andb_false_r. }
  rewrite R. cbn [parse_digits]. rewrite (digit_value_10 _ Hc).
  rewrite (parse_digits_10 _ Hd), Z.mul_1_l. unfold decimal. cbn [fold_left].
  replace (10 * 0 + (c - 48)) with (c - 48) by lia. reflexivity.
Qed.

(** ** The words of the four groups *)

(** Case analysis on the comparisons that decide whether a code unit
    matches a set under the [i] flag. *)
Ltac split_matches ch :=
  unfold RegExp.matches, RegExp.member, is_digit, toUpperCase_unit, toLowerCase_unit;
  destruct (Z.leb_spec 97 ch), (Z.leb_spec ch 122),
           (Z.leb_spec 65 ch), (Z.leb_spec ch 90); cbn [andb orb];
  repeat match goal with
         | |- context [?a <=? ?b] => destruct (Z.leb_spec a b); cbn [andb orb]
         | |- context [?a =? ?b] => destruct (Z.eqb_spec a b); cbn [andb orb]
         end.

Section GroupFacts.
Import RegExp RegExpFacts.

Lemma matches_digit ch : matches true CDigit ch = true -> is_digit ch = true.
Proof.
  split_matches ch; intros; try reflexivity; try discriminate; exfalso; lia.
Qed.

Lemma accepts_star_digits w :
  accepts true (RStar CDigit) w -> forallb is_digit w = true.
Proof.
  intros Acc. remember (RStar CDigit) as r eqn:Er.
  induction Acc; inv Er; simpl; [reflexivity|].
  rewrite (matches_digit _ H). now apply IHAcc.
Qed.

Lemma accepts_plus_digits w :
  accepts true (RPlus CDigit) w -> w <> [] /\ forallb is_digit w = true.
Proof.
  intros Acc. inv Acc. inv H1. simpl. split; [discriminate|].
  rewrite (matches_digit _ H0). now apply accepts_star_digits.
Qed.

Lemma accepts_result w :
  accepts true result_pattern w ->
  exists ch, w = [ch] /\ (49 <= ch <= 54 \/ ch = 88 \/ ch = 120).
Proof.
  intros Acc. inv Acc. exists ch. split; [reflexivity|].
  revert H0. split_matches ch; intros; try discriminate; lia.
Qed.

Lemma accepts_hard w : accepts true hard_pattern w -> w = [] \/ w = [42].
Proof.
  intros Acc. inv Acc; [now left | right].
  revert H0. split_matches ch; intros; try discriminate; f_equal; lia.
Qed.

Lemma accepts_number w :
  accepts true number_pattern w ->
  exists ds1 sep ds2,
    w = ds1 ++ sep ++ ds2
    /\ ds1 <> [] /\ forallb is_digit ds1 = true
    /\ (sep = [] \/ sep = [44])
    /\ forallb is_digit ds2 = true.
Proof.
  intros Acc. inv Acc.
  match goal with A : accepts _ (RSeq (ROpt _) _) _ |- _ => inv A end.
  match goal with A : accepts _ (RPlus _) ?w |- _ =>
    apply accepts_plus_digits in A as [N1 D1]; exists w end.
  match goal with A : accepts _ (RStar _) _ |- _ =>
    apply accepts_star_digits in A end.
  match goal with A : accepts _ (ROpt _) ?w |- _ => exists w; inv A end;
    eexists; (split; [reflexivity|]); (split; [assumption|]);
    (split; [assumption|]); (split; [|assumption]); [now left | right].
  match goal with M : matches _ _ _ = true |- _ => revert M end.
  split_matches ch; intros; try discriminate; f_equal; lia.
Qed.

Lemma remove_commas_digits ds :
  forallb is_digit ds = true -> remove_commas ds = ds.
Proof.
  induction ds as [|c ds IH]; simpl; intros Hd; [reflexivity|].
  apply andb_prop in Hd as [Hc Hd]. apply is_digit_spec in Hc.
  destruct (Z.eqb_spec c 44); [lia|]. simpl. now rewrite IH.
Qed.

Lemma remove_commas_number ds1 sep ds2 :
  forallb is_digit ds1 = true -> sep = [] \/ sep = [44] ->
  forallb is_digit ds2 = true ->
  remove_commas (ds1 ++ sep ++ ds2) = ds1 ++ ds2.
Proof.
  intros D1 S D2.
  assert (App : forall a b, remove_commas (a ++ b) = remove_commas a ++ remove_commas b)
    by (intros; apply filter_app).
  rewrite !App, (remove_commas_digits _ D1), (remove_commas_digits _ D2).
  destruct S as [-> | ->]; reflexivity.
Qed.

(** The result token decides the score: 7 for [X] and [x], the digit's
    value for the digits 1 to 6. *)
Lemma score_of_token ch g1 g3 g4 now :
  49 <= ch <= 54 \/ ch = 88 \/ ch = 120 ->
  score (record_of_groups g1 [ch] g3 g4 now)
  = Num (if (ch =? 88) || (ch =? 120) then 7 else ch - 48).
Proof.
  intros R.
  assert (E : ch = 49 \/ ch = 50 \/ ch = 51 \/ ch = 52 \/ ch = 53 \/ ch = 54
              \/ ch = 88 \/ ch = 120) by lia.
  repeat destruct E as [-> | E]; try subst ch; reflexivity.
Qed.

End GroupFacts.

(** ** The parser *)

Section ParserFacts.
Context `{Host}.

Lemma parseWordleScore_unfold content w :
  parseWordleScore content w
  = match match_WORDLE_REGEX content with
    | Some [_; Some m1; Some m2; Some m3; Some m4] =>
        (Some (record_of_groups m1 m2 m3 m4 (clock (clock_reads w))), tick w)
    | _ => (None, w)
    end.
Proof.
  unfold parseWordleScore.
  destruct (match_WORDLE_REGEX content) as [m|]; [|reflexivity].
  repeat match goal with
         | |- context [match ?x with _ => _ end] =>
             is_var x; destruct x; try reflexivity
         end.
Qed.

(** The two outcomes of a parse. *)
Lemma parseWordleScore_cases content w :
  (match_WORDLE_REGEX content = None /\ parseWordleScore content w = (None, w))
  \/ (exists whole g1 g2 g3 g4,
        match_WORDLE_REGEX content
        = Some [Some whole; Some g1; Some g2; Some g3; Some g4]
        /\ RegExp.accepts true number_pattern g1
        /\ RegExp.accepts true result_pattern g2
        /\ RegExp.accepts true max_pattern g3
        /\ RegExp.accepts true hard_pattern g4
        /\ parseWordleScore content w
           = (Some (record_of_groups g1 g2 g3 g4 (clock (clock_reads w))), tick w)).
Proof.
  rewrite parseWordleScore_unfold.
  destruct (match_WORDLE_REGEX content) as [m|] eqn:E; [right | now left].
  destruct (WORDLE_REGEX_groups _ _ E) as (whole & g1 & g2 & g3 & g4 & -> & A).
  exists whole, g1, g2, g3, g4. tauto.
Qed.

(** A parsed score is a number from 1 to 7. *)
Lemma parseWordleScore_score content w r w' :
  parseWordleScore content w = (Some r, w') ->
  exists v, score r = Num v /\ 1 <= v <= 7.
Proof.
  intros E.
  destruct (parseWordleScore_cases content w)
    as [[_ E'] | (whole & g1 & g2 & g3 & g4 & _ & _ & A2 & _ & _ & E')];
    rewrite E' in E; inv E.
  apply accepts_result in A2 as (ch & -> & R).
  rewrite (score_of_token _ _ _ _ _ R). eexists. split; [reflexivity|].
  destruct (Z.eqb_spec ch 88); destruct (Z.eqb_spec ch 120); simpl; lia.
Qed.

End ParserFacts.

(** ** Maps *)

Module JSMapFacts.
Section JSMapFacts.
Context {V : Type}.
Implicit Types (m : JSMap.t V) (k : snowflake) (v : V).

Lemma get_set_same m k v : JSMap.get (JSMap.set m k v) k = Some v.
Proof.
  induction m as [|[k' v'] m IH]; simpl.
  - now rewrite Z.eqb_refl.
  - destruct (Z.eqb_spec k' k) as [->|N]; simpl.
    + now rewrite Z.eqb_refl.
    + destruct (Z.eqb_spec k' k); [contradiction | exact IH].
Qed.

Lemma get_set_other m k v k0 :
  k0 <> k -> JSMap.get (JSMap.set m k v) k0 = JSMap.get m k0.
Proof.
  intros N. induction m as [|[k' v'] m IH]; simpl.
  - destruct (Z.eqb_spec k k0); [congruence | reflexivity].
  - destruct (Z.eqb_spec k' k) as [->|N']; simpl.
    + destruct (Z.eqb_spec k k0); [congruence | reflexivity].
    + now rewrite IH.
Qed.

Lemma has_keys m k : JSMap.has m k = true <-> In k (JSMap.keys m).
Proof.
  unfold JSMap.has. induction m as [|[k' v'] m IH]; simpl.
  - split; [discriminate | tauto].
  - destruct (Z.eqb_spec k' k) as [->|N].
    + split; auto.
    + rewrite IH. split; [auto | intros [E|I]; [contradiction | exact I]].
Qed.

Lemma keys_set m k v :
  JSMap.keys (JSMap.set m k v)
  = if JSMap.has m k then JSMap.keys m else JSMap.keys m ++ [k].
Proof.
  unfold JSMap.has. induction m as [|[k' v'] m IH]; simpl; [reflexivity|].
  destruct (Z.eqb_spec k' k) as [->|N]; simpl; [reflexivity|].
  rewrite IH. now destruct (JSMap.get m k).
Qed.

Lemma set_NoDup m k v :
  NoDup (JSMap.keys m) -> NoDup (JSMap.keys (JSMap.set m k v)).
Proof.
  intros ND. rewrite keys_set. destruct (JSMap.has m k) eqn:E; [assumption|].
  apply NoDup_app; [assumption | repeat constructor; simpl; tauto |].
  intros x Ix [<-|[]]. apply has_keys in Ix. congruence.
Qed.

Lemma In_get m k v :
  NoDup (JSMap.keys m) -> In (k, v) m -> JSMap.get m k = Some v.
Proof.
  induction m as [|[k' v'] m IH]; simpl; [tauto|].
  intros ND [E|I].
  - inv E. now rewrite Z.eqb_refl.
  - inv ND. destruct (Z.eqb_spec k' k) as [->|N]; [|auto].
    exfalso. apply H1. change k with (fst (k, v)). now apply in_map.
Qed.

End JSMapFacts.
End JSMapFacts.

(** ** What the producers do to the store *)

Section StoreFacts.
Context `{Host}.
Import JSMapFacts.

Lemma records_of_store_score m s w u :
  records_of (userScores (snd (store_score m s w))) u
  = if u =? author m
    then records_of (userScores w) u ++ [with_timestamp s (createdAt m)]
    else records_of (userScores w) u.
Proof.
  unfold store_score, records_of. simpl.
  destruct (JSMap.has (userScores w) (author m)) eqn:Eh; simpl.
  - unfold JSMap.has in Eh.
    destruct (JSMap.get (userScores w) (author m)) as [arr|] eqn:Eg; [|discriminate].
    destruct (Z.eqb_spec u (author m)) as [->|N].
    + now rewrite get_set_same, Eg.
    + now rewrite get_set_other.
  - unfold JSMap.has in Eh.
    destruct (JSMap.get (userScores w) (author m)) as [arr|] eqn:Eg; [discriminate|].
    rewrite get_set_same.
    destruct (Z.eqb_spec u (author m)) as [->|N].
    + now rewrite get_set_same, Eg.
    + now rewrite !get_set_other.
Qed.

Lemma keys_store_score m s w :
  NoDup (JSMap.keys (userScores w)) ->
  NoDup (JSMap.keys (userScores (snd (store_score m s w)))).
Proof.
  intros ND. unfold store_score. simpl.
  destruct (JSMap.has (userScores w) (author m)); simpl;
    repeat match goal with
           | |- context [match ?x with _ => _ end] => destruct x
           end; repeat apply set_NoDup; assumption.
Qed.

Lemma grows_by_refl P w : grows_by P w w.
Proof. intros u. exists []. now rewrite app_nil_r. Qed.

Lemma grows_by_tick P w0 w : grows_by P w0 w -> grows_by P w0 (tick w).
Proof. exact (fun G => G). Qed.

Lemma grows_by_store P w0 m s w :
  P (author m) (with_timestamp s (createdAt m)) ->
  grows_by P w0 w -> grows_by P w0 (snd (store_score m s w)).
Proof.
  intros Pm G u. destruct (G u) as (added & E & F).
  rewrite records_of_store_score.
  destruct (Z.eqb_spec u (author m)) as [->|N]; [|eauto].
  exists (added ++ [with_timestamp s (createdAt m)]).
  rewrite E, app_assoc. split; [reflexivity|].
  apply Forall_app. auto.
Qed.

End StoreFacts.

(** ** Properties that every step of the program keeps *)

Section Preservation.
Context `{Host}.
Variable Inv : world -> Prop.
Variable Q : message -> ScoreRecord -> Prop.
Hypothesis Inv_tick : forall w, Inv w -> Inv (tick w).
Hypothesis Inv_store :
  forall m s w, Q m s -> Inv w -> Inv (snd (store_score m s w)).

Lemma parse_preserves text w : Inv w -> Inv (snd (parseWordleScore text w)).
Proof.
  intros I. rewrite parseWordleScore_unfold.
  repeat match goal with
         | |- context [match ?x with _ => _ end] => destruct x; simpl; auto
         end.
Qed.

Lemma messageCreate_preserves m w :
  (forall s, parses_to m s -> Q m s) -> Inv w -> Inv (snd (messageCreate m w)).
Proof.
  intros HQ I. unfold messageCreate.
  destruct (negb _); [exact I|]. unfold bind.
  destruct (parseWordleScore (content m) w) as [[s|] w1] eqn:E.
  - apply Inv_store; [apply HQ; now exists w, w1|].
    change w1 with (snd (Some s, w1)). rewrite <- E. now apply parse_preserves.
  - change w1 with (snd (@None ScoreRecord, w1)). rewrite <- E.
    now apply parse_preserves.
Qed.

Lemma process_page_preserves oneYearAgo messages :
  (forall m s, In m messages -> oneYearAgo <= createdAt m ->
               parses_to m s -> Q m s) ->
  forall found w, Inv w -> Inv (snd (process_page oneYearAgo messages found w)).
Proof.
  induction messages as [|m rest IH]; simpl; intros HQ found w I; [exact I|].
  destruct (Z.ltb_spec (createdAt m) oneYearAgo) as [Old|New]; [exact I|].
  unfold bind at 1.
  destruct (parseWordleScore (content m) w) as [[s|] w1] eqn:E.
  - unfold bind at 1.
    destruct (store_score m s w1) as [[] w2] eqn:E2.
    apply IH; [intros; apply HQ; auto|].
    change w2 with (snd (tt, w2)). rewrite <- E2.
    apply Inv_store; [apply HQ; auto; now exists w, w1|].
    change w1 with (snd (Some s, w1)). rewrite <- E. now apply parse_preserves.
  - apply IH; [intros; apply HQ; auto|].
    change w1 with (snd (@None ScoreRecord, w1)). rewrite <- E.
    now apply parse_preserves.
Qed.

Lemma crawl_loop_preserves ch oneYearAgo :
  (forall m s, fetched ch m -> oneYearAgo <= createdAt m ->
               parses_to m s -> Q m s) ->
  forall fuel calls lastId processed found w,
    Inv w ->
    Inv (snd (crawl_loop fuel ch oneYearAgo calls lastId processed found w)).
Proof.
  intros HQ. induction fuel as [|fuel IH]; cbn [crawl_loop]; intros calls lastId processed found w I;
    [exact I|].
  destruct (messages_fetch ch calls _) as [[|m0 rest]|] eqn:F; try exact I.
  cbv beta iota zeta. unfold bind.
  destruct (process_page oneYearAgo (m0 :: rest) found w) as [[returned found'] w1] eqn:E.
  assert (I1 : Inv w1).
  { change w1 with (snd (returned, found', w1)). rewrite <- E.
    apply process_page_preserves; [|exact I].
    intros m s Im. apply HQ. now exists calls, {| limit := batchSize; before := lastId |}, (m0 :: rest). }
  destruct returned; [exact I1|].
  destruct (_ <? batchSize); [exact I1 | now apply IH].
Qed.

Lemma fetchHistoricalMessages_preserves fuel guilds w :
  (forall g rest ch m s,
      guilds = g :: rest -> find_channel g = Some ch -> fetched ch m ->
      one_year_before (clock (clock_reads w)) <= createdAt m ->
      parses_to m s -> Q m s) ->
  Inv w -> Inv (snd (fetchHistoricalMessages fuel guilds w)).
Proof.
  intros HQ I. unfold fetchHistoricalMessages.
  destruct guilds as [|g rest]; [exact I|].
  destruct (find_channel g) as [ch|] eqn:F; [|exact I].
  unfold bind, new_Date.
  apply crawl_loop_preserves; [|now apply Inv_tick].
  intros m s. now apply (HQ g rest ch).
Qed.

Lemma wordlestats_preserves periodChoice w :
  Inv w -> Inv (snd (wordlestats periodChoice w)).
Proof.
  intros I. apply Inv_tick, Inv_tick in I. exact I.
Qed.

End Preservation.

(** ** The invariant of the store *)

Section Invariant.
Context `{Host}.

Lemma store_ok_store m s w :
  (exists v, score s = Num v /\ 1 <= v <= 7) ->
  store_ok (userScores w) -> store_ok (userScores (snd (store_score m s w))).
Proof.
  intros Hs [ND R]. split; [now apply keys_store_score|].
  intros u r. rewrite records_of_store_score.
  destruct (u =? author m); [|apply R].
  intros I. apply in_app_or in I as [I|[<-|[]]]; [now apply (R u) | exact Hs].
Qed.

Lemma parses_to_score m s :
  parses_to m s -> exists v, score s = Num v /\ 1 <= v <= 7.
Proof. intros (w & w' & E). exact (parseWordleScore_score _ _ _ _ E). Qed.

(** In every state that the process reaches, no user has two entries
    in the map and every stored score is a number from 1 to 7. *)
Lemma reachable_store_ok w : reachable w -> store_ok (userScores w).
Proof.
  induction 1 as [|m w R IH|fuel guilds w R IH|p w R IH].
  - split; [constructor | intros u r []].
  - apply (messageCreate_preserves (fun w => store_ok (userScores w))
             (fun _ s => exists v, score s = Num v /\ 1 <= v <= 7)); auto.
    + intros m0 s w0. apply store_ok_store.
    + intros s. apply parses_to_score.
  - apply (fetchHistoricalMessages_preserves (fun w => store_ok (userScores w))
             (fun _ s => exists v, score s = Num v /\ 1 <= v <= 7)); auto.
    + intros m0 s w0. apply store_ok_store.
    + intros g rest ch m s _ _ _ _. apply parses_to_score.
  - apply (wordlestats_preserves (fun w => store_ok (userScores w))); auto.
Qed.

End Invariant.

(** ** Sorting *)

Module JSArrayFacts.
Section JSArrayFacts.
Context {A : Type}.
Variable compareFn : A -> A -> number.

Lemma insert_perm x l : Permutation (JSArray.insert compareFn x l) (x :: l).
Proof.
  induction l as [|y l IH]; simpl; [reflexivity|].
  destruct (JSArray.after compareFn y x); [reflexivity|].
  rewrite IH. apply perm_swap.
Qed.

Lemma fold_insert_perm l :
  forall acc, Permutation (fold_left (fun acc x => JSArray.insert compareFn x acc) l acc)
                          (l ++ acc).
Proof.
  induction l as [|x l IH]; simpl; intros acc; [reflexivity|].
  rewrite IH, insert_perm. symmetry. apply Permutation_middle.
Qed.

(** Sorting rearranges the array; nothing is lost or added. *)
Lemma sort_perm l : Permutation (JSArray.sort compareFn l) l.
Proof. unfold JSArray.sort. rewrite fold_insert_perm. now rewrite app_nil_r. Qed.

Lemma sort_In x l : In x (JSArray.sort compareFn l) <-> In x l.
Proof.
  split; apply Permutation_in; [apply sort_perm | symmetry; apply sort_perm].
Qed.

(** With a comparison that agrees with a total preorder [le] on the
    elements at hand, the result is sorted by [le]. *)
Section Sorted.
Variable le : A -> A -> Prop.
Variable good : A -> Prop.
Hypothesis le_trans : forall a b c, le a b -> le b c -> le a c.
Hypothesis after_true :
  forall a b, good a -> good b -> JSArray.after compareFn a b = true -> le b a.
Hypothesis after_false :
  forall a b, good a -> good b -> JSArray.after compareFn a b = false -> le a b.

Lemma insert_sorted x l :
  good x -> Forall good l -> StronglySorted le l ->
  StronglySorted le (JSArray.insert compareFn x l).
Proof.
  intros Gx Gl S. induction S as [|y l S IH F]; simpl.
  - repeat constructor.
  - inv Gl. destruct (JSArray.after compareFn y x) eqn:E.
    + constructor; [now constructor|].
      pose proof (after_true _ _ H1 Gx E) as Lxy.
      constructor; [exact Lxy|].
      eapply Forall_impl; [|exact F]. intros z. now apply le_trans.
    + constructor; [now apply IH|].
      pose proof (after_false _ _ H1 Gx E) as Lyx.
      rewrite (insert_perm x l). now constructor.
Qed.

Lemma fold_insert_sorted l :
  Forall good l ->
  forall acc, Forall good acc -> StronglySorted le acc ->
  StronglySorted le (fold_left (fun acc x => JSArray.insert compareFn x acc) l acc).
Proof.
  induction 1 as [|x l Gx Gl IH]; simpl; intros acc Ga S; [exact S|].
  apply IH.
  - rewrite (insert_perm x acc). now constructor.
  - now apply insert_sorted.
Qed.

Lemma sort_sorted l :
  Forall good l -> StronglySorted le (JSArray.sort compareFn l).
Proof. intros G. apply fold_insert_sorted; [exact G | constructor | constructor]. Qed.
End Sorted.

End JSArrayFacts.
End JSArrayFacts.

(** ** The statistics *)

Section StatsFacts.

Lemma bucket_sum_count d s : bucket_sum (count_score d s) = bucket_sum d + 1.
Proof.
  unfold count_score, incr_bucket, incr_X, bucket_sum.
  destruct (score s) as [|v|neg]; simpl; [lia| |lia].
  destruct ((1 <=? v) && (v <=? 6)); simpl; [|lia].
  repeat match goal with
         | |- context [?a =? ?b] => destruct (a =? b); simpl; try lia
         end.
Qed.

Lemma bucket_sum_fold l :
  forall d, bucket_sum (fold_left count_score l d)
            = bucket_sum d + Z.of_nat (List.length l).
Proof.
  induction l as [|s l IH]; intros d; cbn [fold_left List.length]; [lia|].
  rewrite IH, bucket_sum_count. lia.
Qed.

Lemma total_score_Num l :
  (forall r, In r l -> exists v, score r = Num v) ->
  forall a, exists t,
    fold_left (fun sum s => number_add sum (score s)) l (Num a) = Num t.
Proof.
  induction l as [|s l IH]; simpl; intros Hl a; [eauto|].
  destruct (Hl s (or_introl eq_refl)) as (v & ->). simpl.
  apply IH. intros r Ir. apply Hl. now right.
Qed.

(** The rounded quotient of two integers is a number. *)
Lemma toFixed2_div_Z t n : exists a, Double.toFixed2 (Double.div_Z t n) = Num a.
Proof.
  unfold Double.div_Z. destruct (t =? 0); [simpl; eauto|].
  cbv zeta. destruct (_ =? 2 ^ 53); simpl; eauto.
Qed.

Lemma collect_stats_In startDate endDate entries st :
  In st (collect_stats startDate endDate entries)
  <-> exists entry, In entry entries /\ user_stat startDate endDate entry = Some st.
Proof.
  induction entries as [|e entries IH]; simpl.
  - split; [tauto | intros (? & [] & _)].
  - destruct (user_stat startDate endDate e) as [st0|] eqn:E; simpl; rewrite IH; split.
    + intros [<-|(entry & I & U)]; eauto.
    + intros (entry & [<-|I] & U); [left; congruence | eauto].
    + intros (entry & I & U). eauto.
    + intros (entry & [<-|I] & U); [congruence | eauto].
Qed.

Lemma user_stat_spec startDate endDate u scores st :
  user_stat startDate endDate (u, scores) = Some st ->
  userId st = u
  /\ totalGames st = Z.of_nat (List.length (filter (in_window startDate endDate) scores))
  /\ bucket_sum (distribution st) = totalGames st
  /\ 0 < totalGames st.
Proof.
  unfold user_stat.
  destruct (Z.ltb_spec 0 (Z.of_nat (List.length (filter (in_window startDate endDate) scores))));
    [|discriminate].
  intros E. inv E. simpl. rewrite bucket_sum_fold.
  repeat split; assumption.
Qed.

Lemma user_stat_average startDate endDate u scores st :
  (forall r, In r scores -> exists v, score r = Num v) ->
  user_stat startDate endDate (u, scores) = Some st ->
  exists a, averageScore st = Num a.
Proof.
  unfold user_stat. intros Hs.
  destruct (0 <? _); [|discriminate]. intros E. inv E. simpl.
  destruct (total_score_Num (filter (in_window startDate endDate) scores)) with (a := 0)
    as (t & ->).
  - intros r Ir. apply filter_In in Ir as [Ir _]. now apply Hs.
  - apply toFixed2_div_Z.
Qed.

End StatsFacts.

(** ** One page *)

Section PageFacts.
Context `{Host}.

(** What the parser returns, once the caller has put the creation time
    of the message in place of the parser's own reading of the clock. *)
Lemma parse_stored m w :
  option_map (fun s => with_timestamp s (createdAt m))
             (fst (parseWordleScore (content m) w))
  = stored_record m.
Proof.
  rewrite parseWordleScore_unfold. unfold stored_record.
  repeat match goal with
         | |- context [match ?x with _ => _ end] => destruct x; try reflexivity
         end.
Qed.

(** The loop over a page whose messages are all recent enough runs to
    the end of the page: each message is parsed once, and each result
    is appended to its author's array. *)
Lemma process_page_all oneYearAgo messages :
  all_since oneYearAgo messages = true ->
  forall found w,
  exists w',
    process_page oneYearAgo messages found w
    = (false, found + results_in messages, w')
    /\ forall u, records_of (userScores w') u
                 = records_of (userScores w) u ++ records_from u messages.
Proof.
  induction messages as [|m rest IH]; intros A found w.
  - exists w. simpl. unfold results_in. simpl. rewrite Z.add_0_r.
    split; [reflexivity | intros u; now rewrite app_nil_r].
  - simpl in A. apply andb_prop in A as [Am A].
    cbn [process_page].
    destruct (Z.ltb_spec (createdAt m) oneYearAgo) as [Old|_];
      [apply Z.leb_le in Am; lia|].
    pose proof (parse_stored m w) as PS. unfold bind at 1.
    destruct (parseWordleScore (content m) w) as [[s|] w1] eqn:E; simpl in PS.
    + unfold bind at 1. destruct (store_score m s w1) as [[] w2] eqn:E2.
      destruct (IH A (found + 1) w2) as (w' & -> & R).
      exists w'. split.
      * unfold results_in. simpl. rewrite <- PS. simpl.
        f_equal. f_equal. lia.
      * intros u. rewrite R.
        replace w2 with (snd (store_score m s w1)) by now rewrite E2.
        rewrite records_of_store_score.
        assert (U : userScores w1 = userScores w).
        { pose proof (parseWordleScore_unfold (content m) w) as PU.
          rewrite E in PU.
          repeat match type of PU with
                 | context [match ?x with _ => _ end] => destruct x
                 end; inv PU; reflexivity. }
        rewrite U. simpl. rewrite <- PS. rewrite Z.eqb_sym.
        destruct (author m =? u); simpl; [now rewrite <- app_assoc | reflexivity].
    + destruct (IH A found w1) as (w' & -> & R).
      exists w'. split.
      * unfold results_in. simpl. now rewrite <- PS.
      * intros u. rewrite R.
        assert (U : w1 = w).
        { pose proof (parseWordleScore_unfold (content m) w) as PU.
          rewrite E in PU.
          repeat match type of PU with
                 | context [match ?x with _ => _ end] => destruct x
                 end; inv PU; reflexivity. }
        rewrite U. simpl. rewrite <- PS.
        now destruct (author m =? u).
Qed.

Lemma process_page_app oneYearAgo a b :
  all_since oneYearAgo a = true ->
  forall found w,
    process_page oneYearAgo (a ++ b) found w
    = let '(_, found', w') := process_page oneYearAgo a found w in
      process_page oneYearAgo b found' w'.
Proof.
  induction a as [|m rest IH]; intros A found w; [reflexivity|].
  simpl in A. apply andb_prop in A as [Am A].
  cbn [process_page app].
  destruct (Z.ltb_spec (createdAt m) oneYearAgo) as [Old|_];
    [apply Z.leb_le in Am; lia|].
  unfold bind at 1 3.
  destruct (parseWordleScore (content m) w) as [[s|] w1]; [|now apply IH].
  unfold bind. destruct (store_score m s w1) as [[] w2]. now apply IH.
Qed.

(** The loop stops at the first message from before [oneYearAgo]: what
    it has done by then is what it does on the messages in front of
    that one. *)
Lemma process_page_stops oneYearAgo pre m post :
  all_since oneYearAgo pre = true -> createdAt m < oneYearAgo ->
  forall found w,
    process_page oneYearAgo (pre ++ m :: post) found w
    = let '(_, found', w') := process_page oneYearAgo pre found w in
      (true, found', w').
Proof.
  intros A Old found w. rewrite (process_page_app _ _ _ A).
  destruct (process_page oneYearAgo pre found w) as [[r found'] w'].
  cbn [process_page]. apply Z.ltb_lt in Old. now rewrite Old.
Qed.

End PageFacts.

(** ** The crawl over a history *)

Section HistoryFacts.
Context `{Host}.

Lemma newest_first_tail m rest :
  newest_first (m :: rest) = true -> newest_first rest = true.
Proof.
  simpl. destruct rest as [|m' rest']; [reflexivity|].
  intros E. now apply andb_prop in E as [_ E].
Qed.

Lemma newest_first_head m rest :
  newest_first (m :: rest) = true -> Forall (fun m' => id m' < id m) rest.
Proof.
  revert m. induction rest as [|m' rest IH]; intros m E; [constructor|].
  simpl in E. apply andb_prop in E as [L E]. apply Z.ltb_lt in L.
  constructor; [exact L|].
  eapply Forall_impl; [|exact (IH m' E)]. simpl. intros; lia.
Qed.

Lemma filter_keeps_all {A} (f : A -> bool) l :
  Forall (fun x => f x = true) l -> filter f l = l.
Proof. induction 1 as [|x l E F IH]; simpl; [reflexivity|]. now rewrite E, IH. Qed.

(** With the id of a message as the cursor, the platform answers with
    the messages that come after it in the history. *)
Lemma filter_older_last pre x post :
  newest_first (pre ++ x :: post) = true ->
  filter (older_than (Some (id x))) (pre ++ x :: post) = post.
Proof.
  induction pre as [|y pre IH]; intros N.
  - cbn [app filter older_than]. rewrite Z.ltb_irrefl.
    apply filter_keeps_all. apply newest_first_head in N.
    eapply Forall_impl; [|exact N]. intros m L. now apply Z.ltb_lt.
  - cbn [app filter older_than].
    pose proof (newest_first_head _ _ N) as F.
    apply Forall_forall with (x := x) in F; [|apply in_elt].
    destruct (Z.ltb_spec (id y) (id x)); [lia|].
    apply IH. exact (newest_first_tail _ _ N).
Qed.

Lemma all_since_app h a b :
  all_since h (a ++ b) = true -> all_since h a = true /\ all_since h b = true.
Proof. unfold all_since. rewrite forallb_app. apply andb_prop. Qed.

(** The loop, started anywhere in a history that is newest first and
    recent enough, with the cursor on the messages still to come: it
    ends after the last page, and what it does to the state is what
    the loop over one page does on all the messages still to come. *)
Lemma crawl_loop_history oneYearAgo history :
  newest_first history = true ->
  forall fuel done remaining calls lastId processed found w,
    history = done ++ remaining ->
    filter (older_than lastId) history = remaining ->
    all_since oneYearAgo remaining = true ->
    (List.length remaining / 100 < fuel)%nat ->
    crawl_loop fuel (history_channel history) oneYearAgo calls lastId processed found w
    = let '(_, found', w') := process_page oneYearAgo remaining found w in
      (Some {| ending := Finished;
               messagesProcessed := processed + Z.of_nat (List.length remaining);
               scoresFound := found' |}, w').
Proof.
  intros N. induction fuel as [|fuel IH];
    intros done remaining calls lastId processed found w Hh Hf A Hfuel; [lia|].
  cbn [crawl_loop history_channel messages_fetch history_fetch limit before].
  rewrite Hf. change (Z.to_nat batchSize) with 100%nat.
  destruct remaining as [|m0 rest] eqn:Er.
  { simpl. unfold ret. now rewrite Z.add_0_r. }
  rewrite <- Er in *.
  assert (Epage : firstn 100 remaining = m0 :: firstn 99 rest) by now rewrite Er.
  rewrite Epage. rewrite <- Epage.
  set (page := firstn 100 remaining) in *.
  set (later := skipn 100 remaining).
  assert (Split : remaining = page ++ later) by (symmetry; apply firstn_skipn).
  destruct (all_since_app oneYearAgo page later) as [Ap Al]; [now rewrite <- Split|].
  replace (process_page oneYearAgo remaining found w)
    with (process_page oneYearAgo (page ++ later) found w) by now rewrite <- Split.
  rewrite (process_page_app _ _ _ Ap).
  unfold bind at 1.
  destruct (process_page_all _ _ Ap found w) as (w1 & E1 & _). rewrite E1.
  assert (Lp : List.length page = Nat.min 100 (List.length remaining))
    by apply length_firstn.
  assert (Ll : List.length later = (List.length remaining - 100)%nat)
    by apply length_skipn.
  destruct (Z.ltb_spec (Z.of_nat (List.length page)) batchSize) as [Short|Full].
  - unfold batchSize in Short.
    assert (later = []) by (apply length_zero_iff_nil; lia). subst later.
    rewrite H0 in *. rewrite app_nil_r in Split. rewrite <- Split.
    cbn [process_page]. reflexivity.
  - unfold batchSize in Full.
    assert (Np : page <> []) by (rewrite Epage; discriminate).
    pose proof (app_removelast_last m0 Np) as Last.
    rewrite (IH (done ++ page) later).
    + destruct (process_page oneYearAgo later (found + results_in page) w1)
        as [[r found'] w'].
      pose proof (f_equal (@List.length _) Split) as Len.
      rewrite length_app in Len.
      rewrite Len, Nat2Z.inj_add, Z.add_assoc. reflexivity.
    + rewrite Hh, Split. now rewrite app_assoc.
    + assert (Eh : history = (done ++ removelast page) ++ last page m0 :: later).
      { rewrite <- app_assoc. change (last page m0 :: later) with ([last page m0] ++ later).
        rewrite (app_assoc (removelast page)), <- Last, <- Split. exact Hh. }
      rewrite Eh. apply filter_older_last. rewrite <- Eh. exact N.
    + exact Al.
    + assert (100 <= List.length remaining)%nat by lia.
      assert (E : (List.length remaining = List.length later + 1 * 100)%nat) by lia.
      rewrite E, Nat.div_add in Hfuel by lia. lia.
Qed.

End HistoryFacts.

(** ** The command *)

Section CommandFacts.
Context `{Host}.

Lemma start_of_period_unknown periodChoice startDate :
  ~ In periodChoice known_periods ->
  start_of_period periodChoice startDate = startDate.
Proof.
  intros N. unfold start_of_period.
  repeat match goal with
         | |- context [jsstring_eqb periodChoice ?k] =>
             let E := fresh "E" in
             destruct (jsstring_eqb periodChoice k) eqn:E;
             [apply jsstring_eqb_eq in E; exfalso; apply N; subst; simpl; tauto|]
         end.
  reflexivity.
Qed.

End CommandFacts.

(** ** One more turn of the crawl *)

Section CrawlFacts.
Context `{Host}.

(** When the page that comes back holds a message from before
    [oneYearAgo], the crawl ends in this turn of the loop, with the
    state in which the messages in front of that one left it. *)
Lemma crawl_loop_stops fuel ch oneYearAgo calls lastId processed found w pre m post :
  messages_fetch ch calls {| limit := batchSize; before := lastId |}
  = Some (pre ++ m :: post) ->
  all_since oneYearAgo pre = true -> createdAt m < oneYearAgo ->
  crawl_loop (S fuel) ch oneYearAgo calls lastId processed found w
  = let '(_, found', w') := process_page oneYearAgo pre found w in
    (Some {| ending := ReachedOldMessages;
             messagesProcessed := processed + Z.of_nat (List.length (pre ++ m :: post));
             scoresFound := found' |}, w').
Proof.
  intros F A Old. cbn [crawl_loop]. rewrite F.
  destruct (pre ++ m :: post) as [|m0 rest] eqn:E; [now destruct pre|].
  rewrite <- E. unfold bind. rewrite (process_page_stops _ _ _ _ A Old).
  now destruct (process_page oneYearAgo pre found w) as [[r found'] w'].
Qed.

End CrawlFacts.

(* ================================================================== *)
(** * Part V: the properties of the program *)
(* ================================================================== *)

(** ** The parser *)

(** C1, as stated, does not hold: the parser reads the clock.  On the
    sample host, parsing "Wordle 500 X/6" moves the count of clock
    reads, and parsing the same text a second time yields a record
    that differs from the first one (in its timestamp). *)
Lemma parse_reads_the_clock :
  let text := str "Wordle 500 X/6" in
  let first := @parseWordleScore utc_host text start_world in
  let second := @parseWordleScore utc_host text (snd first) in
  clock_reads (snd first) <> clock_reads start_world
  /\ fst first <> fst second.
Proof. vm_compute. split; discriminate. Qed.

(** C1, amended: the one effect of the parser is a read of the clock
    on a successful match, which becomes the timestamp of the record;
    the store is left alone.  Whether there is a record, and all its
    other fields, depend on the text only: on any two hosts and in any
    two states, the records parsed from one text are equal once the
    same timestamp [t] has been put in place. *)
Theorem parse_deterministic_up_to_clock (h1 h2 : Host) content w1 w2 t :
  option_map (fun s => with_timestamp s t) (fst (@parseWordleScore h1 content w1))
  = option_map (fun s => with_timestamp s t) (fst (@parseWordleScore h2 content w2))
  /\ userScores (snd (@parseWordleScore h1 content w1)) = userScores w1
  /\ match fst (@parseWordleScore h1 content w1) with
     | Some r =>
         timestamp r = @clock h1 (clock_reads w1)
         /\ snd (@parseWordleScore h1 content w1) = tick w1
     | None => snd (@parseWordleScore h1 content w1) = w1
     end.
Proof.
  rewrite !parseWordleScore_unfold.
  repeat match goal with
         | |- context [match ?x with _ => _ end] => destruct x; simpl; auto
         end.
Qed.

(** C5: "Wordle 500 X/6" parses to puzzle 500, score 7, 6 attempts at
    most, not in hard mode; and on every text with a match, the result
    token X or x (code units 88 and 120) gives the score 7, and a digit
    from 1 to 6 (code units 49 to 54) gives its own value. *)
Theorem parse_failed_attempt `{Host} :
  (forall w,
      parseWordleScore (str "Wordle 500 X/6") w
      = (Some {| wordleNumber := Num 500; score := Num 7; maxAttempts := Num 6;
                 hardMode := false; timestamp := clock (clock_reads w) |},
         tick w))
  /\ (forall content w,
        match fst (parseWordleScore content w) with
        | None => match_WORDLE_REGEX content = None
        | Some r =>
            exists whole g1 token g3 g4,
              match_WORDLE_REGEX content
              = Some [Some whole; Some g1; Some [token]; Some g3; Some g4]
              /\ ((token = 88 \/ token = 120) /\ score r = Num 7
                  \/ 49 <= token <= 54 /\ score r = Num (token - 48))
        end).
Proof.
  split.
  - intros w. rewrite parseWordleScore_unfold.
    assert (M : match_WORDLE_REGEX (str "Wordle 500 X/6")
                = Some [Some (str "Wordle 500 X/6"); Some (str "500");
                        Some (str "X"); Some (str "6"); Some (str "")])
      by (vm_compute; reflexivity).
    rewrite M. reflexivity.
  - intros content w.
    destruct (parseWordleScore_cases content w)
      as [[M ->] | (whole & g1 & g2 & g3 & g4 & M & _ & A2 & _ & _ & ->)];
      [exact M|].
    apply accepts_result in A2 as (ch & -> & R).
    exists whole, g1, ch, g3, g4. split; [exact M|].
    cbn [fst]. rewrite (score_of_token _ _ _ _ _ R).
    destruct (Z.eqb_spec ch 88); destruct (Z.eqb_spec ch 120); simpl;
      [left | left | left | right]; split; auto; lia.
Qed.

(** C6: "Wordle 1,234 3/6*" parses to puzzle 1234, score 3, 6 attempts
    at most, in hard mode; and on every text with a match, the first
    group is made of digits with at most one comma among them, and the
    puzzle number is what [parseInt] makes of the digits without the
    comma: the Number value of their decimal value, which is that
    value itself when it is below 2^53, as in the example, and the
    nearest double or the infinity beyond. *)
Theorem parse_thousands_separator `{Host} :
  (forall w,
      parseWordleScore (str "Wordle 1,234 3/6*") w
      = (Some {| wordleNumber := Num 1234; score := Num 3; maxAttempts := Num 6;
                 hardMode := true; timestamp := clock (clock_reads w) |},
         tick w))
  /\ (forall content w,
        match fst (parseWordleScore content w) with
        | None => match_WORDLE_REGEX content = None
        | Some r =>
            exists whole g2 g3 g4 ds1 sep ds2,
              match_WORDLE_REGEX content
              = Some [Some whole; Some (ds1 ++ sep ++ ds2); Some g2; Some g3; Some g4]
              /\ (sep = [] \/ sep = str ",")
              /\ ds1 <> []
              /\ forallb is_digit (ds1 ++ ds2) = true
              /\ wordleNumber r = number_of_integer (decimal (ds1 ++ ds2))
        end).
Proof.
  split.
  - intros w. rewrite parseWordleScore_unfold.
    assert (M : match_WORDLE_REGEX (str "Wordle 1,234 3/6*")
                = Some [Some (str "Wordle 1,234 3/6*"); Some (str "1,234");
                        Some (str "3"); Some (str "6"); Some (str "*")])
      by (vm_compute; reflexivity).
    rewrite M. reflexivity.
  - intros content w.
    destruct (parseWordleScore_cases content w)
      as [[M ->] | (whole & g1 & g2 & g3 & g4 & M & A1 & _ & _ & _ & ->)];
      [exact M|].
    apply accepts_number in A1 as (ds1 & sep & ds2 & -> & N1 & D1 & S & D2).
    exists whole, g2, g3, g4, ds1, sep, ds2.
    assert (D : forallb is_digit (ds1 ++ ds2) = true)
      by (rewrite forallb_app, D1, D2; reflexivity).
    split; [exact M|]. split; [exact S|]. split; [exact N1|]. split; [exact D|].
    unfold record_of_groups. cbn [fst wordleNumber].
    etransitivity;
      [apply (f_equal parseInt); exact (remove_commas_number _ _ _ D1 S D2)|].
    apply parseInt_digits; [|exact D].
    destruct ds1; [congruence | discriminate].
Qed.

(** C10: the pattern may stand anywhere in the text.  If a word [w] is
    in the language of the pattern, then every text that holds [w],
    whatever stands before and after it, parses to a record. *)
Theorem parse_matches_anywhere `{Host} (pre w post : jsstring) (st : world) :
  RegExp.accepts true WORDLE_REGEX w ->
  exists r, fst (parseWordleScore (pre ++ w ++ post) st) = Some r.
Proof.
  intros Acc.
  destruct (parseWordleScore_cases (pre ++ w ++ post) st)
    as [[M _] | (whole & g1 & g2 & g3 & g4 & _ & _ & _ & _ & _ & ->)];
    [|simpl; eauto].
  exfalso. revert M. unfold match_WORDLE_REGEX.
  now apply RegExpFacts.exec_complete.
Qed.

(** ** The two producers *)

Section ProducerFacts.
Context `{Host}.

Lemma parses_to_stored m s :
  parses_to m s -> stored_record m = Some (with_timestamp s (createdAt m)).
Proof.
  intros (w & w' & E). rewrite <- (parse_stored m w), E. reflexivity.
Qed.

End ProducerFacts.

(** C7: on both paths the record that goes into the store carries the
    creation time of its message, whatever the clock showed when the
    text was parsed.  A live message lets the arrays grow by records of
    that message only; a crawl lets them grow by records of messages
    that the channel handed out; each such record is the one read off
    the text of its message, filed under the author of the message,
    with the creation time of the message as its timestamp. *)
Theorem stored_timestamp_is_creation_time `{Host} :
  (forall m w,
      grows_by (fun u r => author m = u /\ stored_record m = Some r
                           /\ timestamp r = createdAt m)
               w (snd (messageCreate m w)))
  /\ (forall fuel guilds w,
        grows_by (fun u r =>
                    exists g rest ch m,
                      guilds = g :: rest /\ find_channel g = Some ch
                      /\ fetched ch m
                      /\ author m = u /\ stored_record m = Some r
                      /\ timestamp r = createdAt m)
                 w (snd (fetchHistoricalMessages fuel guilds w))).
Proof.
  split.
  - intros m w.
    apply (messageCreate_preserves
             (grows_by (fun u r => author m = u /\ stored_record m = Some r
                                   /\ timestamp r = createdAt m) w)
             (fun m' s => m' = m /\ parses_to m s)).
    + intros w0. apply grows_by_tick.
    + intros m' s w0 [-> P]. apply grows_by_store.
      split; [reflexivity|]. split; [now apply parses_to_stored | reflexivity].
    + auto.
    + apply grows_by_refl.
  - intros fuel guilds w.
    apply (fetchHistoricalMessages_preserves
             (grows_by (fun u r =>
                          exists g rest ch m,
                            guilds = g :: rest /\ find_channel g = Some ch
                            /\ fetched ch m
                            /\ author m = u /\ stored_record m = Some r
                            /\ timestamp r = createdAt m) w)
             (fun m s => (exists g rest ch, guilds = g :: rest
                                            /\ find_channel g = Some ch
                                            /\ fetched ch m)
                         /\ parses_to m s)).
    + intros w0. apply grows_by_tick.
    + intros m s w0 [(g & rest & ch & Eg & Ec & F) P]. apply grows_by_store.
      exists g, rest, ch, m. repeat split; auto. now apply parses_to_stored.
    + intros g rest ch m s Eg Ec F _ P. split; [|exact P]. now exists g, rest, ch.
    + apply grows_by_refl.
Qed.

(** C2: a crawl lets the arrays grow only by records that are not
    older than the horizon, which is the reading of the clock at the
    start of the crawl set back by one year.  And when a page holds a
    message [m] from before the horizon, behind messages [pre] that are
    not, the crawl ends in that turn of the loop: the page counts as
    scanned, the results counted and the records stored are those of
    [pre], and neither [m] nor anything behind it is looked at. *)
Theorem backfill_respects_horizon `{Host} fuel guilds w :
  let horizon := one_year_before (clock (clock_reads w)) in
  grows_by (fun _ r => horizon <= timestamp r)
           w (snd (fetchHistoricalMessages fuel guilds w))
  /\ forall ch calls lastId processed found w1 pre m post,
      messages_fetch ch calls {| limit := batchSize; before := lastId |}
      = Some (pre ++ m :: post) ->
      all_since horizon pre = true ->
      createdAt m < horizon ->
      exists w',
        crawl_loop (S fuel) ch horizon calls lastId processed found w1
        = (Some {| ending := ReachedOldMessages;
                   messagesProcessed :=
                     processed + Z.of_nat (List.length (pre ++ m :: post));
                   scoresFound := found + results_in pre |}, w')
        /\ forall u, records_of (userScores w') u
                     = records_of (userScores w1) u ++ records_from u pre.
Proof.
  intros horizon. split.
  - apply (fetchHistoricalMessages_preserves
             (grows_by (fun _ r => horizon <= timestamp r) w)
             (fun m _ => horizon <= createdAt m)).
    + intros w0. apply grows_by_tick.
    + intros m s w0 Hm. now apply grows_by_store.
    + intros g rest ch m s _ _ _ Hm _. exact Hm.
    + apply grows_by_refl.
  - intros ch calls lastId processed found w1 pre m post F A Old.
    rewrite (crawl_loop_stops _ _ _ _ _ _ _ _ _ _ _ F A Old).
    destruct (process_page_all _ _ A found w1) as (w' & -> & R).
    exists w'. split; [reflexivity | exact R].
Qed.

(** C4: on a channel whose history is finite, newest first and not
    older than the horizon, the crawl comes to its end as soon as the
    fuel exceeds the number of full pages of 100.  It ends as finished,
    it has scanned as many messages as the history holds, it has
    counted the messages of the history that hold a result, and every
    user's array has grown by the records of that user's messages in
    the history, one for each, in the order of the history. *)
Theorem backfill_visits_history_once `{Host} history fuel w :
  let horizon := one_year_before (clock (clock_reads w)) in
  newest_first history = true ->
  all_since horizon history = true ->
  (List.length history / 100 < fuel)%nat ->
  exists w',
    fetchHistoricalMessages fuel [[history_channel history]] w
    = (Some {| ending := Finished;
               messagesProcessed := Z.of_nat (List.length history);
               scoresFound := results_in history |}, w')
    /\ forall u, records_of (userScores w') u
                 = records_of (userScores w) u ++ records_from u history.
Proof.
  intros horizon N A F. unfold fetchHistoricalMessages.
  assert (C : find_channel [history_channel history] = Some (history_channel history)).
  { reflexivity. }
  rewrite C. unfold bind, new_Date. fold horizon.
  rewrite (crawl_loop_history horizon history N fuel [] history); auto.
  - change {| userScores := userScores w; clock_reads := S (clock_reads w) |}
      with (tick w).
    destruct (process_page_all _ _ A 0 (tick w)) as (w' & -> & R).
    exists w'. split; [reflexivity | exact R].
  - apply filter_keeps_all. apply Forall_forall. reflexivity.
Qed.

(** ** The statistics *)

Section RankingFacts.

Lemma average_le_trans a b c : average_le a b -> average_le b c -> average_le a c.
Proof.
  unfold average_le.
  destruct (averageScore a), (averageScore b), (averageScore c); try tauto. lia.
Qed.

Lemma by_average_after a b :
  (exists x, averageScore a = Num x) -> (exists y, averageScore b = Num y) ->
  JSArray.after by_average a b = true -> average_le b a.
Proof.
  intros (x & Ea) (y & Eb). unfold JSArray.after, by_average, average_le.
  rewrite Ea, Eb. intros L. apply Z.ltb_lt in L. lia.
Qed.

Lemma by_average_not_after a b :
  (exists x, averageScore a = Num x) -> (exists y, averageScore b = Num y) ->
  JSArray.after by_average a b = false -> average_le a b.
Proof.
  intros (x & Ea) (y & Eb). unfold JSArray.after, by_average, average_le.
  rewrite Ea, Eb. intros L. apply Z.ltb_ge in L. lia.
Qed.

(** An entry of the statistics comes from an entry of the map. *)
Lemma calculateStats_In scores startDate endDate st :
  In st (calculateStats scores startDate endDate) ->
  exists u arr, In (u, arr) scores /\ user_stat startDate endDate (u, arr) = Some st.
Proof.
  unfold calculateStats. rewrite JSArrayFacts.sort_In, collect_stats_In.
  intros ([u arr] & I & U). eauto.
Qed.

Lemma store_ok_entry scores u arr :
  store_ok scores -> In (u, arr) scores ->
  records_of scores u = arr
  /\ forall r, In r arr -> exists v, score r = Num v /\ 1 <= v <= 7.
Proof.
  intros [ND R] I.
  assert (E : records_of scores u = arr)
    by (unfold records_of; now rewrite (JSMapFacts.In_get _ _ _ ND I)).
  split; [exact E|]. intros r Ir. apply (R u). now rewrite E.
Qed.

End RankingFacts.

(** C3: in every state of the process and for every window, each entry
    of the statistics counts as its games the stored records of its
    user whose timestamp lies in the window, both ends included, and
    its seven counters add up to that number. *)
Theorem stats_counts_games `{Host} w startDate endDate st :
  reachable w ->
  In st (calculateStats (userScores w) startDate endDate) ->
  totalGames st
  = Z.of_nat (List.length
                (filter (fun r => (startDate <=? timestamp r) && (timestamp r <=? endDate))
                        (records_of (userScores w) (userId st))))
  /\ d1 (distribution st) + d2 (distribution st) + d3 (distribution st)
     + d4 (distribution st) + d5 (distribution st) + d6 (distribution st)
     + dX (distribution st)
     = totalGames st.
Proof.
  intros R I. apply reachable_store_ok in R.
  apply calculateStats_In in I as (u & arr & I & U).
  destruct (store_ok_entry _ _ _ R I) as [E _].
  apply user_stat_spec in U as (Eu & Et & Eb & _).
  rewrite Eu, E. split; [exact Et | exact Eb].
Qed.

(** C8: in every state of the process and for every window, the
    statistics come out in the order of their averages, the lowest
    first: every entry has a number as its average, and no entry has a
    larger average than an entry behind it. *)
Theorem stats_sorted_by_average `{Host} w startDate endDate :
  reachable w ->
  StronglySorted average_le (calculateStats (userScores w) startDate endDate).
Proof.
  intros R. apply reachable_store_ok in R. unfold calculateStats.
  apply (JSArrayFacts.sort_sorted by_average average_le
           (fun st => exists a, averageScore st = Num a)).
  - apply average_le_trans.
  - apply by_average_after.
  - apply by_average_not_after.
  - apply Forall_forall. intros st I.
    apply collect_stats_In in I as ([u arr] & I & U).
    destruct (store_ok_entry _ _ _ R I) as [_ S].
    eapply user_stat_average; [|exact U].
    intros r Ir. destruct (S r Ir) as (v & E & _). eauto.
Qed.

(** ** The command *)

(** C9: a period selector that is none of the five known ones leaves
    the window as it was set up: the switch changes nothing of the
    start date, so the window runs from the first reading of the clock
    to the second one, with no offset taken off and no move to
    midnight. *)
Theorem unknown_period_keeps_now `{Host} periodChoice w :
  ~ In periodChoice known_periods ->
  (forall startDate, start_of_period periodChoice startDate = startDate)
  /\ fst (stats_window periodChoice w)
     = (clock (clock_reads w), clock (S (clock_reads w))).
Proof.
  intros N. split; [intros; now apply start_of_period_unknown|].
  unfold stats_window, bind, new_Date, ret. simpl.
  now rewrite start_of_period_unknown.
Qed.

(* ================================================================== *)
(** * Part VI: the properties at work on the sample data *)
(* ================================================================== *)

Lemma sample_world_reachable : @reachable utc_host sample_world.
Proof.
  unfold sample_world. cbn [sample_history rev app fold_left].
  repeat apply reach_message. apply reach_start.
Qed.

(** C10 on a message with text around the result. *)
Lemma parse_matches_anywhere_witness :
  RegExp.accepts true WORDLE_REGEX (str "Wordle 500 X/6")
  /\ exists r,
      fst (@parseWordleScore utc_host
             (str "today: " ++ str "Wordle 500 X/6" ++ str " (ouch)") start_world)
      = Some r.
Proof.
  assert (A : RegExp.accepts true WORDLE_REGEX (str "Wordle 500 X/6"))
    by (apply RegExpFacts.full_match_accepts; vm_compute; reflexivity).
  split; [exact A|].
  exact (@parse_matches_anywhere utc_host (str "today: ") (str "Wordle 500 X/6")
           (str " (ouch)") start_world A).
Defined.

(** C2 on the three aged messages: the first one is stored, the crawl
    ends at the second one. *)
Lemma backfill_respects_horizon_witness :
  let horizon := @one_year_before utc_host (@clock utc_host 0) in
  let ch := history_channel aged_history in
  messages_fetch ch 0 {| limit := batchSize; before := None |}
  = Some ([aged_new] ++ aged_old :: [aged_older])
  /\ all_since horizon [aged_new] = true
  /\ createdAt aged_old < horizon
  /\ exists w',
      @crawl_loop utc_host 1 ch horizon 0 None 0 0 (tick start_world)
      = (Some {| ending := ReachedOldMessages;
                 messagesProcessed := 0 + Z.of_nat (List.length ([aged_new] ++ aged_old :: [aged_older]));
                 scoresFound := 0 + results_in [aged_new] |}, w')
      /\ forall u, records_of (userScores w') u
                   = records_of (userScores (tick start_world)) u
                     ++ records_from u [aged_new].
Proof.
  intros horizon ch.
  assert (F : messages_fetch ch 0 {| limit := batchSize; before := None |}
              = Some ([aged_new] ++ aged_old :: [aged_older]))
    by (vm_compute; reflexivity).
  assert (A : all_since horizon [aged_new] = true) by (vm_compute; reflexivity).
  assert (Old : createdAt aged_old < horizon) by (vm_compute; reflexivity).
  split; [exact F|]. split; [exact A|]. split; [exact Old|].
  exact (proj2 (@backfill_respects_horizon utc_host 0 [[ch]] start_world)
               ch 0%nat None 0 0 (tick start_world) [aged_new] aged_old [aged_older]
               F A Old).
Defined.

(** C4 on a history of 250 messages, which takes three pages. *)
Lemma backfill_visits_history_once_witness :
  let history := long_history 250 1699990000000 in
  let horizon := @one_year_before utc_host (@clock utc_host 0) in
  newest_first history = true
  /\ all_since horizon history = true
  /\ (List.length history / 100 < 3)%nat
  /\ exists w',
      @fetchHistoricalMessages utc_host 3 [[history_channel history]] start_world
      = (Some {| ending := Finished;
                 messagesProcessed := Z.of_nat (List.length history);
                 scoresFound := results_in history |}, w')
      /\ forall u, records_of (userScores w') u
                   = records_of (userScores start_world) u ++ records_from u history.
Proof.
  intros history horizon.
  assert (N : newest_first history = true) by (vm_compute; reflexivity).
  assert (A : all_since horizon history = true) by (vm_compute; reflexivity).
  assert (F : (List.length history / 100 < 3)%nat)
    by (apply Nat.ltb_lt; vm_compute; reflexivity).
  split; [exact N|]. split; [exact A|]. split; [exact F|].
  exact (@backfill_visits_history_once utc_host history 3%nat start_world N A F).
Defined.

(** C3 on the sample state: the entry of user 11. *)
Lemma stats_counts_games_witness :
  let st := {| userId := 11; totalGames := 2; averageScore := Num 400;
               distribution := {| d1 := 0; d2 := 0; d3 := 1; d4 := 0;
                                  d5 := 1; d6 := 0; dX := 0 |} |} in
  @reachable utc_host sample_world
  /\ In st (calculateStats (userScores sample_world) 1699900000000 1699990000000)
  /\ totalGames st
     = Z.of_nat (List.length
                   (filter (fun r => (1699900000000 <=? timestamp r)
                                     && (timestamp r <=? 1699990000000))
                           (records_of (userScores sample_world) (userId st))))
  /\ d1 (distribution st) + d2 (distribution st) + d3 (distribution st)
     + d4 (distribution st) + d5 (distribution st) + d6 (distribution st)
     + dX (distribution st)
     = totalGames st.
Proof.
  intros st.
  assert (I : In st (calculateStats (userScores sample_world) 1699900000000 1699990000000))
    by (vm_compute; auto).
  split; [exact sample_world_reachable|]. split; [exact I|].
  exact (@stats_counts_games utc_host sample_world 1699900000000 1699990000000 st
           sample_world_reachable I).
Defined.

(** C8 on the sample state. *)
Lemma stats_sorted_by_average_witness :
  @reachable utc_host sample_world
  /\ StronglySorted average_le
       (calculateStats (userScores sample_world) 0 1800000000000).
Proof.
  split; [exact sample_world_reachable|].
  exact (@stats_sorted_by_average utc_host sample_world 0 1800000000000
           sample_world_reachable).
Defined.

(** C9 on a selector that the command does not offer. *)
Lemma unknown_period_keeps_now_witness :
  ~ In (str "decade") known_periods
  /\ (forall startDate, @start_of_period utc_host (str "decade") startDate = startDate)
  /\ fst (@stats_window utc_host (str "decade") sample_world)
     = (@clock utc_host (clock_reads sample_world),
        @clock utc_host (S (clock_reads sample_world))).
Proof.
  assert (N : ~ In (str "decade") known_periods)
    by (simpl; intros I; repeat destruct I as [I|I]; discriminate || contradiction).
  split; [exact N|].
  exact (@unknown_period_keeps_now utc_host (str "decade") sample_world N).
Defined.

(** ** Checks of the runtime *)

(** ** Checks of the runtime *)

Lemma DayFromYear_bounds y :
  146097 * (y - 1970) - 800 <= 400 * JSDate.DayFromYear y
  <= 146097 * (y - 1970) + 800.
Proof. unfold JSDate.DayFromYear. Z.to_euclidean_division_equations. lia. Qed.

(** [YearFromTime t] is the year that the day of [t] falls in. *)
Lemma YearFromTime_spec t :
  JSDate.DayFromYear (JSDate.YearFromTime t) <= JSDate.Day t
  < JSDate.DayFromYear (JSDate.YearFromTime t + 1).
Proof.
  unfold JSDate.YearFromTime.
  set (d := JSDate.Day t). set (y := 1970 + d * 400 / 146097).
  assert (Hy : 146097 * (y - 1970) <= 400 * d < 146097 * (y - 1970) + 146097)
    by (unfold y; Z.to_euclidean_division_equations; lia).
  pose proof (DayFromYear_bounds (y - 1)) as B0.
  pose proof (DayFromYear_bounds (y + 2)) as B2.
  replace (y + 2) with (y + 1 + 1) in B2 by lia.
  destruct (Z.leb_spec (JSDate.DayFromYear (y + 1)) d); [lia|].
  destruct (Z.leb_spec (JSDate.DayFromYear y) d); [lia|].
  replace (y - 1 + 1) with y by lia. lia.
Qed.

(** 2024-02-29T12:00Z set back by a year is 2023-03-01T12:00Z. *)
Example one_year_before_leap_day :
  @one_year_before utc_host 1709208000000 = 1677672000000.
Proof. vm_compute. reflexivity. Qed.

(** 2024-03-31T00:00Z with the month set back by one is 2024-03-02:
    February has no 31st. *)
Example setMonth_overflow :
  @JSDate.setMonth utc_host 1711843200000 (@JSDate.getMonth utc_host 1711843200000 - 1)
  = 1709337600000.
Proof. vm_compute. reflexivity. Qed.

Example window_six_months :
  fst (@stats_window utc_host (str "six_months") start_world)
  = (1684022400000, 1700000000001).
Proof. vm_compute. reflexivity. Qed.

Example parseInt_samples :
  map parseInt [str "  -0x1F"; str "0123abc"; str "X"; str "+7"; str ""]
  = [Num (-31); Num 123; NaN; Num 7; NaN].
Proof. vm_compute. reflexivity. Qed.

(** Digit strings beyond 2^53: the nearest double, ties to even, and
    the infinity for a string of four hundred digits. *)
Example parseInt_rounds :
  map parseInt [str "9007199254740992"; str "9007199254740993";
                str "9007199254740994"; str "9007199254740995";
                str "18014398509481985"; str "-9007199254740993";
                repeat 57 400]
  = [Num 9007199254740992; Num 9007199254740992;
     Num 9007199254740994; Num 9007199254740996;
     Num 18014398509481984; Num (-9007199254740992);
     Infinity false].
Proof. vm_compute. reflexivity. Qed.

(** The Number value of an integer agrees with the reference rounding
    to binary64: around 0, around the powers of two from 2^53 to 2^60
    and around 2^1000, at powers of ten, and on both sides of the
    threshold 2^1024 - 2^970 from which on the result is infinite. *)
Example number_of_integer_agrees_with_reference :
  let agree n :=
    match number_of_integer n, Double.integer_reference n with
    | Num a, Num b => a =? b
    | Infinity s1, Infinity s2 => Bool.eqb s1 s2
    | _, _ => false
    end in
  let around c := map (fun i => c - 40 + Z.of_nat i) (seq 0 81) in
  let next_to c := map (fun i => c - 4 + Z.of_nat i) (seq 0 9) in
  let both l := forallb agree l && forallb (fun n => agree (- n)) l in
  both (around 0)
  && both (flat_map (fun k => around (2 ^ Z.of_nat k)) (seq 53 8))
  && both (map (fun i => 2 ^ 1000 + 2 ^ 946 * Z.of_nat i) (seq 0 17))
  && both (map (fun k => 10 ^ (20 * Z.of_nat k)) (seq 0 21))
  && both (map (fun k => 10 ^ (20 * Z.of_nat k) - 1) (seq 0 21))
  && both (next_to (2 ^ 1024 - 2 ^ 970))
  && both (next_to (2 ^ 1024 - 2 ^ 971))
  && both (next_to (2 ^ 1024))
  = true.
Proof. vm_compute. reflexivity. Qed.

(** The rounded quotient agrees with the reference division on
    binary64: for the totals up to 350 and the counts up to 50, for
    negative totals, and for operands next to 2^53. *)
Example div_Z_agrees_with_reference :
  let agree t n :=
    match Double.div_Z t n, Double.div_reference t n with
    | S754_zero _, S754_zero _ => true
    | S754_finite s1 m1 e1, S754_finite s2 m2 e2 =>
        Bool.eqb s1 s2 && (m1 =? m2)%positive && (e1 =? e2)
    | _, _ => false
    end in
  let grid f g a b :=
    forallb (fun i => forallb (fun j => agree (f (Z.of_nat i)) (g (Z.of_nat j)))
                              (seq 0 b))
            (seq 0 a) in
  grid (fun i => i) (fun j => j + 1) 351%nat 50%nat
  && grid (fun i => - i) (fun j => j + 1) 60%nat 30%nat
  && grid (fun i => 2 ^ 53 - 1 - i) (fun j => j + 1) 30%nat 30%nat
  && grid (fun i => i + 1) (fun j => 2 ^ 53 - 1 - j) 30%nat 30%nat
  && grid (fun i => 2 ^ 53 - 1 - i) (fun j => 2 ^ 53 - 1 - 7 * j) 30%nat 30%nat
  = true.
Proof. vm_compute. reflexivity. Qed.

Example toFixed2_samples :
  map (fun '(t, n) => Double.toFixed2 (Double.div_Z t n))
      [(13, 3); (201, 200); (9, 8); (-9, 8); (0, 5); (7, 1)]
  = [Num 433; Num 100; Num 113; Num (-113); Num 0; Num 700].
Proof. vm_compute. reflexivity. Qed.

(** ** Checks of the program *)

Example parse_no_result :
  fst (@parseWordleScore utc_host (str "just chatting, no wordle here") start_world)
  = None.
Proof. vm_compute. reflexivity. Qed.

Example parse_lower_case_in_text :
  fst (@parseWordleScore utc_host (str "my wordle   77 x/6 today") start_world)
  = Some {| wordleNumber := Num 77; score := Num 7; maxAttempts := Num 6;
            hardMode := false; timestamp := 1700000000000 |}.
Proof. vm_compute. reflexivity. Qed.

(** Three records of one user with the scores 2, 4 and 7: three games,
    an average of 4.33, one count each in the buckets 2, 4 and X. *)
Example stats_of_three_games :
  let rec s t := {| wordleNumber := Num 1; score := Num s; maxAttempts := Num 6;
                    hardMode := false; timestamp := t |} in
  calculateStats [(42, [rec 2 10; rec 4 20; rec 7 30])] 10 30
  = [{| userId := 42; totalGames := 3; averageScore := Num 433;
        distribution := {| d1 := 0; d2 := 1; d3 := 0; d4 := 1;
                           d5 := 0; d6 := 0; dX := 1 |} |}].
Proof. vm_compute. reflexivity. Qed.

Example stats_of_sample_world :
  map (fun st => (userId st, totalGames st, averageScore st))
      (calculateStats (userScores sample_world) 0 1800000000000)
  = [(13, 1, Num 200); (11, 2, Num 400); (12, 1, Num 700)].
Proof. vm_compute. reflexivity. Qed.

Example crawl_of_long_history :
  fst (@fetchHistoricalMessages utc_host 3
         [[history_channel (long_history 250 1699990000000)]] start_world)
  = Some {| ending := Finished; messagesProcessed := 250; scoresFound := 125 |}.
Proof. vm_compute. reflexivity. Qed.

Example crawl_out_of_fuel :
  fst (@fetchHistoricalMessages utc_host 2
         [[history_channel (long_history 250 1699990000000)]] start_world)
  = None.
Proof. vm_compute. reflexivity. Qed.

Example crawl_into_old_messages :
  fst (@fetchHistoricalMessages utc_host 9
         [[history_channel (long_history 250 1668470000000)]] start_world)
  = Some {| ending := ReachedOldMessages; messagesProcessed := 200; scoresFound := 51 |}.
Proof. vm_compute. reflexivity. Qed.

(* ================================================================== *)
(** * Part VII: further properties *)
(* ================================================================== *)

(** ** Where the match sits in the text *)

Section MatchPlace.
Import RegExp RegExpFacts.

(** A failed attempt at one start index means that no word of the
    pattern begins there. *)
Lemma match_at_none ic r n s :
  match_at ic r n s = None ->
  forall w rest, s = w ++ rest -> ~ accepts ic r w.
Proof.
  intros E w rest -> Acc. revert E. unfold match_at.
  apply run_complete; [exact Acc | discriminate].
Qed.

(** The search returns the match at the first start index that has one. *)
Lemma exec_leftmost ic r n :
  forall s m, exec ic r n s = Some m ->
  exists pre s0,
    s = pre ++ s0 /\ match_at ic r n s0 = Some m
    /\ forall p1 p2, pre = p1 ++ p2 -> p2 <> [] ->
                     match_at ic r n (p2 ++ s0) = None.
Proof.
  induction s as [|ch s IH]; simpl; intros m E.
  - destruct (match_at ic r n []) eqn:Em; [|discriminate]. inv E.
    exists [], []. repeat split; auto.
    intros p1 p2 E. destruct p1; destruct p2; try discriminate. congruence.
  - destruct (match_at ic r n (ch :: s)) eqn:Em.
    + inv E. exists [], (ch :: s). repeat split; auto.
      intros p1 p2 E. destruct p1; destruct p2; try discriminate. congruence.
    + destruct (IH _ E) as (pre & s0 & -> & M & L).
      exists (ch :: pre), s0. repeat split; auto.
      intros p1 p2 E2 N2. destruct p1 as [|x p1]; simpl in E2.
      * subst p2. exact Em.
      * inv E2. now apply L with (p1 := p1).
Qed.

Lemma run_seq_sound ic {A} r1 r2 s c (k : jsstring -> captures -> option A) x :
  run ic (RSeq r1 r2) s c k = Some x ->
  exists s1 c1, derives ic r1 s c s1 c1 /\ run ic r2 s1 c1 k = Some x.
Proof. simpl. apply run_sound. Qed.

Lemma matches_digit_eq ch : matches true CDigit ch = is_digit ch.
Proof.
  destruct (is_digit ch) eqn:E.
  - unfold matches. simpl. now rewrite E.
  - destruct (matches true CDigit ch) eqn:M; [|reflexivity].
    apply matches_digit in M. congruence.
Qed.

Lemma matches_star_eq ch : matches true (CLit 42) ch = (ch =? 42).
Proof.
  split_matches ch; try reflexivity; try lia;
    repeat match goal with
           | |- context [?a =? ?b] => destruct (Z.eqb_spec a b); try lia
           end; reflexivity.
Qed.

(** With a continuation that cannot fail, the greedy star takes every
    character it can. *)
Lemma star_greedy ic {A} cs (k : jsstring -> option A) :
  (forall s, k s <> None) ->
  forall s, exists taken rest,
    s = taken ++ rest
    /\ forallb (matches ic cs) taken = true
    /\ match rest with ch :: _ => matches ic cs ch = false | [] => True end
    /\ star ic cs s k = k rest.
Proof.
  intros K. induction s as [|ch s IH]; simpl.
  - exists [], []. auto.
  - destruct (matches ic cs ch) eqn:M.
    + destruct IH as (taken & rest & -> & F & N & E).
      exists (ch :: taken), rest. simpl. rewrite M, F, E.
      repeat split; auto. destruct (k rest) eqn:Ek; [reflexivity|].
      now apply K in Ek.
    + exists [], (ch :: s). simpl. auto.
Qed.

End MatchPlace.

Section MatchShape.
Import RegExp RegExpFacts.

Lemma accepts_star_forallb ic cs w :
  forallb (matches ic cs) w = true -> accepts ic (RStar cs) w.
Proof.
  induction w as [|ch w IH]; simpl; intros F; [constructor|].
  apply andb_prop in F as [M F]. constructor; auto.
Qed.

(** A match at a start index, piece by piece: the text from there on is
    [body], then the digits [g3] of group 3, then group 4, then [post];
    [body] is the keyword, blanks, group 1, blanks, group 2 and the
    slash.  Group 3 runs up to the first character that is no digit,
    and group 4 is the star that follows, if one does. *)
Lemma WORDLE_REGEX_match_at s0 m :
  match_at true WORDLE_REGEX 4 s0 = Some m ->
  exists body g1 g2 g3 g4 post,
    s0 = (body ++ g3 ++ g4) ++ post
    /\ m = [Some (body ++ g3 ++ g4); Some g1; Some g2; Some g3; Some g4]
    /\ accepts true WORDLE_REGEX (body ++ g3 ++ g4)
    /\ g3 <> [] /\ forallb is_digit g3 = true
    /\ (exists keyword blanks1 blanks2,
          body = keyword ++ blanks1 ++ g1 ++ blanks2 ++ g2 ++ [47]
          /\ accepts true (RLit (str "Wordle")) keyword
          /\ accepts true (RPlus CSpace) blanks1
          /\ accepts true (RPlus CSpace) blanks2)
    /\ accepts true number_pattern g1
    /\ accepts true result_pattern g2
    /\ (g4 = [42]
        \/ g4 = [] /\ match post with
                      | ch :: _ => is_digit ch = false /\ ch <> 42
                      | [] => True
                      end).
Proof.
  unfold match_at, WORDLE_REGEX. intros R.
  apply run_seq_sound in R as (s1 & c1 & D1 & R).
  apply run_seq_sound in R as (s2 & c2 & D2 & R).
  apply run_seq_sound in R as (s3 & c3 & D3 & R).
  apply run_seq_sound in R as (s4 & c4 & D4 & R).
  apply run_seq_sound in R as (s5 & c5 & D5 & R).
  apply run_seq_sound in R as (s6 & c6 & D6 & R).
  pose proof (derives_groupless _ _ _ _ _ _ D1 eq_refl) as ->.
  pose proof (derives_groupless _ _ _ _ _ _ D2 eq_refl) as ->.
  apply derives_group in D3 as (g1 & c0 & E3 & A3 & -> & D3).
  pose proof (derives_groupless _ _ _ _ _ _ D3 eq_refl) as ->.
  pose proof (derives_groupless _ _ _ _ _ _ D4 eq_refl) as ->.
  apply derives_group in D5 as (g2 & c0 & E5 & A5 & -> & D5).
  pose proof (derives_groupless _ _ _ _ _ _ D5 eq_refl) as ->.
  pose proof (derives_groupless _ _ _ _ _ _ D6 eq_refl) as ->.
  apply derives_accepts in D1 as (w1 & E1 & A1).
  apply derives_accepts in D2 as (w2 & E2 & A2).
  apply derives_accepts in D4 as (w4 & E4 & A4).
  apply derives_accepts in D6 as (w6 & E6 & A6).
  clear D3 D5.
  unfold max_pattern, hard_pattern, RPlus in R. cbn [run] in R.
  destruct s6 as [|d t]; [discriminate|].
  rewrite matches_digit_eq in R. destruct (is_digit d) eqn:Hd; [|discriminate].
  match type of R with
  | star _ _ _ ?K = _ =>
      destruct (star_greedy true CDigit K) with (s := t)
        as (taken & rest & Et & Ft & Nt & Es)
  end.
  { intros s. destruct s as [|ch s]; [discriminate|].
    destruct (matches true (CLit 42) ch); discriminate. }
  rewrite Es in R. clear Es.
  assert (Fd : forallb is_digit taken = true).
  { clear - Ft. induction taken as [|x l IH]; cbn [forallb] in *; [reflexivity|].
    rewrite matches_digit_eq in Ft. apply andb_prop in Ft as [-> Ft]. now apply IH. }
  assert (G3 : consumed (d :: t) rest = d :: taken)
    by (rewrite Et; apply (consumed_app (d :: taken))).
  rewrite G3 in R.
  set (body := w1 ++ w2 ++ g1 ++ w4 ++ g2 ++ w6).
  assert (S0 : s0 = body ++ (d :: taken) ++ rest).
  { unfold body. rewrite <- !app_assoc. rewrite E1, E2, E3, E4, E5, E6, Et.
    reflexivity. }
  assert (AG3 : accepts true (RSeq (RChar CDigit) (RStar CDigit)) (d :: taken)).
  { change (d :: taken) with ([d] ++ taken). constructor.
    - constructor. now rewrite matches_digit_eq.
    - now apply accepts_star_forallb. }
  assert (Whole : forall g4, accepts true (ROpt (CLit 42)) g4 ->
            accepts true WORDLE_REGEX (body ++ (d :: taken) ++ g4)).
  { intros g4 A4'. unfold body, WORDLE_REGEX. rewrite <- !app_assoc.
    do 6 (constructor; [first [assumption | constructor; assumption]|]).
    constructor; constructor; assumption. }
  assert (Front : exists keyword blanks1 blanks2,
             body = keyword ++ blanks1 ++ g1 ++ blanks2 ++ g2 ++ [47]
             /\ accepts true (RLit (str "Wordle")) keyword
             /\ accepts true (RPlus CSpace) blanks1
             /\ accepts true (RPlus CSpace) blanks2).
  { exists w1, w2, w4. split; [|split; [exact A1 | split; [exact A2 | exact A4]]].
    unfold body. do 5 f_equal. clear - A6. inv A6. f_equal.
    match goal with M : matches _ _ _ = true |- _ => revert M end.
    split_matches ch; intros; try discriminate; lia. }
  assert (Cons : forall g4 post,
             s0 = (body ++ (d :: taken) ++ g4) ++ post ->
             consumed s0 post = body ++ (d :: taken) ++ g4)
    by (intros g4 post ->; apply consumed_app).
  destruct rest as [|ch rest'].
  - injection R as Rm. subst m. exists body, g1, g2, (d :: taken), [], [].
    assert (S0' : s0 = (body ++ (d :: taken) ++ []) ++ [])
      by (rewrite S0; now rewrite !app_nil_r).
    split; [exact S0'|].
    split; [now rewrite (Cons _ _ S0')|].
    split; [apply Whole; constructor|].
    split; [discriminate|]. split; [simpl; now rewrite Hd|].
      split; [exact Front|]. split; [exact A3|]. split; [exact A5|]. right. auto.
  - rewrite matches_star_eq in R. rewrite matches_digit_eq in Nt.
    destruct (Z.eqb_spec ch 42) as [->|N42]; cbn [orelse] in R;
      injection R as Rm; subst m.
    + exists body, g1, g2, (d :: taken), [42], rest'.
      assert (S0' : s0 = (body ++ (d :: taken) ++ [42]) ++ rest')
        by (rewrite S0; now rewrite <- !app_assoc).
      set (x := consumed (_ :: rest') rest').
      assert (C4 : x = [42]) by apply (consumed_app [42]).
      clearbody x. subst x.
      split; [exact S0'|].
      split; [now rewrite (Cons _ _ S0')|].
      split; [apply Whole; constructor; now rewrite matches_star_eq|].
      split; [discriminate|]. split; [simpl; now rewrite Hd|].
      split; [exact Front|]. split; [exact A3|]. split; [exact A5|]. now left.
    + exists body, g1, g2, (d :: taken), [], (ch :: rest').
      assert (S0' : s0 = (body ++ (d :: taken) ++ []) ++ ch :: rest')
        by (rewrite S0; now rewrite !app_nil_r, <- !app_assoc).
      set (x := consumed (_ :: rest') (_ :: rest')).
      assert (C4 : x = []) by apply (consumed_app []).
      clearbody x. subst x.
      split; [exact S0'|].
      split; [now rewrite (Cons _ _ S0')|].
      split; [apply Whole; constructor|].
      split; [discriminate|]. split; [simpl; now rewrite Hd|].
      split; [exact Front|]. split; [exact A3|]. split; [exact A5|]. right. auto.
Qed.

End MatchShape.

(** ** More on the parser *)

Section ParserShape.
Context `{Host}.
Import RegExp RegExpFacts.

Lemma decimal_nonneg ds : forallb is_digit ds = true -> 0 <= decimal ds.
Proof.
  unfold decimal. assert (G : forall a, 0 <= a -> forallb is_digit ds = true ->
                          0 <= fold_left (fun a c => 10 * a + (c - 48)) ds a).
  { induction ds as [|c ds IH]; cbn [fold_left forallb]; intros a Ha F; [exact Ha|].
    apply andb_prop in F as [Hc F]. apply is_digit_spec in Hc.
    apply IH; [lia | exact F]. }
  apply G. lia.
Qed.

(** A parse that returns a record, taken apart. *)
Lemma parse_structure content w r :
  fst (parseWordleScore content w) = Some r ->
  exists pre body g1 g2 g3 g4 post,
    content = pre ++ (body ++ g3 ++ g4) ++ post
    /\ r = record_of_groups g1 g2 g3 g4 (clock (clock_reads w))
    /\ accepts true WORDLE_REGEX (body ++ g3 ++ g4)
    /\ g3 <> [] /\ forallb is_digit g3 = true
    /\ (exists keyword blanks1 blanks2,
          body = keyword ++ blanks1 ++ g1 ++ blanks2 ++ g2 ++ [47]
          /\ accepts true (RLit (str "Wordle")) keyword
          /\ accepts true (RPlus CSpace) blanks1
          /\ accepts true (RPlus CSpace) blanks2)
    /\ accepts true number_pattern g1
    /\ accepts true result_pattern g2
    /\ (g4 = [42]
        \/ g4 = [] /\ match post with
                      | ch :: _ => is_digit ch = false /\ ch <> 42
                      | [] => True
                      end)
    /\ (forall p1 p2, pre = p1 ++ p2 -> p2 <> [] ->
                      match_at true WORDLE_REGEX 4 (p2 ++ (body ++ g3 ++ g4) ++ post)
                      = None).
Proof.
  rewrite parseWordleScore_unfold. unfold match_WORDLE_REGEX.
  destruct (exec true WORDLE_REGEX 4 content) as [m|] eqn:E; [|discriminate].
  apply exec_leftmost in E as (pre & s0 & -> & M & L).
  apply WORDLE_REGEX_match_at in M
    as (body & g1 & g2 & g3 & g4 & post & -> & -> & A & N3 & D3 & F & A1 & A2 & T).
  cbn [fst]. intros E. inv E.
  exists pre, body, g1, g2, g3, g4, post. repeat split; auto.
Qed.

End ParserShape.

(** X1: a record is read off the leftmost match.  The text splits
    into a prefix, a word of the pattern and a rest; the word is made
    of the keyword, blanks, group 1, blanks, group 2, the slash, group
    3 and group 4; the record is the one that the parser builds from
    these four groups; and no word of the pattern begins at an earlier
    place in the text. *)
Theorem parse_takes_leftmost_match `{Host} content w r :
  fst (parseWordleScore content w) = Some r ->
  exists pre whole post keyword blanks1 g1 blanks2 g2 g3 g4,
    content = pre ++ whole ++ post
    /\ whole = keyword ++ blanks1 ++ g1 ++ blanks2 ++ g2 ++ [47] ++ g3 ++ g4
    /\ RegExp.accepts true (RegExp.RLit (str "Wordle")) keyword
    /\ RegExp.accepts true (RegExp.RPlus RegExp.CSpace) blanks1
    /\ RegExp.accepts true number_pattern g1
    /\ RegExp.accepts true (RegExp.RPlus RegExp.CSpace) blanks2
    /\ RegExp.accepts true result_pattern g2
    /\ RegExp.accepts true max_pattern g3
    /\ RegExp.accepts true hard_pattern g4
    /\ RegExp.accepts true WORDLE_REGEX whole
    /\ r = record_of_groups g1 g2 g3 g4 (clock (clock_reads w))
    /\ forall p1 p2 w' post',
        pre = p1 ++ p2 -> p2 <> [] ->
        p2 ++ whole ++ post = w' ++ post' ->
        ~ RegExp.accepts true WORDLE_REGEX w'.
Proof.
  intros E. apply parse_structure in E
    as (pre & body & g1 & g2 & g3 & g4 & post & -> & -> & A & N3 & D3
        & (keyword & blanks1 & blanks2 & -> & Ak & Ab1 & Ab2) & A1 & A2 & T & L).
  exists pre, ((keyword ++ blanks1 ++ g1 ++ blanks2 ++ g2 ++ [47]) ++ g3 ++ g4), post,
         keyword, blanks1, g1, blanks2, g2, g3, g4.
  split; [now rewrite <- !app_assoc|].
  split; [now rewrite <- !app_assoc|].
  split; [exact Ak|]. split; [exact Ab1|]. split; [exact A1|].
  split; [exact Ab2|]. split; [exact A2|].
  split.
  { destruct g3 as [|d taken]; [congruence|]. cbn [forallb] in D3.
    apply andb_prop in D3 as [Hd Ht].
    change (d :: taken) with ([d] ++ taken). constructor.
    - constructor. now rewrite matches_digit_eq.
    - apply accepts_star_forallb.
      clear - Ht. induction taken as [|x l IH]; cbn [forallb] in *; [reflexivity|].
      apply andb_prop in Ht as [Hx Ht]. now rewrite matches_digit_eq, Hx, IH. }
  split.
  { destruct T as [-> | [-> _]]; constructor. now rewrite matches_star_eq. }
  split; [exact A|]. split; [reflexivity|].
  intros p1 p2 w' post' Ep Np Ew.
  apply (match_at_none true WORDLE_REGEX 4 _ (L p1 p2 Ep Np) w' post').
  rewrite <- Ew. now rewrite <- !app_assoc.
Qed.

(** X2: the fields of a parsed record are never NaN: the puzzle number
    and the maximum are non-negative integers, or the positive
    infinity when their digits spell an integer beyond the doubles;
    the score is an integer from 1 to 7; and the timestamp is the
    reading of the clock. *)
Theorem parsed_record_is_well_formed `{Host} content w r :
  fst (parseWordleScore content w) = Some r ->
  nonneg_number (wordleNumber r)
  /\ nonneg_number (maxAttempts r)
  /\ (exists v, score r = Num v /\ 1 <= v <= 7)
  /\ timestamp r = clock (clock_reads w).
Proof.
  intros E. apply parse_structure in E
    as (pre & body & g1 & g2 & g3 & g4 & post & _ & -> & _ & N3 & D3 & _ & A1 & A2 & _ & _).
  apply accepts_number in A1 as (ds1 & sep & ds2 & -> & N1 & D1 & S & D2).
  apply accepts_result in A2 as (ch & -> & R).
  assert (D : forallb is_digit (ds1 ++ ds2) = true)
    by (rewrite forallb_app, D1, D2; reflexivity).
  set (now := clock (clock_reads w)).
  assert (E1 : wordleNumber (record_of_groups (ds1 ++ sep ++ ds2) [ch] g3 g4 now)
               = number_of_integer (decimal (ds1 ++ ds2))).
  { unfold record_of_groups. cbn [wordleNumber].
    etransitivity;
      [apply (f_equal parseInt); exact (remove_commas_number _ _ _ D1 S D2)|].
    apply parseInt_digits; [|exact D]. destruct ds1; [congruence | discriminate]. }
  assert (E3 : maxAttempts (record_of_groups (ds1 ++ sep ++ ds2) [ch] g3 g4 now)
               = number_of_integer (decimal g3)).
  { unfold record_of_groups. cbn [maxAttempts]. now apply parseInt_digits. }
  split.
  { rewrite E1. apply number_of_integer_nonneg. now apply decimal_nonneg. }
  split.
  { rewrite E3. apply number_of_integer_nonneg. now apply decimal_nonneg. }
  split; [|reflexivity].
  rewrite (score_of_token _ _ _ _ _ R). eexists. split; [reflexivity|].
  destruct (Z.eqb_spec ch 88); destruct (Z.eqb_spec ch 120); simpl; lia.
Qed.


(** ** More on the producers *)

Section ProducerShape.
Context `{Host}.
Import JSMapFacts.

Lemma parse_userScores text w :
  userScores (snd (parseWordleScore text w)) = userScores w.
Proof.
  rewrite parseWordleScore_unfold.
  repeat match goal with
         | |- context [match ?x with _ => _ end] => destruct x; try reflexivity
         end.
Qed.

Lemma keys_after_store m s w :
  JSMap.keys (userScores (snd (store_score m s w)))
  = JSMap.keys (userScores w)
    ++ (if JSMap.has (userScores w) (author m) then [] else [author m]).
Proof.
  unfold store_score. cbn [snd userScores].
  destruct (JSMap.has (userScores w) (author m)) eqn:Eh; cbn [negb].
  - unfold JSMap.has in Eh.
    destruct (JSMap.get (userScores w) (author m)) eqn:Eg; [|discriminate].
    rewrite keys_set. unfold JSMap.has. rewrite Eg. now rewrite app_nil_r.
  - rewrite get_set_same, !keys_set. unfold JSMap.has at 1.
    rewrite get_set_same. now rewrite Eh.
Qed.

Lemma store_extends_refl w : store_extends w w.
Proof.
  split; [exists []; now rewrite app_nil_r|].
  intros u. exists []. now rewrite app_nil_r.
Qed.

Lemma store_extends_store w0 m s w :
  store_extends w0 w -> store_extends w0 (snd (store_score m s w)).
Proof.
  intros [[users K] R]. split.
  - rewrite keys_after_store, K, <- app_assoc. eauto.
  - intros u. destruct (R u) as (added & E).
    rewrite records_of_store_score, E.
    destruct (u =? author m); [rewrite <- app_assoc|]; eauto.
Qed.

(** One live message is the loop over a page that holds just that
    message. *)
Lemma messageCreate_as_page m w :
  jsstring_eqb (channel_name m) WORDLE_CHANNEL_NAME = true ->
  snd (messageCreate m w) = snd (process_page (createdAt m) [m] 0 w).
Proof.
  intros C. unfold messageCreate. rewrite C. cbn [negb process_page].
  rewrite Z.ltb_irrefl. unfold bind.
  destruct (parseWordleScore (content m) w) as [[s|] w1]; [|reflexivity].
  now destruct (store_score m s w1) as [[] w2].
Qed.

End ProducerShape.

(** X4: what a live message does to the store.  In the Wordle channel
    a message that holds a result appends one record, the one read off
    its text with its creation time, to the array of its author; every
    other message, and every message of another channel, leaves all
    arrays as they were. *)
Theorem messageCreate_appends_its_record `{Host} m w u :
  records_of (userScores (snd (messageCreate m w))) u
  = records_of (userScores w) u
    ++ (if jsstring_eqb (channel_name m) WORDLE_CHANNEL_NAME
        then records_from u [m] else []).
Proof.
  destruct (jsstring_eqb (channel_name m) WORDLE_CHANNEL_NAME) eqn:C.
  - rewrite (messageCreate_as_page _ _ C).
    assert (A : all_since (createdAt m) [m] = true)
      by (simpl; now rewrite Z.leb_refl).
    destruct (process_page_all _ _ A 0 w) as (w' & -> & R). apply R.
  - unfold messageCreate. rewrite C. simpl. now rewrite app_nil_r.
Qed.

(** X5: the store is append-only.  Whatever a live message, a crawl or
    a statistics request does, the users of the map stay where they
    are, new users are added behind them, and every user's array keeps
    its records in front of any new ones; a statistics request leaves
    the map untouched. *)
Theorem store_is_append_only `{Host} :
  (forall m w, store_extends w (snd (messageCreate m w)))
  /\ (forall fuel guilds w,
        store_extends w (snd (fetchHistoricalMessages fuel guilds w)))
  /\ (forall periodChoice w,
        userScores (snd (wordlestats periodChoice w)) = userScores w).
Proof.
  split; [|split].
  - intros m w.
    apply (messageCreate_preserves (store_extends w) (fun _ _ => True)); auto.
    + intros m0 s w0 _. apply store_extends_store.
    + apply store_extends_refl.
  - intros fuel guilds w.
    apply (fetchHistoricalMessages_preserves (store_extends w) (fun _ _ => True)); auto.
    + intros m0 s w0 _. apply store_extends_store.
    + apply store_extends_refl.
  - reflexivity.
Qed.

(** ** The counters of the crawl *)

Section CounterFacts.
Context `{Host}.
Import JSMapFacts.

Lemma total_records_set scores k (v : list ScoreRecord) :
  total_records (JSMap.set scores k v)
  = total_records scores + Z.of_nat (List.length v)
    - Z.of_nat (List.length (records_of scores k)).
Proof.
  unfold total_records, JSMap.entries, records_of.
  induction scores as [|[k' v'] scores IH]; cbn [JSMap.set JSMap.get fold_right snd].
  - simpl. lia.
  - destruct (Z.eqb_spec k' k) as [->|N]; cbn [fold_right snd]; [lia|].
    rewrite IH. lia.
Qed.

Lemma total_records_store m s w :
  total_records (userScores (snd (store_score m s w)))
  = total_records (userScores w) + 1.
Proof.
  unfold store_score. cbn [snd userScores].
  destruct (JSMap.has (userScores w) (author m)) eqn:Eh; cbn [negb];
    unfold JSMap.has in Eh.
  - destruct (JSMap.get (userScores w) (author m)) as [arr|] eqn:Eg; [|discriminate].
    rewrite total_records_set. unfold records_of. rewrite Eg, length_app. simpl. lia.
  - destruct (JSMap.get (userScores w) (author m)) as [arr|] eqn:Eg; [discriminate|].
    rewrite get_set_same, !total_records_set. unfold records_of.
    rewrite get_set_same, Eg. simpl. lia.
Qed.

Lemma process_page_total oneYearAgo messages :
  forall found w,
    total_records (userScores (snd (process_page oneYearAgo messages found w)))
    - total_records (userScores w)
    = snd (fst (process_page oneYearAgo messages found w)) - found.
Proof.
  induction messages as [|m rest IH]; intros found w; cbn [process_page].
  - simpl. lia.
  - destruct (createdAt m <? oneYearAgo); [simpl; lia|].
    unfold bind at 1 3.
    pose proof (parse_userScores (content m) w) as U.
    destruct (parseWordleScore (content m) w) as [[s|] w1]; cbn [snd] in U.
    + unfold bind. pose proof (total_records_store m s w1) as T.
      destruct (store_score m s w1) as [[] w2]. cbn [snd] in T.
      rewrite <- U. specialize (IH (found + 1) w2). lia.
    + rewrite <- U. apply IH.
Qed.

Lemma crawl_loop_total ch oneYearAgo :
  forall fuel calls lastId processed found w rep,
    fst (crawl_loop fuel ch oneYearAgo calls lastId processed found w) = Some rep ->
    total_records (userScores (snd (crawl_loop fuel ch oneYearAgo calls lastId
                                               processed found w)))
    = total_records (userScores w) + (scoresFound rep - found).
Proof.
  induction fuel as [|fuel IH]; intros calls lastId processed found w rep;
    cbn [crawl_loop]; [discriminate|].
  destruct (messages_fetch ch calls _) as [[|m0 rest]|];
    try (simpl; intros E; inv E; simpl; lia).
  cbv beta iota zeta. unfold bind.
  pose proof (process_page_total oneYearAgo (m0 :: rest) found w) as T.
  destruct (process_page oneYearAgo (m0 :: rest) found w) as [[returned found'] w1].
  cbn [fst snd] in T.
  destruct returned; [simpl; intros E; inv E; simpl; lia|].
  destruct (_ <? batchSize); [simpl; intros E; inv E; simpl; lia|].
  intros E. rewrite (IH _ _ _ _ _ _ E). lia.
Qed.

End CounterFacts.

(** X6: the count of scores that a crawl reports is the number of
    records that it has put into the store, however the channel
    answers and however the crawl ends. *)
Theorem crawl_reports_what_it_stored `{Host} fuel guilds w rep :
  fst (fetchHistoricalMessages fuel guilds w) = Some rep ->
  total_records (userScores (snd (fetchHistoricalMessages fuel guilds w)))
  = total_records (userScores w) + scoresFound rep.
Proof.
  unfold fetchHistoricalMessages.
  destruct guilds as [|g rest]; [simpl; intros E; inv E; simpl; lia|].
  destruct (find_channel g) as [ch|]; [|simpl; intros E; inv E; simpl; lia].
  unfold bind, new_Date. intros E.
  rewrite (crawl_loop_total _ _ _ _ _ _ _ _ _ E). simpl. lia.
Qed.

(** ** A history that reaches back beyond the horizon *)

Section HorizonFacts.
Context `{Host}.

Lemma records_from_app u a b :
  records_from u (a ++ b) = records_from u a ++ records_from u b.
Proof. unfold records_from. apply flat_map_app. Qed.

Lemma results_in_app a b : results_in (a ++ b) = results_in a + results_in b.
Proof. unfold results_in. rewrite filter_app, length_app. lia. Qed.

(** The loop, started anywhere in a history that is newest first, with
    recent messages [newer] still to come and then a message [old] from
    before [oneYearAgo]: it ends at [old], in the page that holds it. *)
Lemma crawl_loop_history_stops oneYearAgo history :
  newest_first history = true ->
  forall fuel done newer old rest calls lastId processed found w,
    history = done ++ newer ++ old :: rest ->
    filter (older_than lastId) history = newer ++ old :: rest ->
    all_since oneYearAgo newer = true ->
    createdAt old < oneYearAgo ->
    (List.length newer / 100 < fuel)%nat ->
    exists w',
      crawl_loop fuel (history_channel history) oneYearAgo calls lastId processed found w
      = (Some {| ending := ReachedOldMessages;
                 messagesProcessed :=
                   processed
                   + Z.of_nat (Nat.min (List.length (newer ++ old :: rest))
                                       (100 * (List.length newer / 100 + 1)));
                 scoresFound := found + results_in newer |}, w')
      /\ forall u, records_of (userScores w') u
                   = records_of (userScores w) u ++ records_from u newer.
Proof.
  intros N. induction fuel as [|fuel IH];
    intros done newer old rest calls lastId processed found w Hh Hf A Old Hfuel; [lia|].
  destruct (Nat.lt_ge_cases (List.length newer) 100) as [Short|Long].
  - (* [old] is in this page *)
    assert (Page : messages_fetch (history_channel history) calls
                     {| limit := batchSize; before := lastId |}
                   = Some (newer ++ old :: firstn (99 - List.length newer) rest)).
    { cbn [history_channel messages_fetch]. unfold history_fetch. cbn [limit before].
      rewrite Hf. change (Z.to_nat batchSize) with 100%nat.
      rewrite firstn_app.
      rewrite (firstn_all2 newer) by lia.
      replace (100 - List.length newer)%nat with (S (99 - List.length newer)) by lia.
      reflexivity. }
    rewrite (crawl_loop_stops _ _ _ _ _ _ _ _ _ _ _ Page A Old).
    destruct (process_page_all _ _ A found w) as (w' & -> & R).
    exists w'. split; [|exact R].
    do 3 f_equal.
    rewrite Nat.div_small by lia.
    rewrite !length_app. cbn [List.length]. rewrite length_firstn. lia.
  - (* a full page of recent messages *)
    destruct newer as [|m0 newer'] eqn:En; [simpl in Long; lia|].
    rewrite <- En in *.
    assert (Epage : firstn 100 newer = m0 :: firstn 99 newer') by now rewrite En.
    cbn [crawl_loop history_channel messages_fetch]. unfold history_fetch.
    cbn [limit before]. rewrite Hf. change (Z.to_nat batchSize) with 100%nat.
    rewrite firstn_app. replace (100 - List.length newer)%nat with 0%nat by lia.
    rewrite firstn_O, app_nil_r.
    rewrite Epage. rewrite <- Epage.
    set (page := firstn 100 newer) in *. set (later := skipn 100 newer).
    assert (Split : newer = page ++ later) by (symmetry; apply firstn_skipn).
    assert (Lp : List.length page = 100%nat)
      by (unfold page; rewrite length_firstn; lia).
    assert (Ll : List.length later = (List.length newer - 100)%nat)
      by apply length_skipn.
    destruct (all_since_app oneYearAgo page later) as [Ap Al]; [now rewrite <- Split|].
    unfold bind.
    destruct (process_page_all _ _ Ap found w) as (w1 & -> & R1).
    rewrite Lp. change (Z.of_nat 100 <? batchSize) with false. cbv iota.
    assert (Np : page <> []) by (rewrite Epage; discriminate).
    pose proof (app_removelast_last m0 Np) as Last.
    destruct (IH (done ++ page) later old rest (S calls) (Some (id (last page m0)))
                 (processed + Z.of_nat 100) (found + results_in page) w1)
      as (w' & -> & R); auto.
    + rewrite Hh, Split. now rewrite <- !app_assoc.
    + assert (Eh : history
                   = (done ++ removelast page) ++ last page m0 :: later ++ old :: rest).
      { rewrite Hh, Split. rewrite Last at 1. rewrite <- !app_assoc. reflexivity. }
      rewrite Eh. apply filter_older_last. rewrite <- Eh. exact N.
    + assert (E : (List.length newer = List.length later + 1 * 100)%nat) by lia.
      rewrite E, Nat.div_add in Hfuel by lia. lia.
    + exists w'. split.
      * do 3 f_equal.
        -- assert (E : (List.length newer = List.length later + 1 * 100)%nat) by lia.
           rewrite E, Nat.div_add by lia.
           rewrite !length_app in *. cbn [List.length] in *. lia.
        -- replace (results_in newer) with (results_in (page ++ later))
             by now rewrite <- Split.
           rewrite results_in_app. lia.
      * intros u. rewrite R, R1, <- app_assoc, <- records_from_app. now rewrite <- Split.
Qed.

End HorizonFacts.

(** X7: on a channel whose history is newest first and reaches back
    beyond the horizon, with the recent messages [newer] in front of
    the first message [old] from before the horizon, the crawl ends at
    [old] once the fuel exceeds the number of full pages of [newer].
    It has fetched no page behind the one that holds [old], it has
    counted the results of [newer], and every user's array has grown by
    the records of that user's messages in [newer] and by no other. *)
Theorem backfill_stops_at_the_horizon `{Host} newer old rest fuel w :
  let horizon := one_year_before (clock (clock_reads w)) in
  let history := newer ++ old :: rest in
  newest_first history = true ->
  all_since horizon newer = true ->
  createdAt old < horizon ->
  (List.length newer / 100 < fuel)%nat ->
  exists w',
    fetchHistoricalMessages fuel [[history_channel history]] w
    = (Some {| ending := ReachedOldMessages;
               messagesProcessed :=
                 Z.of_nat (Nat.min (List.length history)
                                   (100 * (List.length newer / 100 + 1)));
               scoresFound := results_in newer |}, w')
    /\ forall u, records_of (userScores w') u
                 = records_of (userScores w) u ++ records_from u newer.
Proof.
  intros horizon history N A Old F. unfold fetchHistoricalMessages.
  assert (C : find_channel [history_channel history] = Some (history_channel history))
    by reflexivity.
  rewrite C. unfold bind, new_Date. fold horizon.
  destruct (crawl_loop_history_stops horizon history N fuel [] newer old rest
              0%nat None 0 0
              {| userScores := userScores w; clock_reads := S (clock_reads w) |})
    as (w' & E & R); auto.
  - apply filter_keeps_all. apply Forall_forall. reflexivity.
  - exists w'. split; [exact E | exact R].
Qed.

(** ** More on the statistics *)

Section StatsShape.

Lemma get_Some_In {V} (m : JSMap.t V) k v : JSMap.get m k = Some v -> In (k, v) m.
Proof.
  induction m as [|[k' v'] m IH]; simpl; [discriminate|].
  destruct (Z.eqb_spec k' k) as [->|N]; [intros E; inv E; now left | auto].
Qed.

(** A user gets an entry exactly when one of the user's records lies
    in the window. *)
Lemma user_stat_Some startDate endDate u arr :
  (exists st, user_stat startDate endDate (u, arr) = Some st)
  <-> exists r, In r arr /\ in_window startDate endDate r = true.
Proof.
  unfold user_stat.
  destruct (filter (in_window startDate endDate) arr) as [|r l] eqn:F.
  - simpl. split; [intros (st & E); discriminate|].
    intros (r & I & W).
    assert (In r (filter (in_window startDate endDate) arr)) by now apply filter_In.
    rewrite F in *. contradiction.
  - replace (0 <? Z.of_nat (List.length (r :: l))) with true
      by (symmetry; apply Z.ltb_lt; simpl; lia).
    split; [intros _ | eauto].
    exists r. apply filter_In. rewrite F. now left.
Qed.

Lemma collect_stats_users startDate endDate entries :
  forall st, In st (collect_stats startDate endDate entries) ->
             In (userId st) (map fst entries).
Proof.
  intros st I. apply collect_stats_In in I as ([u arr] & I & U).
  apply user_stat_spec in U as (-> & _). now apply (in_map fst) in I.
Qed.

Lemma collect_stats_NoDup startDate endDate entries :
  NoDup (map fst entries) ->
  NoDup (map userId (collect_stats startDate endDate entries)).
Proof.
  induction entries as [|[u arr] entries IH]; cbn [map fst collect_stats];
    intros ND; [constructor|].
  inv ND. destruct (user_stat startDate endDate (u, arr)) as [st|] eqn:U; [|auto].
  cbn [map]. constructor; [|auto].
  apply user_stat_spec in U as (-> & _).
  intros I. apply in_map_iff in I as (st' & E & I).
  apply collect_stats_users in I. congruence.
Qed.

Lemma bucket_count_score d r k :
  1 <= k <= 7 ->
  bucket (count_score d r) k
  = bucket d k
    + (if match score r with
          | Num v => if (1 <=? v) && (v <=? 6) then v =? k else k =? 7
          | _ => k =? 7
          end then 1 else 0).
Proof.
  intros Hk. unfold count_score, bucket, incr_bucket, incr_X.
  destruct (score r) as [|v|neg].
  - repeat match goal with
           | |- context [?a =? ?b] => destruct (Z.eqb_spec a b); simpl; try lia
           end.
  - destruct (Z.leb_spec 1 v); destruct (Z.leb_spec v 6); simpl;
      repeat match goal with
             | |- context [?a =? ?b] => destruct (Z.eqb_spec a b); simpl; try lia
             end.
  - repeat match goal with
           | |- context [?a =? ?b] => destruct (Z.eqb_spec a b); simpl; try lia
           end.
Qed.

Lemma bucket_fold l k :
  1 <= k <= 7 ->
  (forall r, In r l -> exists v, score r = Num v /\ 1 <= v <= 7) ->
  forall d, bucket (fold_left count_score l d) k
            = bucket d k + Z.of_nat (List.length (filter (has_score k) l)).
Proof.
  intros Hk. induction l as [|r l IH]; intros Hl d; cbn [fold_left filter].
  - simpl. lia.
  - rewrite IH by (intros; apply Hl; now right).
    rewrite (bucket_count_score _ _ _ Hk).
    destruct (Hl r (or_introl eq_refl)) as (v & E & Hv).
    unfold has_score. rewrite E.
    destruct (Z.leb_spec 1 v); destruct (Z.leb_spec v 6); cbn [andb];
      destruct (Z.eqb_spec v k); destruct (Z.eqb_spec k 7);
      cbn [List.length]; lia.
Qed.

End StatsShape.

(** The users of the entries are the users with a record in the
    window. *)
Lemma calculateStats_users `{Host} w startDate endDate u :
  reachable w ->
  In u (map userId (calculateStats (userScores w) startDate endDate))
  <-> exists r, In r (records_of (userScores w) u)
                /\ startDate <= timestamp r <= endDate.
Proof.
  intros R. apply reachable_store_ok in R.
  assert (P : Permutation
                (map userId (calculateStats (userScores w) startDate endDate))
                (map userId (collect_stats startDate endDate (userScores w))))
    by (apply Permutation_map, JSArrayFacts.sort_perm).
  split.
  - intros I. apply in_map_iff in I as (st & <- & I).
    apply calculateStats_In in I as (u & arr & I & U).
    destruct (store_ok_entry _ _ _ R I) as [E _].
    pose proof (user_stat_spec _ _ _ _ _ U) as (-> & _).
    destruct (proj1 (user_stat_Some _ _ _ _) (ex_intro _ st U)) as (r & Ir & W).
    exists r. rewrite E. split; [exact Ir|].
    apply andb_prop in W as [W1 W2]. apply Z.leb_le in W1, W2. lia.
  - intros (r & Ir & W).
    unfold records_of in Ir.
    destruct (JSMap.get (userScores w) u) as [arr|] eqn:G; [|contradiction].
    apply get_Some_In in G.
    destruct (proj2 (user_stat_Some startDate endDate u arr)) as (st & U).
    { exists r. split; [exact Ir|]. unfold in_window.
      apply andb_true_intro. split; apply Z.leb_le; lia. }
    pose proof (user_stat_spec _ _ _ _ _ U) as (Eu & _).
    apply (Permutation_in _ (Permutation_sym P)).
    rewrite <- Eu. apply in_map. apply collect_stats_In. eauto.
Qed.

(** X8: the statistics list the users that have a game in the window,
    and nobody else: in every state of the process, a user has an
    entry exactly when one of the user's stored records has its
    timestamp in the window, and no user has two entries. *)
Theorem stats_list_active_users `{Host} w startDate endDate :
  reachable w ->
  NoDup (map userId (calculateStats (userScores w) startDate endDate))
  /\ forall u,
      In u (map userId (calculateStats (userScores w) startDate endDate))
      <-> exists r, In r (records_of (userScores w) u)
                    /\ startDate <= timestamp r <= endDate.
Proof.
  intros R. split.
  - pose proof (reachable_store_ok _ R) as [ND _].
    assert (P : Permutation
                  (map userId (calculateStats (userScores w) startDate endDate))
                  (map userId (collect_stats startDate endDate (userScores w))))
      by (apply Permutation_map, JSArrayFacts.sort_perm).
    apply (Permutation_NoDup (Permutation_sym P)).
    now apply collect_stats_NoDup.
  - intros u. now apply calculateStats_users.
Qed.

(** X9: in every state of the process, each counter of an entry is
    the number of the user's stored records in the window that have
    that score; the counter [X] (here 7) counts the failed games. *)
Theorem stats_buckets_count_scores `{Host} w startDate endDate st k :
  reachable w ->
  In st (calculateStats (userScores w) startDate endDate) ->
  1 <= k <= 7 ->
  bucket (distribution st) k
  = Z.of_nat (List.length
                (filter (has_score k)
                   (filter (fun r => (startDate <=? timestamp r) && (timestamp r <=? endDate))
                           (records_of (userScores w) (userId st))))).
Proof.
  intros R I Hk. apply reachable_store_ok in R.
  apply calculateStats_In in I as (u & arr & I & U).
  destruct (store_ok_entry _ _ _ R I) as [E S].
  pose proof (user_stat_spec _ _ _ _ _ U) as (Eu & _). rewrite Eu, E.
  unfold user_stat in U. destruct (0 <? _); [|discriminate]. inv U.
  cbn [distribution].
  rewrite (bucket_fold _ _ Hk).
  - unfold bucket, distribution0. simpl.
    repeat match goal with
           | |- context [?a =? ?b] => destruct (a =? b)
           end; reflexivity.
  - intros r Ir. apply filter_In in Ir as [Ir _]. now apply S.
Qed.

(** ** Ties in the ranking *)

Section TieFacts.

Lemma insert_keeps_ties a x l :
  average_is_number x -> Forall average_is_number l -> StronglySorted average_le l ->
  filter (has_average a) (JSArray.insert by_average x l)
  = filter (has_average a) l ++ (if has_average a x then [x] else []).
Proof.
  intros (ax & Ex) Gl S. induction S as [|y l S IH F].
  - reflexivity.
  - inv Gl. destruct H1 as (ay & Ey).
    change (JSArray.insert by_average x (y :: l))
      with (if JSArray.after by_average y x
            then x :: y :: l else y :: JSArray.insert by_average x l).
    assert (Af : JSArray.after by_average y x = (0 <? ay - ax))
      by (unfold JSArray.after, by_average; now rewrite Ey, Ex).
    rewrite Af.
    destruct (Z.ltb_spec 0 (ay - ax)) as [Gt|Le]; cbn [filter].
    + (* [x] goes in front of [y], which has a larger average *)
      destruct (has_average a x) eqn:Hx; [|now rewrite app_nil_r].
      assert (Ea : ax = a).
      { unfold has_average in Hx. rewrite Ex in Hx. now apply Z.eqb_eq. }
      assert (Hy : has_average a y = false).
      { unfold has_average. rewrite Ey. apply Z.eqb_neq. lia. }
      assert (Hl : filter (has_average a) l = []).
      { clear - F Ey Gt Ea. induction F as [|z l Lz F IH]; cbn [filter]; [reflexivity|].
        unfold average_le in Lz. rewrite Ey in Lz.
        unfold has_average at 1.
        destruct (averageScore z) as [|az|]; [contradiction| |contradiction].
        destruct (Z.eqb_spec az a); [lia | exact IH]. }
      rewrite Hy, Hl. reflexivity.
    + rewrite (IH H2). destruct (has_average a y); reflexivity.
Qed.

Lemma sort_keeps_ties a l :
  Forall average_is_number l ->
  forall acc, Forall average_is_number acc -> StronglySorted average_le acc ->
  filter (has_average a)
         (fold_left (fun acc x => JSArray.insert by_average x acc) l acc)
  = filter (has_average a) acc ++ filter (has_average a) l.
Proof.
  induction 1 as [|x l Gx Gl IH]; cbn [fold_left filter]; intros acc Ga S.
  - now rewrite app_nil_r.
  - rewrite IH.
    + rewrite (insert_keeps_ties _ _ _ Gx Ga S), <- app_assoc.
      now destruct (has_average a x).
    + rewrite (JSArrayFacts.insert_perm by_average x acc). now constructor.
    + apply (JSArrayFacts.insert_sorted by_average average_le average_is_number); auto.
      * apply average_le_trans.
      * apply by_average_after.
      * apply by_average_not_after.
Qed.

End TieFacts.

(** X10: ties are broken by the order of the map.  In every state of
    the process, the entries that share an average stand in the
    statistics in the order in which the loop over the map produced
    them, which is the order in which their users first got a record. *)
Theorem stats_ties_keep_map_order `{Host} w startDate endDate a :
  reachable w ->
  filter (has_average a) (calculateStats (userScores w) startDate endDate)
  = filter (has_average a)
           (collect_stats startDate endDate (JSMap.entries (userScores w))).
Proof.
  intros R. apply reachable_store_ok in R. unfold calculateStats, JSArray.sort.
  rewrite sort_keeps_ties; [reflexivity | | constructor | constructor].
  apply Forall_forall. intros st I.
  apply collect_stats_In in I as ([u arr] & I & U).
  destruct (store_ok_entry _ _ _ R I) as [_ S].
  eapply user_stat_average; [|exact U].
  intros r Ir. destruct (S r Ir) as (v & E & _). eauto.
Qed.

(** ** The range of the averages *)

Section AverageRange.

Lemma nearest_hundredth_bounds (M F : Z) :
  0 < F -> 2 ^ F <= M <= 7 * 2 ^ F -> 
  100 <= (200 * M + 2 ^ F) / 2 ^ (1 + F) <= 700.
Proof.
  intros HF HM. rewrite Z.pow_add_r by lia. change (2 ^ 1) with 2.
  assert (P : 0 < 2 ^ F) by (apply Z.pow_pos_nonneg; lia).
  split.
  - apply Z.div_le_lower_bound; lia.
  - assert ((200 * M + 2 ^ F) / (2 * 2 ^ F) < 701); [|lia].
    apply Z.div_lt_upper_bound; lia.
Qed.

Lemma div_Z_bounds t n :
  0 < n -> n <= t <= 7 * n ->
  exists a, Double.toFixed2 (Double.div_Z t n) = Num a /\ 100 <= a <= 700.
Proof.
  intros Hn Ht. unfold Double.div_Z.
  destruct (Z.eqb_spec t 0); [lia|].
  rewrite Z.abs_eq by lia.
  assert (Ltn : Z.log2 t <= Z.log2 n + 3).
  { replace (Z.log2 n + 3) with (Z.log2 (n * 2 ^ 3)).
    - apply Z.log2_le_mono. lia.
    - rewrite Z.log2_mul_pow2; lia. }
  assert (Lnt : Z.log2 n <= Z.log2 t) by (apply Z.log2_le_mono; lia).
  set (k := Z.max 0 (55 + Z.log2 n - Z.log2 t)).
  assert (Hk : k = 55 + Z.log2 n - Z.log2 t) by (unfold k; lia).
  assert (Hk52 : 52 <= k <= 55) by lia.
  set (q := t * 2 ^ k / n). set (r := (t * 2 ^ k) mod n).
  assert (Pk : 0 < 2 ^ k) by (apply Z.pow_pos_nonneg; lia).
  assert (Q1 : 2 ^ k <= q).
  { unfold q. apply Z.div_le_lower_bound; nia. }
  assert (Q7 : q <= 7 * 2 ^ k).
  { unfold q. apply Z.div_le_upper_bound; nia. }
  assert (Q54 : 2 ^ 54 <= q).
  { unfold q. apply Z.div_le_lower_bound; [lia|].
    destruct (Z.log2_spec t ltac:(lia)) as [T1 _].
    destruct (Z.log2_spec n ltac:(lia)) as [_ N2].
    assert (E : 2 ^ Z.log2 t * 2 ^ k = 2 ^ 54 * 2 ^ Z.succ (Z.log2 n)).
    { rewrite <- !Z.pow_add_r by (try lia; apply Z.log2_nonneg || (pose proof (Z.log2_nonneg n); lia)).
      f_equal. lia. }
    assert (0 < 2 ^ 54) by (apply Z.pow_pos_nonneg; lia).
    nia. }
  assert (Lq : 54 <= Z.log2 q <= k + 2).
  { split.
    - apply Z.log2_le_pow2; lia.
    - assert (Z.log2 q < k + 3); [|lia]. apply Z.log2_lt_pow2; [lia|].
      rewrite Z.pow_add_r by lia. change (2 ^ 3) with 8. lia. }
  set (sh := Z.log2 q - 52).
  assert (Hsh : 2 <= sh <= k - 50) by (unfold sh; lia).
  set (E := k - sh).
  assert (HE : 50 <= E) by (unfold E; lia).
  assert (Psh : 0 < 2 ^ sh) by (apply Z.pow_pos_nonneg; lia).
  assert (PE : 0 < 2 ^ E) by (apply Z.pow_pos_nonneg; lia).
  assert (Ek : 2 ^ k = 2 ^ E * 2 ^ sh).
  { unfold E. rewrite <- Z.pow_add_r by lia. f_equal. lia. }
  set (m := q / 2 ^ sh). set (lo := q mod 2 ^ sh). set (half := 2 ^ (sh - 1)).
  assert (Phalf : 0 < half) by (apply Z.pow_pos_nonneg; lia).
  assert (M1 : 2 ^ E <= m).
  { unfold m. apply Z.div_le_lower_bound; [lia|]. nia. }
  assert (M7 : m <= 7 * 2 ^ E).
  { unfold m. apply Z.div_le_upper_bound; [lia|]. nia. }
  set (up := (half <? lo) || (lo =? half) && ((0 <? r) || Z.odd m)).
  set (m' := if up then m + 1 else m).
  assert (M' : 2 ^ E <= m' <= 7 * 2 ^ E).
  { unfold m'. destruct up eqn:Eup; [|lia]. split; [lia|].
    destruct (Z.eq_dec m (7 * 2 ^ E)) as [Em|]; [|lia].
    exfalso. assert (Hq : q = 2 ^ sh * m + lo) by (apply Z.div_mod; lia).
    assert (Hlo : 0 <= lo < 2 ^ sh) by (apply Z.mod_pos_bound; lia).
    assert (lo = 0) by nia.
    unfold up in Eup. rewrite H in Eup.
    destruct (Z.ltb_spec half 0); [lia|].
    destruct (Z.eqb_spec 0 half); [lia|]. discriminate. }
  assert (tneg : (t <? 0) = false) by (apply Z.ltb_ge; lia).
  rewrite tneg.
  destruct (Z.eqb_spec m' (2 ^ 53)) as [E53|N53].
  - cbn [Double.toFixed2]. eexists. split; [reflexivity|].
    unfold Double.nearest_hundredth.
    destruct (Z.leb_spec 0 (sh - k + 1)); [lia|].
    rewrite Z2Pos.id by (apply Z.pow_pos_nonneg; lia).
    replace (- (sh - k + 1)) with (E - 1) by (unfold E; lia).
    replace (1 - (sh - k + 1)) with (1 + (E - 1)) by (unfold E; lia).
    apply nearest_hundredth_bounds; [lia|].
    assert (2 ^ E = 2 * 2 ^ (E - 1)).
    { replace E with (1 + (E - 1)) at 1 by lia. rewrite Z.pow_add_r by lia. reflexivity. }
    assert (2 ^ 53 = 2 * 2 ^ 52) by reflexivity.
    lia.
  - cbn [Double.toFixed2]. eexists. split; [reflexivity|].
    unfold Double.nearest_hundredth.
    destruct (Z.leb_spec 0 (sh - k)); [lia|].
    rewrite Z2Pos.id by lia.
    replace (- (sh - k)) with E by (unfold E; lia).
    replace (1 - (sh - k)) with (1 + E) by (unfold E; lia).
    apply nearest_hundredth_bounds; lia.
Qed.

Lemma total_score_range l :
  (forall r, In r l -> exists v, score r = Num v /\ 1 <= v <= 7) ->
  forall a, exists t,
    fold_left (fun sum s => number_add sum (score s)) l (Num a) = Num t
    /\ a + Z.of_nat (List.length l) <= t <= a + 7 * Z.of_nat (List.length l).
Proof.
  induction l as [|s l IH]; cbn [fold_left List.length]; intros Hl a.
  - exists a. split; [reflexivity | lia].
  - destruct (Hl s (or_introl eq_refl)) as (v & -> & Hv). cbn [number_add].
    destruct (IH (fun r Ir => Hl r (or_intror Ir)) (a + v)) as (t & -> & Ht).
    exists t. split; [reflexivity | lia].
Qed.

End AverageRange.

(** X11: in every state of the process, the average of an entry is a
    number from 1.00 to 7.00 (from 100 to 700 hundredths). *)
Theorem stats_average_in_range `{Host} w startDate endDate st :
  reachable w ->
  In st (calculateStats (userScores w) startDate endDate) ->
  exists a, averageScore st = Num a /\ 100 <= a <= 700.
Proof.
  intros R I. apply reachable_store_ok in R.
  apply calculateStats_In in I as (u & arr & I & U).
  destruct (store_ok_entry _ _ _ R I) as [_ S].
  unfold user_stat in U.
  destruct (Z.ltb_spec 0 (Z.of_nat (List.length (filter (in_window startDate endDate) arr))))
    as [Pos|]; [|discriminate].
  inv U. cbn [averageScore].
  destruct (total_score_range (filter (in_window startDate endDate) arr)) with (a := 0)
    as (t & -> & Ht).
  { intros r Ir. apply filter_In in Ir as [Ir _]. now apply S. }
  unfold rounded_average. apply div_Z_bounds; lia.
Qed.

(** ** The value of the average *)

Section AverageValue.

(** Rounding to 53 bits moves a quotient by at most half a unit of the
    last place. *)
Lemma round_half_ulp q sh r n m' :
  0 < n -> 1 <= sh -> 0 <= r < n ->
  let m := q / 2 ^ sh in
  let lo := q mod 2 ^ sh in
  let half := 2 ^ (sh - 1) in
  m' = (if (half <? lo) || (lo =? half) && ((0 <? r) || Z.odd m) then m + 1 else m) ->
  2 * Z.abs (m' * 2 ^ sh * n - (q * n + r)) <= 2 ^ sh * n.
Proof.
  intros Hn Hsh Hr m lo half ->.
  assert (Phalf : 0 < half) by (apply Z.pow_pos_nonneg; lia).
  assert (Esh : 2 ^ sh = 2 * half).
  { unfold half. replace sh with (1 + (sh - 1)) at 1 by lia.
    rewrite Z.pow_add_r by lia. reflexivity. }
  assert (Hq : q = 2 ^ sh * m + lo) by (apply Z.div_mod; lia).
  assert (Hlo : 0 <= lo < 2 ^ sh) by (apply Z.mod_pos_bound; lia).
  rewrite Esh in *. clearbody m lo half. subst q.
  destruct (Z.ltb_spec half lo) as [L|L]; cbn [orb].
  - replace ((m + 1) * (2 * half) * n - ((2 * half * m + lo) * n + r))
      with ((2 * half - lo) * n - r) by ring.
    assert (0 <= (2 * half - lo) * n - r) by nia.
    rewrite Z.abs_eq by lia. nia.
  - destruct (Z.eqb_spec lo half) as [->|NE]; cbn [andb].
    + destruct (Z.ltb_spec 0 r) as [R|R]; cbn [orb].
      * replace ((m + 1) * (2 * half) * n - ((2 * half * m + half) * n + r))
          with (half * n - r) by ring.
        assert (0 <= half * n - r) by nia.
        rewrite Z.abs_eq by lia. nia.
      * assert (r = 0) by lia. subst r.
        destruct (Z.odd m).
        -- replace ((m + 1) * (2 * half) * n - ((2 * half * m + half) * n + 0))
             with (half * n) by ring.
           rewrite Z.abs_eq by nia. nia.
        -- replace (m * (2 * half) * n - ((2 * half * m + half) * n + 0))
             with (- (half * n)) by ring.
           rewrite Z.abs_opp, Z.abs_eq by nia. nia.
    + replace (m * (2 * half) * n - ((2 * half * m + lo) * n + r))
        with (- (lo * n + r)) by ring.
      rewrite Z.abs_opp, Z.abs_eq by nia. nia.
Qed.

Lemma nearest_hundredth_error (M F a t n : Z) :
  49 <= F -> 0 < n < 2 ^ 42 ->
  2 * Z.abs (M * n - t * 2 ^ F) <= n ->
  a = (200 * M + 2 ^ F) / 2 ^ (1 + F) ->
  2 * Z.abs (a * n - 100 * t) <= n.
Proof.
  intros HF Hn D ->.
  assert (P : 0 < 2 ^ F) by (apply Z.pow_pos_nonneg; lia).
  assert (B : 2 ^ 49 <= 2 ^ F) by (apply Z.pow_le_mono_r; lia).
  change (2 ^ 49) with 562949953421312 in B.
  change (2 ^ 42) with 4398046511104 in Hn.
  rewrite Z.pow_add_r by lia. change (2 ^ 1) with 2.
  set (P2 := 2 ^ F) in *. clearbody P2.
  set (a := (200 * M + P2) / (2 * P2)).
  assert (A := Z.div_mod (200 * M + P2) (2 * P2) ltac:(lia)).
  assert (R := Z.mod_pos_bound (200 * M + P2) (2 * P2) ltac:(lia)).
  fold a in A. set (rr := (200 * M + P2) mod (2 * P2)) in *. clearbody a rr.
  set (D0 := M * n - t * P2) in *.
  assert (ED : M * n = t * P2 + D0) by (unfold D0; ring). clearbody D0.
  (* (a n - 100 t) 2 P2 = 200 D0 + P2 n - rr n *)
  assert (K : (a * n - 100 * t) * (2 * P2) = 200 * D0 + P2 * n - rr * n) by nia.
  set (Y := a * n - 100 * t) in *. clearbody Y.
  assert (2 * Y <= n).
  { assert ((2 * Y - n) * (2 * P2) < 2 * P2) by nia. nia. }
  assert (- n <= 2 * Y).
  { assert (- (2 * P2) < (2 * Y + n) * (2 * P2)) by nia. nia. }
  lia.
Qed.

Lemma div_Z_nearest t n :
  0 < n < 2 ^ 42 -> n <= t <= 7 * n ->
  exists a, Double.toFixed2 (Double.div_Z t n) = Num a
            /\ 2 * Z.abs (a * n - 100 * t) <= n.
Proof.
  intros Hn Ht. unfold Double.div_Z.
  destruct (Z.eqb_spec t 0); [lia|].
  rewrite Z.abs_eq by lia.
  assert (Ltn : Z.log2 t <= Z.log2 n + 3).
  { replace (Z.log2 n + 3) with (Z.log2 (n * 2 ^ 3)).
    - apply Z.log2_le_mono. lia.
    - rewrite Z.log2_mul_pow2; lia. }
  assert (Lnt : Z.log2 n <= Z.log2 t) by (apply Z.log2_le_mono; lia).
  set (k := Z.max 0 (55 + Z.log2 n - Z.log2 t)).
  assert (Hk : k = 55 + Z.log2 n - Z.log2 t) by (unfold k; lia).
  assert (Hk52 : 52 <= k <= 55) by lia.
  set (q := t * 2 ^ k / n). set (r := (t * 2 ^ k) mod n).
  assert (Pk : 0 < 2 ^ k) by (apply Z.pow_pos_nonneg; lia).
  assert (Q1 : 2 ^ k <= q).
  { unfold q. apply Z.div_le_lower_bound; nia. }
  assert (Q7 : q <= 7 * 2 ^ k).
  { unfold q. apply Z.div_le_upper_bound; nia. }
  assert (Q54 : 2 ^ 54 <= q).
  { unfold q. apply Z.div_le_lower_bound; [lia|].
    destruct (Z.log2_spec t ltac:(lia)) as [T1 _].
    destruct (Z.log2_spec n ltac:(lia)) as [_ N2].
    assert (E : 2 ^ Z.log2 t * 2 ^ k = 2 ^ 54 * 2 ^ Z.succ (Z.log2 n)).
    { rewrite <- !Z.pow_add_r by (try lia; apply Z.log2_nonneg || (pose proof (Z.log2_nonneg n); lia)).
      f_equal. lia. }
    assert (0 < 2 ^ 54) by (apply Z.pow_pos_nonneg; lia).
    nia. }
  assert (Lq : 54 <= Z.log2 q <= k + 2).
  { split.
    - apply Z.log2_le_pow2; lia.
    - assert (Z.log2 q < k + 3); [|lia]. apply Z.log2_lt_pow2; [lia|].
      rewrite Z.pow_add_r by lia. change (2 ^ 3) with 8. lia. }
  set (sh := Z.log2 q - 52).
  assert (Hsh : 2 <= sh <= k - 50) by (unfold sh; lia).
  set (E := k - sh).
  assert (HE : 50 <= E) by (unfold E; lia).
  assert (Psh : 0 < 2 ^ sh) by (apply Z.pow_pos_nonneg; lia).
  assert (PE : 0 < 2 ^ E) by (apply Z.pow_pos_nonneg; lia).
  assert (Ek : 2 ^ k = 2 ^ E * 2 ^ sh).
  { unfold E. rewrite <- Z.pow_add_r by lia. f_equal. lia. }
  assert (Hr : 0 <= r < n) by (apply Z.mod_pos_bound; lia).
  assert (Hqr : t * 2 ^ k = q * n + r).
  { unfold q, r. rewrite (Z.mul_comm (_ / _) n). apply Z.div_mod. lia. }
  set (m := q / 2 ^ sh). set (lo := q mod 2 ^ sh). set (half := 2 ^ (sh - 1)).
  set (up := (half <? lo) || (lo =? half) && ((0 <? r) || Z.odd m)).
  set (m' := if up then m + 1 else m).
  assert (M1 : 2 ^ E <= m).
  { unfold m. apply Z.div_le_lower_bound; [lia|]. nia. }
  assert (M1' : 2 ^ E <= m') by (unfold m'; destruct up; lia).
  assert (Err : 2 * Z.abs (m' * n - t * 2 ^ E) <= n).
  { pose proof (round_half_ulp q sh r n m' ltac:(lia) ltac:(lia) Hr eq_refl) as U.
    rewrite <- Hqr, Ek in U.
    replace (m' * 2 ^ sh * n - t * (2 ^ E * 2 ^ sh))
      with ((m' * n - t * 2 ^ E) * 2 ^ sh) in U by ring.
    rewrite Z.abs_mul, (Z.abs_eq (2 ^ sh)) in U by lia.
    nia. }
  assert (tneg : (t <? 0) = false) by (apply Z.ltb_ge; lia).
  rewrite tneg.
  destruct (Z.eqb_spec m' (2 ^ 53)) as [E53|N53].
  - cbn [Double.toFixed2]. eexists. split; [reflexivity|].
    unfold Double.nearest_hundredth.
    destruct (Z.leb_spec 0 (sh - k + 1)); [lia|].
    rewrite Z2Pos.id by (apply Z.pow_pos_nonneg; lia).
    replace (- (sh - k + 1)) with (E - 1) by (unfold E; lia).
    replace (1 - (sh - k + 1)) with (1 + (E - 1)) by (unfold E; lia).
    apply (nearest_hundredth_error (2 ^ 52) (E - 1) _ t n); [lia|lia| |reflexivity].
    assert (E2 : 2 ^ E = 2 * 2 ^ (E - 1)).
    { replace E with (1 + (E - 1)) at 1 by lia. rewrite Z.pow_add_r by lia. reflexivity. }
    rewrite E53, E2 in Err. change (2 ^ 53) with (2 * 2 ^ 52) in Err.
    replace (2 * 2 ^ 52 * n - t * (2 * 2 ^ (E - 1)))
      with (2 * (2 ^ 52 * n - t * 2 ^ (E - 1))) in Err by ring.
    rewrite Z.abs_mul in Err. change (Z.abs 2) with 2 in Err. lia.
  - cbn [Double.toFixed2]. eexists. split; [reflexivity|].
    unfold Double.nearest_hundredth.
    destruct (Z.leb_spec 0 (sh - k)); [lia|].
    rewrite Z2Pos.id by lia.
    replace (- (sh - k)) with E by (unfold E; lia).
    replace (1 - (sh - k)) with (1 + E) by (unfold E; lia).
    apply (nearest_hundredth_error m' E _ t n); [lia|lia|exact Err|reflexivity].
Qed.

Lemma total_score_value l :
  (forall r, In r l -> exists v, score r = Num v /\ 1 <= v <= 7) ->
  forall a,
    fold_left (fun sum s => number_add sum (score s)) l (Num a)
    = Num (a + score_total l)
    /\ Z.of_nat (List.length l) <= score_total l <= 7 * Z.of_nat (List.length l).
Proof.
  induction l as [|s l IH]; cbn [fold_left List.length score_total fold_right];
    intros Hl a.
  - split; [f_equal; lia | lia].
  - destruct (Hl s (or_introl eq_refl)) as (v & E & Hv). rewrite E. cbn [number_add].
    destruct (IH (fun r Ir => Hl r (or_intror Ir)) (a + v)) as (-> & B).
    fold (score_total l). split; [f_equal; lia | lia].
Qed.

End AverageValue.

(** X12: in every state of the process, the average of an entry is the
    mean of the user's scores in the window, rounded to a nearest
    hundredth, as long as the entry counts fewer than 2^42 games: the
    two roundings, of the quotient to a double and of the double to
    two decimals, never add up to more than half a hundredth. *)
Theorem stats_average_is_rounded_mean `{Host} w startDate endDate st :
  reachable w ->
  In st (calculateStats (userScores w) startDate endDate) ->
  totalGames st < 2 ^ 42 ->
  exists a,
    averageScore st = Num a
    /\ 2 * Z.abs (a * totalGames st
                  - 100 * score_total
                            (filter (fun r => (startDate <=? timestamp r)
                                              && (timestamp r <=? endDate))
                                    (records_of (userScores w) (userId st))))
       <= totalGames st.
Proof.
  intros R I Few. apply reachable_store_ok in R.
  apply calculateStats_In in I as (u & arr & I & U).
  destruct (store_ok_entry _ _ _ R I) as [Er S].
  unfold user_stat in U.
  destruct (Z.ltb_spec 0 (Z.of_nat (List.length (filter (in_window startDate endDate) arr))))
    as [Pos|]; [|discriminate].
  inv U. cbn [averageScore totalGames userId] in *.
  change (fun r => (startDate <=? timestamp r) && (timestamp r <=? endDate))
    with (in_window startDate endDate).
  set (games := filter (in_window startDate endDate) (records_of (userScores w) u)) in *.
  destruct (total_score_value games) with (a := 0) as (-> & B).
  { intros r Ir. apply filter_In in Ir as [Ir _]. now apply S. }
  unfold rounded_average. cbn [Z.add].
  apply div_Z_nearest; lia.
Qed.

(** ** The calendar *)

(** Replace the numbers of days before the months at hand by their
    values. *)
Ltac eval_DaysBeforeMonth :=
  repeat match goal with
         | |- context [JSDate.DaysBeforeMonth ?l ?m] =>
             let v := eval vm_compute in (JSDate.DaysBeforeMonth l m) in
             change (JSDate.DaysBeforeMonth l m) with v
         end.

Section CalendarFacts.
Import JSDate.

Lemma DaysInYear_cases y : DaysInYear y = 365 \/ DaysInYear y = 366.
Proof.
  unfold DaysInYear.
  repeat match goal with
         | |- context [?a =? ?b] => destruct (Z.eqb_spec a b); cbn [negb]
         end; auto.
Qed.

Lemma DayFromYear_succ y : DayFromYear (y + 1) = DayFromYear y + DaysInYear y.
Proof.
  unfold DayFromYear, DaysInYear.
  replace (y + 1 - 1970) with (y - 1970 + 1) by lia.
  replace (y + 1 - 1969) with (y - 1969 + 1) by lia.
  replace (y + 1 - 1901) with (y - 1901 + 1) by lia.
  replace (y + 1 - 1601) with (y - 1601 + 1) by lia.
  assert (A4 : (y - 1969 + 1) / 4 = (y - 1969) / 4 + if y mod 4 =? 0 then 1 else 0).
  { destruct (Z.eqb_spec (y mod 4) 0); Z.to_euclidean_division_equations; lia. }
  assert (A100 : (y - 1901 + 1) / 100 = (y - 1901) / 100 + if y mod 100 =? 0 then 1 else 0).
  { destruct (Z.eqb_spec (y mod 100) 0); Z.to_euclidean_division_equations; lia. }
  assert (A400 : (y - 1601 + 1) / 400 = (y - 1601) / 400 + if y mod 400 =? 0 then 1 else 0).
  { destruct (Z.eqb_spec (y mod 400) 0); Z.to_euclidean_division_equations; lia. }
  rewrite A4, A100, A400.
  destruct (Z.eqb_spec (y mod 4) 0) as [E4|E4];
    destruct (Z.eqb_spec (y mod 100) 0) as [E100|E100];
    destruct (Z.eqb_spec (y mod 400) 0) as [E400|E400]; cbn [negb]; try lia;
    exfalso; Z.to_euclidean_division_equations; lia.
Qed.

Lemma leap_not_twice y : DaysInYear y = 366 -> DaysInYear (y - 1) = 365.
Proof.
  unfold DaysInYear.
  destruct (Z.eqb_spec (y mod 4) 0) as [E4|E4]; cbn [negb].
  - intros _. destruct (Z.eqb_spec ((y - 1) mod 4) 0) as [F4|F4]; cbn [negb];
      [exfalso; Z.to_euclidean_division_equations; lia | reflexivity].
  - discriminate.
Qed.

Lemma DayWithinYear_range t :
  0 <= DayWithinYear t < DaysInYear (YearFromTime t).
Proof.
  unfold DayWithinYear. pose proof (YearFromTime_spec t) as S.
  rewrite DayFromYear_succ in S. lia.
Qed.

Lemma month_of_day_spec (leap : bool) d :
  0 <= d < (if leap then 366 else 365) ->
  let m := month_of_day leap d [11; 10; 9; 8; 7; 6; 5; 4; 3; 2; 1; 0] in
  0 <= m <= 11
  /\ DaysBeforeMonth leap m <= d < DaysBeforeMonth leap (m + 1).
Proof.
  intros R. cbv zeta. cbn [month_of_day].
  destruct leap;
    repeat match goal with
           | |- context [if DaysBeforeMonth ?l ?m <=? d then _ else _] =>
               let v := eval vm_compute in (DaysBeforeMonth l m) in
               change (DaysBeforeMonth l m) with v;
               destruct (Z.leb_spec v d)
           end; eval_DaysBeforeMonth; lia.
Qed.

Lemma MonthFromTime_spec t :
  0 <= MonthFromTime t <= 11
  /\ DaysBeforeMonth (InLeapYear t) (MonthFromTime t) <= DayWithinYear t
     < DaysBeforeMonth (InLeapYear t) (MonthFromTime t + 1).
Proof.
  apply month_of_day_spec. pose proof (DayWithinYear_range t) as R.
  unfold InLeapYear.
  destruct (DaysInYear_cases (YearFromTime t)) as [E|E]; rewrite E in *;
    [change (365 =? 366) with false | change (366 =? 366) with true]; lia.
Qed.

Lemma DateFromTime_range t : 1 <= DateFromTime t <= 31.
Proof.
  unfold DateFromTime. destruct (MonthFromTime_spec t) as (Hm & Hd).
  set (m := MonthFromTime t) in *. set (l := InLeapYear t) in *.
  set (d := DayWithinYear t) in *. clearbody m l d.
  assert (Em : m = 0 \/ m = 1 \/ m = 2 \/ m = 3 \/ m = 4 \/ m = 5 \/ m = 6
               \/ m = 7 \/ m = 8 \/ m = 9 \/ m = 10 \/ m = 11) by lia.
  destruct l; repeat destruct Em as [-> | Em]; try subst m;
    vm_compute (_ + 1) in Hd; revert Hd; eval_DaysBeforeMonth;
    match goal with
    | |- context [DaysBeforeMonth] => idtac
    | _ => intros; lia
    end.
Qed.

(** The day of a time, put together again from its year, month and
    date. *)
Lemma MakeDay_of_time t :
  MakeDay (YearFromTime t) (MonthFromTime t) (DateFromTime t) = Day t.
Proof.
  destruct (MonthFromTime_spec t) as (Hm & _).
  unfold MakeDay, DateFromTime, DayWithinYear, InLeapYear.
  rewrite Z.div_small, Z.mod_small by lia. rewrite Z.add_0_r. lia.
Qed.

Lemma MakeDate_of_time t : MakeDate (Day t) (TimeWithinDay t) = t.
Proof.
  unfold MakeDate, Day, TimeWithinDay, msPerDay.
  Z.to_euclidean_division_equations; lia.
Qed.

End CalendarFacts.

Section FixedOffset.
Import JSDate.

Context `{Host}.
Variable c : Z.
Hypothesis Hc : fixed_offset c.

Lemma LocalTime_fixed t : LocalTime t = t + c.
Proof. unfold LocalTime. now rewrite Hc. Qed.

Lemma UTC_fixed t : UTC t = t - c.
Proof. unfold UTC. now rewrite Hc. Qed.

(** Local midnight of the day of [d]. *)
Lemma setHours_midnight d :
  setHours d 0 0 0 0 = Day (d + c) * msPerDay - c.
Proof.
  unfold setHours. rewrite UTC_fixed, LocalTime_fixed.
  unfold MakeDate, MakeTime. lia.
Qed.

Lemma setHours_shift d k :
  setHours (d - k * msPerDay) 0 0 0 0 = setHours d 0 0 0 0 - k * msPerDay.
Proof.
  rewrite !setHours_midnight.
  replace (d - k * msPerDay + c) with (d + c + (- k) * msPerDay) by lia.
  unfold Day. rewrite Z.div_add by (unfold msPerDay; lia). lia.
Qed.

(** Setting the year or the month moves a date by whole days. *)
Lemma set_date_shift d year month :
  UTC (MakeDate (MakeDay year month (DateFromTime (LocalTime d)))
                (TimeWithinDay (LocalTime d)))
  = d - (Day (LocalTime d) - MakeDay year month (DateFromTime (LocalTime d))) * msPerDay.
Proof.
  rewrite UTC_fixed.
  pose proof (MakeDate_of_time (LocalTime d)) as E. rewrite LocalTime_fixed in *.
  unfold MakeDate in *. lia.
Qed.

Lemma setFullYear_back d :
  exists days, 365 <= days <= 366
    /\ setFullYear d (getFullYear d - 1) = d - days * msPerDay.
Proof.
  unfold setFullYear, getFullYear. rewrite set_date_shift.
  set (t := LocalTime d).
  exists (Day t - MakeDay (YearFromTime t - 1) (MonthFromTime t) (DateFromTime t)).
  split; [|reflexivity].
  rewrite <- (MakeDay_of_time t).
  destruct (MonthFromTime_spec t) as (Hm & _).
  unfold MakeDay. rewrite Z.div_small, Z.mod_small by lia. rewrite !Z.add_0_r.
  set (y := YearFromTime t) in *. set (m := MonthFromTime t) in *. clearbody y m.
  pose proof (DayFromYear_succ (y - 1)) as S. replace (y - 1 + 1) with y in S by lia.
  pose proof (leap_not_twice y) as L.
  assert (Em : m = 0 \/ m = 1 \/ m = 2 \/ m = 3 \/ m = 4 \/ m = 5 \/ m = 6
               \/ m = 7 \/ m = 8 \/ m = 9 \/ m = 10 \/ m = 11) by lia.
  destruct (DaysInYear_cases y) as [Ey|Ey];
    destruct (DaysInYear_cases (y - 1)) as [Ep|Ep];
    rewrite ?Ey, ?Ep in *; try (specialize (L eq_refl); discriminate);
    [change (365 =? 366) with false | change (365 =? 366) with false;
                                       change (366 =? 366) with true
     | change (365 =? 366) with false; change (366 =? 366) with true];
    repeat destruct Em as [-> | Em]; try subst m; eval_DaysBeforeMonth; lia.
Qed.


Lemma setMonth_back d k lo hi :
  (k = 1 /\ lo = 28 /\ hi = 31) \/ (k = 3 /\ lo = 89 /\ hi = 92)
  \/ (k = 6 /\ lo = 181 /\ hi = 184) ->
  exists days, lo <= days <= hi
    /\ setMonth d (getMonth d - k) = d - days * msPerDay.
Proof.
  intros Hk. unfold setMonth, getMonth. rewrite set_date_shift.
  set (t := LocalTime d).
  exists (Day t - MakeDay (YearFromTime t) (MonthFromTime t - k) (DateFromTime t)).
  split; [|reflexivity].
  rewrite <- (MakeDay_of_time t).
  destruct (MonthFromTime_spec t) as (Hm & _).
  unfold MakeDay. rewrite (Z.div_small (MonthFromTime t)), (Z.mod_small (MonthFromTime t)) by lia.
  rewrite !Z.add_0_r.
  set (y := YearFromTime t) in *. set (m := MonthFromTime t) in *. clearbody y m.
  pose proof (DayFromYear_succ (y - 1)) as S. replace (y - 1 + 1) with y in S by lia.
  pose proof (leap_not_twice y) as L.
  assert (Em : m = 0 \/ m = 1 \/ m = 2 \/ m = 3 \/ m = 4 \/ m = 5 \/ m = 6
               \/ m = 7 \/ m = 8 \/ m = 9 \/ m = 10 \/ m = 11) by lia.
  destruct Hk as [(-> & -> & ->) | [(-> & -> & ->) | (-> & -> & ->)]];
    repeat destruct Em as [-> | Em]; try subst m;
    match goal with
    | |- context [(?a - ?b) / 12] =>
        let q := eval vm_compute in ((a - b) / 12) in
        let r := eval vm_compute in ((a - b) mod 12) in
        change ((a - b) / 12) with q; change ((a - b) mod 12) with r
    end;
    rewrite ?Z.add_0_r; try (replace (y + -1) with (y - 1) by lia);
    destruct (DaysInYear_cases y) as [Ey|Ey];
    destruct (DaysInYear_cases (y - 1)) as [Ep|Ep];
    rewrite ?Ey, ?Ep in *; try (specialize (L eq_refl); discriminate);
    change (365 =? 366) with false; change (366 =? 366) with true;
    eval_DaysBeforeMonth; lia.
Qed.

End FixedOffset.

(** X13: on a host at a fixed offset from UTC, the horizon of the crawl
    lies 365 or 366 days before the start of the crawl, to the
    millisecond. *)
Theorem horizon_is_a_year_back `{Host} c d :
  fixed_offset c ->
  exists days, 365 <= days <= 366
    /\ one_year_before d = d - days * JSDate.msPerDay.
Proof. intros Hc. unfold one_year_before. now apply (setFullYear_back c). Qed.

(** X14: on a host at a fixed offset from UTC, the period [today]
    starts at the local midnight that begins the day of the request:
    the start is a midnight in local time, and the request comes less
    than a day after it. *)
Theorem today_starts_at_local_midnight `{Host} c d :
  fixed_offset c ->
  let start := start_of_period (str "today") d in
  (start + c) mod JSDate.msPerDay = 0
  /\ start <= d < start + JSDate.msPerDay.
Proof.
  intros Hc. cbv zeta.
  change (start_of_period (str "today") d) with (JSDate.setHours d 0 0 0 0).
  rewrite (setHours_midnight c Hc). unfold JSDate.Day, JSDate.msPerDay.
  split; Z.to_euclidean_division_equations; lia.
Qed.

(** X15: on a host at a fixed offset from UTC, every period that the
    command offers starts at a local midnight, a whole number of days
    before the midnight that begins today: none for [today], 28 to 31
    for [month], 89 to 92 for [three_months], 181 to 184 for
    [six_months], and 365 or 366 for [year]. *)
Theorem period_reaches_back `{Host} c periodChoice d :
  fixed_offset c ->
  In periodChoice known_periods ->
  exists days,
    fst (days_back periodChoice) <= days <= snd (days_back periodChoice)
    /\ start_of_period periodChoice d
       = start_of_period (str "today") d - days * JSDate.msPerDay.
Proof.
  intros Hc I.
  change (start_of_period (str "today") d) with (JSDate.setHours d 0 0 0 0).
  unfold known_periods in I. cbn [In] in I.
  destruct I as [<-|[<-|[<-|[<-|[<-|[]]]]]].
  - exists 0. split; [simpl; lia|].
    change (start_of_period (str "today") d) with (JSDate.setHours d 0 0 0 0). lia.
  - destruct (setMonth_back c Hc d 1 28 31) as (days & R & E); [tauto|].
    exists days. split; [exact R|].
    change (start_of_period (str "month") d)
      with (JSDate.setHours (JSDate.setMonth d (JSDate.getMonth d - 1)) 0 0 0 0).
    rewrite E. apply (setHours_shift c Hc).
  - destruct (setMonth_back c Hc d 3 89 92) as (days & R & E); [tauto|].
    exists days. split; [exact R|].
    change (start_of_period (str "three_months") d)
      with (JSDate.setHours (JSDate.setMonth d (JSDate.getMonth d - 3)) 0 0 0 0).
    rewrite E. apply (setHours_shift c Hc).
  - destruct (setMonth_back c Hc d 6 181 184) as (days & R & E); [tauto|].
    exists days. split; [exact R|].
    change (start_of_period (str "six_months") d)
      with (JSDate.setHours (JSDate.setMonth d (JSDate.getMonth d - 6)) 0 0 0 0).
    rewrite E. apply (setHours_shift c Hc).
  - destruct (setFullYear_back c Hc d) as (days & R & E).
    exists days. split; [exact R|].
    change (start_of_period (str "year") d)
      with (JSDate.setHours (JSDate.setFullYear d (JSDate.getFullYear d - 1)) 0 0 0 0).
    rewrite E. apply (setHours_shift c Hc).
Qed.

(** ** The reply to the command *)

Section ReplyFacts.
Context `{Host}.
Variable users_fetch : snowflake -> option jsstring.



End ReplyFacts.



(** ** A live message and the crawl *)

Section LiveAndCrawl.
Context `{Host}.

(** The crawl of a history that lies within the horizon stores every
    message of it. *)
Lemma crawl_stores_history history fuel w u :
  newest_first history = true ->
  all_since (one_year_before (clock (clock_reads w))) history = true ->
  (List.length history / 100 < fuel)%nat ->
  records_of (userScores (snd (fetchHistoricalMessages fuel [[history_channel history]] w))) u
  = records_of (userScores w) u ++ records_from u history.
Proof.
  intros N A F. unfold fetchHistoricalMessages.
  assert (C : find_channel [history_channel history] = Some (history_channel history))
    by reflexivity.
  rewrite C. unfold bind, new_Date.
  rewrite (crawl_loop_history _ history N fuel [] history); auto.
  - change {| userScores := userScores w; clock_reads := S (clock_reads w) |}
      with (tick w).
    destruct (process_page_all _ _ A 0 (tick w)) as (w' & -> & R).
    cbn [snd]. apply R.
  - apply filter_keeps_all. apply Forall_forall. reflexivity.
Qed.

End LiveAndCrawl.

(** X18: the store does not recognise a message that it has seen.  A
    message with a result that was handled live, and that a later crawl
    meets in the history of the channel, is stored twice: the array of
    its author gets the same record once from the live handler and
    once more from the crawl. *)
Theorem live_message_is_stored_again `{Host} m r history fuel w :
  let w1 := snd (messageCreate m w) in
  let horizon := one_year_before (clock (clock_reads w1)) in
  jsstring_eqb (channel_name m) WORDLE_CHANNEL_NAME = true ->
  stored_record m = Some r ->
  In m history ->
  newest_first history = true ->
  all_since horizon history = true ->
  (List.length history / 100 < fuel)%nat ->
  exists between after,
    records_of
      (userScores (snd (fetchHistoricalMessages fuel [[history_channel history]] w1)))
      (author m)
    = records_of (userScores w) (author m) ++ [r] ++ between ++ [r] ++ after.
Proof.
  intros w1 horizon C S I N A F.
  rewrite (crawl_stores_history history fuel w1 (author m) N A F).
  subst w1. rewrite (messageCreate_as_page _ _ C).
  assert (A1 : all_since (createdAt m) [m] = true)
    by (simpl; now rewrite Z.leb_refl).
  destruct (process_page_all _ _ A1 0 w) as (w' & -> & R). cbn [snd].
  rewrite R.
  assert (One : forall l, records_from (author m) (m :: l)
                          = r :: records_from (author m) l).
  { intros l. unfold records_from. cbn [flat_map].
    now rewrite Z.eqb_refl, S. }
  apply in_split in I as (h1 & h2 & ->).
  rewrite records_from_app, !One.
  exists (records_from (author m) h1), (records_from (author m) h2).
  cbn [records_from flat_map]. rewrite <- !app_assoc. reflexivity.
Qed.

(* ================================================================== *)
(** * Part VIII: the further properties at work on the sample data *)
(* ================================================================== *)

Lemma tied_world_reachable : @reachable utc_host tied_world.
Proof.
  unfold tied_world. cbn [tied_history rev app fold_left].
  repeat apply reach_message. apply reach_start.
Qed.

Lemma utc_host_fixed_offset : @fixed_offset utc_host 0.
Proof. intros t isUTC. reflexivity. Qed.

(** X1 on a text with two results: the record is the one of the
    first. *)
Lemma parse_takes_leftmost_match_witness :
  let content := str "Wordle 870 4/6 and wordle 871 5/6*" in
  let r := {| wordleNumber := Num 870; score := Num 4; maxAttempts := Num 6;
              hardMode := false; timestamp := 1700000000000 |} in
  fst (@parseWordleScore utc_host content start_world) = Some r
  /\ exists pre whole post keyword blanks1 g1 blanks2 g2 g3 g4,
      content = pre ++ whole ++ post
      /\ whole = keyword ++ blanks1 ++ g1 ++ blanks2 ++ g2 ++ [47] ++ g3 ++ g4
      /\ RegExp.accepts true (RegExp.RLit (str "Wordle")) keyword
      /\ RegExp.accepts true (RegExp.RPlus RegExp.CSpace) blanks1
      /\ RegExp.accepts true number_pattern g1
      /\ RegExp.accepts true (RegExp.RPlus RegExp.CSpace) blanks2
      /\ RegExp.accepts true result_pattern g2
      /\ RegExp.accepts true max_pattern g3
      /\ RegExp.accepts true hard_pattern g4
      /\ RegExp.accepts true WORDLE_REGEX whole
      /\ r = record_of_groups g1 g2 g3 g4
                              (@clock utc_host (clock_reads start_world))
      /\ forall p1 p2 w' post',
          pre = p1 ++ p2 -> p2 <> [] ->
          p2 ++ whole ++ post = w' ++ post' ->
          ~ RegExp.accepts true WORDLE_REGEX w'.
Proof.
  intros content r.
  assert (P : fst (@parseWordleScore utc_host content start_world) = Some r)
    by (vm_compute; reflexivity).
  split; [exact P|].
  exact (@parse_takes_leftmost_match utc_host content start_world r P).
Defined.

(** X2 on a result whose puzzle number has four hundred digits: the
    field is the positive infinity. *)
Lemma parsed_record_is_well_formed_witness :
  let r := {| wordleNumber := Infinity false; score := Num 3; maxAttempts := Num 6;
              hardMode := false; timestamp := 1700000000000 |} in
  fst (@parseWordleScore utc_host huge_number_text start_world) = Some r
  /\ nonneg_number (wordleNumber r)
  /\ nonneg_number (maxAttempts r)
  /\ (exists v, score r = Num v /\ 1 <= v <= 7)
  /\ timestamp r = @clock utc_host (clock_reads start_world).
Proof.
  intros r.
  assert (P : fst (@parseWordleScore utc_host huge_number_text start_world) = Some r)
    by (vm_compute; reflexivity).
  split; [exact P|].
  exact (@parsed_record_is_well_formed utc_host huge_number_text start_world r P).
Defined.


(** X6 on the crawl of the three aged messages. *)
Lemma crawl_reports_what_it_stored_witness :
  let guilds := [[history_channel aged_history]] in
  let rep := {| ending := ReachedOldMessages; messagesProcessed := 3;
                scoresFound := 1 |} in
  fst (@fetchHistoricalMessages utc_host 1 guilds start_world) = Some rep
  /\ total_records
       (userScores (snd (@fetchHistoricalMessages utc_host 1 guilds start_world)))
     = total_records (userScores start_world) + scoresFound rep.
Proof.
  intros guilds rep.
  assert (P : fst (@fetchHistoricalMessages utc_host 1 guilds start_world) = Some rep)
    by (vm_compute; reflexivity).
  split; [exact P|].
  exact (@crawl_reports_what_it_stored utc_host 1%nat guilds start_world rep P).
Defined.

(** X7 on the three aged messages, with the second one as the first
    old message. *)
Lemma backfill_stops_at_the_horizon_witness :
  let horizon := @one_year_before utc_host (@clock utc_host (clock_reads start_world)) in
  let history := [aged_new] ++ aged_old :: [aged_older] in
  newest_first history = true
  /\ all_since horizon [aged_new] = true
  /\ createdAt aged_old < horizon
  /\ (List.length [aged_new] / 100 < 1)%nat
  /\ exists w',
      @fetchHistoricalMessages utc_host 1 [[history_channel history]] start_world
      = (Some {| ending := ReachedOldMessages;
                 messagesProcessed :=
                   Z.of_nat (Nat.min (List.length history)
                                     (100 * (List.length [aged_new] / 100 + 1)));
                 scoresFound := results_in [aged_new] |}, w')
      /\ forall u, records_of (userScores w') u
                   = records_of (userScores start_world) u
                     ++ records_from u [aged_new].
Proof.
  intros horizon history.
  assert (N : newest_first history = true) by (vm_compute; reflexivity).
  assert (A : all_since horizon [aged_new] = true) by (vm_compute; reflexivity).
  assert (Old : createdAt aged_old < horizon) by (vm_compute; reflexivity).
  assert (F : (List.length [aged_new] / 100 < 1)%nat)
    by (apply Nat.ltb_lt; vm_compute; reflexivity).
  split; [exact N|]. split; [exact A|]. split; [exact Old|]. split; [exact F|].
  exact (@backfill_stops_at_the_horizon utc_host [aged_new] aged_old [aged_older]
           1%nat start_world N A Old F).
Defined.

(** X8 on the sample state. *)
Lemma stats_list_active_users_witness :
  @reachable utc_host sample_world
  /\ NoDup (map userId (calculateStats (userScores sample_world)
                                       1699900000000 1699990000000))
  /\ forall u,
      In u (map userId (calculateStats (userScores sample_world)
                                       1699900000000 1699990000000))
      <-> exists r, In r (records_of (userScores sample_world) u)
                    /\ 1699900000000 <= timestamp r <= 1699990000000.
Proof.
  split; [exact sample_world_reachable|].
  exact (@stats_list_active_users utc_host sample_world 1699900000000 1699990000000
           sample_world_reachable).
Defined.

(** X9 on the sample state: the games of user 11 in five attempts. *)
Lemma stats_buckets_count_scores_witness :
  let st := {| userId := 11; totalGames := 2; averageScore := Num 400;
               distribution := {| d1 := 0; d2 := 0; d3 := 1; d4 := 0;
                                  d5 := 1; d6 := 0; dX := 0 |} |} in
  @reachable utc_host sample_world
  /\ In st (calculateStats (userScores sample_world) 0 1800000000000)
  /\ 1 <= 5 <= 7
  /\ bucket (distribution st) 5
     = Z.of_nat (List.length
                   (filter (has_score 5)
                      (filter (fun r => (0 <=? timestamp r)
                                        && (timestamp r <=? 1800000000000))
                              (records_of (userScores sample_world) (userId st))))).
Proof.
  intros st.
  assert (I : In st (calculateStats (userScores sample_world) 0 1800000000000))
    by (vm_compute; auto).
  assert (K : 1 <= 5 <= 7) by lia.
  split; [exact sample_world_reachable|]. split; [exact I|]. split; [exact K|].
  exact (@stats_buckets_count_scores utc_host sample_world 0 1800000000000 st 5
           sample_world_reachable I K).
Defined.

(** X10 on the state with a tie: the two users with the average 4.00
    stand in the order in which they posted. *)
Lemma stats_ties_keep_map_order_witness :
  @reachable utc_host tied_world
  /\ filter (has_average 400) (calculateStats (userScores tied_world) 0 1800000000000)
     = filter (has_average 400)
              (collect_stats 0 1800000000000 (JSMap.entries (userScores tied_world))).
Proof.
  split; [exact tied_world_reachable|].
  exact (@stats_ties_keep_map_order utc_host tied_world 0 1800000000000 400
           tied_world_reachable).
Defined.

(** X11 on the sample state: the entry of user 12, who failed. *)
Lemma stats_average_in_range_witness :
  let st := {| userId := 12; totalGames := 1; averageScore := Num 700;
               distribution := {| d1 := 0; d2 := 0; d3 := 0; d4 := 0;
                                  d5 := 0; d6 := 0; dX := 1 |} |} in
  @reachable utc_host sample_world
  /\ In st (calculateStats (userScores sample_world) 0 1800000000000)
  /\ exists a, averageScore st = Num a /\ 100 <= a <= 700.
Proof.
  intros st.
  assert (I : In st (calculateStats (userScores sample_world) 0 1800000000000))
    by (vm_compute; auto).
  split; [exact sample_world_reachable|]. split; [exact I|].
  exact (@stats_average_in_range utc_host sample_world 0 1800000000000 st
           sample_world_reachable I).
Defined.

(** X12 on the sample state: the entry of user 11, with the scores 5
    and 3. *)
Lemma stats_average_is_rounded_mean_witness :
  let st := {| userId := 11; totalGames := 2; averageScore := Num 400;
               distribution := {| d1 := 0; d2 := 0; d3 := 1; d4 := 0;
                                  d5 := 1; d6 := 0; dX := 0 |} |} in
  @reachable utc_host sample_world
  /\ In st (calculateStats (userScores sample_world) 0 1800000000000)
  /\ totalGames st < 2 ^ 42
  /\ exists a,
      averageScore st = Num a
      /\ 2 * Z.abs (a * totalGames st
                    - 100 * score_total
                              (filter (fun r => (0 <=? timestamp r)
                                                && (timestamp r <=? 1800000000000))
                                      (records_of (userScores sample_world) (userId st))))
         <= totalGames st.
Proof.
  intros st.
  assert (I : In st (calculateStats (userScores sample_world) 0 1800000000000))
    by (vm_compute; auto).
  assert (Few : totalGames st < 2 ^ 42) by (vm_compute; reflexivity).
  split; [exact sample_world_reachable|]. split; [exact I|]. split; [exact Few|].
  exact (@stats_average_is_rounded_mean utc_host sample_world 0 1800000000000 st
           sample_world_reachable I Few).
Defined.

(** X13 on the sample host, at the last day of February of a leap
    year. *)
Lemma horizon_is_a_year_back_witness :
  @fixed_offset utc_host 0
  /\ exists days, 365 <= days <= 366
       /\ @one_year_before utc_host 1709208000000
          = 1709208000000 - days * JSDate.msPerDay.
Proof.
  split; [exact utc_host_fixed_offset|].
  exact (@horizon_is_a_year_back utc_host 0 1709208000000 utc_host_fixed_offset).
Defined.

(** X14 on the sample host. *)
Lemma today_starts_at_local_midnight_witness :
  @fixed_offset utc_host 0
  /\ let start := @start_of_period utc_host (str "today") 1700000000000 in
     (start + 0) mod JSDate.msPerDay = 0
     /\ start <= 1700000000000 < start + JSDate.msPerDay.
Proof.
  split; [exact utc_host_fixed_offset|].
  exact (@today_starts_at_local_midnight utc_host 0 1700000000000
           utc_host_fixed_offset).
Defined.

(** X15 on the sample host, for the period [month] at the end of
    March. *)
Lemma period_reaches_back_witness :
  @fixed_offset utc_host 0
  /\ In (str "month") known_periods
  /\ exists days,
      fst (days_back (str "month")) <= days <= snd (days_back (str "month"))
      /\ @start_of_period utc_host (str "month") 1711886400000
         = @start_of_period utc_host (str "today") 1711886400000
           - days * JSDate.msPerDay.
Proof.
  assert (K : In (str "month") known_periods) by (simpl; auto).
  split; [exact utc_host_fixed_offset|]. split; [exact K|].
  exact (@period_reaches_back utc_host 0 (str "month") 1711886400000
           utc_host_fixed_offset K).
Defined.



(** X18 on the newest sample message, handled live and then met by a
    crawl of the sample history. *)
Lemma live_message_is_stored_again_witness :
  let m := sample_message 905 11 "Wordle 1,234 3/6*" 1699990000000 in
  let r := {| wordleNumber := Num 1234; score := Num 3; maxAttempts := Num 6;
              hardMode := true; timestamp := 1699990000000 |} in
  let w1 := snd (@messageCreate utc_host m start_world) in
  let horizon := @one_year_before utc_host (@clock utc_host (clock_reads w1)) in
  jsstring_eqb (channel_name m) WORDLE_CHANNEL_NAME = true
  /\ stored_record m = Some r
  /\ In m sample_history
  /\ newest_first sample_history = true
  /\ all_since horizon sample_history = true
  /\ (List.length sample_history / 100 < 1)%nat
  /\ exists between after,
      records_of
        (userScores (snd (@fetchHistoricalMessages utc_host 1
                            [[history_channel sample_history]] w1)))
        (author m)
      = records_of (userScores start_world) (author m)
        ++ [r] ++ between ++ [r] ++ after.
Proof.
  intros m r w1 horizon.
  assert (C : jsstring_eqb (channel_name m) WORDLE_CHANNEL_NAME = true)
    by (vm_compute; reflexivity).
  assert (S : stored_record m = Some r) by (vm_compute; reflexivity).
  assert (I : In m sample_history) by (left; reflexivity).
  assert (N : newest_first sample_history = true) by (vm_compute; reflexivity).
  assert (A : all_since horizon sample_history = true) by (vm_compute; reflexivity).
  assert (F : (List.length sample_history / 100 < 1)%nat)
    by (apply Nat.ltb_lt; vm_compute; reflexivity).
  split; [exact C|]. split; [exact S|]. split; [exact I|]. split; [exact N|].
  split; [exact A|]. split; [exact F|].
  exact (@live_message_is_stored_again utc_host m r sample_history 1%nat start_world
           C S I N A F).
Defined.

(** ** Checks of the reply *)

Example hundredths_to_string_examples :
  map hundredths_to_string [Num 200; Num 250; Num 233; Num 700; Num 105]
  = [str "2"; str "2.5"; str "2.33"; str "7"; str "1.05"].
Proof. vm_compute. reflexivity. Qed.

Example tied_stats_order :
  map userId (calculateStats (userScores tied_world) 0 1800000000000) = [32; 31; 33].
Proof. vm_compute. reflexivity. Qed.

Example reply_without_scores :
  fst (@interactionCreate utc_host sample_directory (sample_request "today") tied_world)
  = NoScoresFound.
Proof. vm_compute. reflexivity. Qed.
